(** * GradientShow: the gradient-descent engine of [src/GradientShow.py]

    A shallow embedding of [gradient_descent_pytorch] and the properties of
    its trajectory.  The tensor [x] holds two [torch.float32] numbers; the
    Python-level arguments ([start_point], [learning_rate], [tolerance]) and
    the recorded samples are Python floats, i.e. IEEE-754 binary64.  Both
    formats are taken from the Standard Library's executable specification
    of IEEE-754 arithmetic ([SpecFloat]), so the model runs on concrete
    inputs, infinities and NaN included.

    The file has three parts: the definitions (numbers, the function, the
    objectives used as examples, the predicates the statements need); the
    facts about the loop, which hold for every objective and rest on its
    control flow alone; and the float32 arithmetic behind the descent on
    the bowl [x1^2 + x2^2], where rounding and overflow decide.  After
    these come further facts about the engine (prefixes, exceptions,
    stationary starts), the objectives of the catalogue that float32
    arithmetic alone defines, the call in [main], and what the two figures
    read from the path: their ranges, markers and frames. *)

From Stdlib Require Import String ZArith List Bool Lia.
From Stdlib Require Import Floats.SpecFloat.
Import ListNotations.
Local Open Scope Z_scope.

(** ** Numbers *)

Module IEEE.

(** An element of a [torch.float32] tensor: binary32, round to nearest
    even (precision 24, infinities at exponent 128). *)
Definition f32 := spec_float.

(** A Python [float]: binary64 (precision 53, infinities at 1024). *)
Definition f64 := spec_float.

Definition mul32 : f32 -> f32 -> f32 := SFmul 24 128.
Definition add32 : f32 -> f32 -> f32 := SFadd 24 128.
Definition sub32 : f32 -> f32 -> f32 := SFsub 24 128.
Definition div32 : f32 -> f32 -> f32 := SFdiv 24 128.
Definition sqrt32 : f32 -> f32 := SFsqrt 24 128.

(** The fused multiply-add [a * b + c] of float32: the exact product is
    added to [c] and the sum rounded once.  With an infinite or a zero
    product the sum is the one of [add32]; with a zero [c] and a product
    that is not zero it is the rounded product. *)
Definition fma32 (a b c : f32) : f32 :=
  match a, b with
  | S754_nan, _ | _, S754_nan => S754_nan
  | S754_infinity _, S754_zero _ | S754_zero _, S754_infinity _ => S754_nan
  | S754_infinity sa, S754_infinity sb
  | S754_infinity sa, S754_finite sb _ _
  | S754_finite sa _ _, S754_infinity sb =>
      add32 (S754_infinity (xorb sa sb)) c
  | S754_zero sa, S754_zero sb
  | S754_zero sa, S754_finite sb _ _
  | S754_finite sa _ _, S754_zero sb =>
      add32 (S754_zero (xorb sa sb)) c
  | S754_finite sa ma ea, S754_finite sb mb eb =>
      match c with
      | S754_finite sc mc ec =>
          let ez := Z.min (ea + eb) ec in
          binary_normalize 24 128
            (cond_Zopp (xorb sa sb)
               (Z.pos (fst (shl_align (ma * mb) (ea + eb) ez)))
             + cond_Zopp sc (Z.pos (fst (shl_align mc ec ez))))
            ez false
      | S754_zero _ => mul32 a b
      | _ => c
      end
  end.

(** Conversion of a Python float to [torch.float32] (what
    [torch.tensor(..., dtype=torch.float32)] does to each entry, and what
    a Python scalar undergoes when it meets a float32 tensor): the
    nearest binary32, ties to even, overflowing to an infinity. *)
Definition to_f32 (d : f64) : f32 :=
  match d with
  | S754_finite s m e => binary_round 24 128 s m e
  | _ => d
  end.

(** [.item()] on a float32 element: the same number as a Python float.
    Every binary32 is a binary64, so no rounding happens; the mantissa is
    only re-aligned to 53 bits. *)
Definition item (a : f32) : f64 :=
  match a with
  | S754_finite s m e => binary_round 53 1024 s m e
  | _ => a
  end.

(** Python's [<] and [==] on floats. *)
Definition py_lt (a b : f64) : bool := SFltb a b.
Definition py_eq (a b : f64) : bool := SFeqb a b.

(** Binary64 and binary32 numbers from integers and from decimal
    literals [numer / denom] (one correctly rounded division, which is what
    reading a short decimal literal yields). *)
Definition f64_of_Z (n : Z) : f64 := binary_normalize 53 1024 n 0 false.
Definition f64_lit (numer denom : Z) : f64 :=
  SFdiv 53 1024 (f64_of_Z numer) (f64_of_Z denom).
Definition f32_of_Z (n : Z) : f32 := binary_normalize 24 128 n 0 false.

Definition pinf : spec_float := S754_infinity false.
Definition ninf : spec_float := S754_infinity true.
Definition pzero : spec_float := S754_zero false.

End IEEE.
Import IEEE.

(** ** Python outcomes

    The function contains no [try]; an exception raised by the objective
    (the only foreign code it calls besides torch arithmetic, which never
    raises on float32 data) leaves [gradient_descent_pytorch] as it is. *)

Inductive exn : Type :=
| PyExc (name : string).

Inductive py (A : Type) : Type :=
| Ok (a : A)
| Raise (e : exn).
Arguments Ok {A} a.
Arguments Raise {A} e.

Definition bind {A B : Type} (c : py A) (k : A -> py B) : py B :=
  match c with
  | Ok a => k a
  | Raise e => Raise e
  end.

Notation "x <- c ;; k" := (bind c (fun x => k))
  (at level 61, c at next level, right associativity).

(** ** Data *)

(** The tensor [x]: two float32 coordinates. *)
Definition tensor : Type := (f32 * f32)%type.

(** One row [[x1, x2, f(x1, x2)]] of the path: three Python floats. *)
Record sample : Type := mkSample { s_x1 : f64; s_x2 : f64; s_y : f64 }.

(** The objective [func] as the engine uses it: [call x1 x2] is
    [func(x[0], x[1])]; [backward x1 x2] is the content of [x.grad] after
    [x.grad.zero_()] and [y.backward()] on that call, i.e. the gradient
    reverse-mode differentiation yields at [(x1, x2)]. *)
Record objective : Type := mkObjective {
  call : f32 -> f32 -> py f32;
  backward : f32 -> f32 -> py tensor
}.

(** [torch.tensor(start_point, dtype=torch.float32)]. *)
Definition torch_tensor (start_point : f64 * f64) : tensor :=
  (to_f32 (fst start_point), to_f32 (snd start_point)).

(** [learning_rate * grad]: the Python scalar becomes a float32 and
    multiplies each entry. *)
Definition scale (learning_rate : f64) (grad : tensor) : tensor :=
  (mul32 (to_f32 learning_rate) (fst grad),
   mul32 (to_f32 learning_rate) (snd grad)).

(** [x -= d]. *)
Definition isub (x d : tensor) : tensor :=
  (sub32 (fst x) (fst d), sub32 (snd x) (snd d)).

(** [torch.norm(grad)]: the 2-norm of the two entries, in float32.  The
    kernel runs through the entries in order with an accumulator that
    starts at zero, each step [acc += v * v] a fused multiply-add, and
    returns the square root of the accumulator: the square of the first
    entry is rounded, the one of the second is not before it is added. *)
Definition torch_norm (grad : tensor) : f32 :=
  sqrt32 (fma32 (snd grad) (snd grad) (fma32 (fst grad) (fst grad) pzero)).

(** The row appended for tensor [x] with objective value [y]. *)
Definition row (x : tensor) (y : f32) : sample :=
  mkSample (item (fst x)) (item (snd x)) (item y).

(** The stopping test of line 102. *)
Definition converged (grad : tensor) (tolerance : f64) : bool :=
  py_lt (item (torch_norm grad)) tolerance.

(** ** The loop

    The state carried round the loop: the tensor, the path, and a ghost
    counter of the executions of [x -= learning_rate * grad]. *)
Record run_state : Type := mkState {
  st_x : tensor;
  st_path : list sample;
  st_updates : nat
}.

(** The body of [for i in range(1, max_iters + 1)], with [iters] the
    iterations the range still has to deliver. *)
Fixpoint descent_loop (func : objective) (learning_rate tolerance : f64)
    (iters : nat) (st : run_state) : py run_state :=
  match iters with
  | O => Ok st
  | S iters' =>
      let x := st_x st in
      _y <- call func (fst x) (snd x) ;;
      grad <- backward func (fst x) (snd x) ;;
      let x' := isub x (scale learning_rate grad) in
      new_y <- call func (fst x') (snd x') ;;
      let st' := mkState x' (st_path st ++ [row x' new_y])
                         (S (st_updates st)) in
      if converged grad tolerance then Ok st'
      else descent_loop func learning_rate tolerance iters' st'
  end.

(** Lines 68-74 followed by the loop. *)
Definition descent_run (func : objective) (start_point : f64 * f64)
    (learning_rate : f64) (max_iters : Z) (tolerance : f64) : py run_state :=
  let x := torch_tensor start_point in
  y <- call func (fst x) (snd x) ;;
  descent_loop func learning_rate tolerance (Z.to_nat max_iters)
    (mkState x [row x y] 0).

(** What the caller gets: [np.array(path)]. *)
Definition gradient_descent_pytorch (func : objective)
    (start_point : f64 * f64) (learning_rate : f64) (max_iters : Z)
    (tolerance : f64) : py (list sample) :=
  st <- descent_run func start_point learning_rate max_iters tolerance ;;
  Ok (st_path st).

(** ** Objectives used below *)

Definition two32 : f32 := f32_of_Z 2.
Definition one32 : f32 := f32_of_Z 1.

(** [lambda x1, x2: x1**2 + x2**2].  The power rule gives [2 * x] for
    each element; the backward pass sends [(2 * x1, 0)] back through
    [x[0]] and [(0, 2 * x2)] through [x[1]], and [x.grad] is their sum,
    so that a zero entry of the gradient is [+0.0] also at [-0.0]. *)
Definition bowl : objective :=
  mkObjective
    (fun x1 x2 => Ok (add32 (mul32 x1 x1) (mul32 x2 x2)))
    (fun x1 x2 =>
       Ok (add32 (mul32 two32 x1) pzero, add32 pzero (mul32 two32 x2))).

(** The flat objective [f(x1, x2) = 0]: value zero, gradient zero, as
    [lambda x1, x2: 0 * x1 + 0 * x2] has them at every finite point. *)
Definition flat : objective :=
  mkObjective (fun _ _ => Ok pzero) (fun _ _ => Ok (pzero, pzero)).

(** [lambda x1, x2: 1 / x1]: an objective that divides by [x1]; the
    derivative of the reciprocal [r] is [-(r * r)], and [x2] does not
    occur. *)
Definition reciprocal : objective :=
  mkObjective
    (fun x1 _ => Ok (div32 one32 x1))
    (fun x1 _ => let r := div32 one32 x1 in Ok (SFopp (mul32 r r), pzero)).

(** The parameters [main] passes. *)
Definition main_start : f64 * f64 := (pzero, pzero).
Definition main_learning_rate : f64 := f64_lit 1 100.
Definition main_max_iters : Z := 1000.
Definition main_tolerance : f64 := f64_lit 1 1000000.

(** ** The loop as a step relation

    [at_head] collects the states in which control can stand at the head
    of the [for] loop of a run: the state built by lines 68-74, and every
    state an iteration leaves behind when its test on line 102 fails. *)

Section Run.

Variable func : objective.
Variable start_point : f64 * f64.
Variables learning_rate tolerance : f64.

(** One execution of lines 82-97 from state [st], with gradient [grad]
    and new objective value [new_y]. *)
Definition after_update (st : run_state) (grad : tensor) (new_y : f32)
    : run_state :=
  let x' := isub (st_x st) (scale learning_rate grad) in
  mkState x' (st_path st ++ [row x' new_y]) (S (st_updates st)).

(** The objective answers at the tensor of [st] with gradient [grad], and
    at the updated tensor with value [new_y]. *)
Definition answers (st : run_state) (grad : tensor) (new_y : f32) : Prop :=
  (exists y, call func (fst (st_x st)) (snd (st_x st)) = Ok y) /\
  backward func (fst (st_x st)) (snd (st_x st)) = Ok grad /\
  let x' := isub (st_x st) (scale learning_rate grad) in
  call func (fst x') (snd x') = Ok new_y.

Inductive at_head : run_state -> Prop :=
| head_first y :
    call func (fst (torch_tensor start_point))
              (snd (torch_tensor start_point)) = Ok y ->
    at_head (mkState (torch_tensor start_point)
                     [row (torch_tensor start_point) y] 0)
| head_next st grad new_y :
    at_head st ->
    answers st grad new_y ->
    converged grad tolerance = false ->
    at_head (after_update st grad new_y).

(** How a run ends: the range is used up, or an iteration's test on
    line 102 succeeds and [break] leaves the loop. *)
Inductive finished (max_iters : Z) : run_state -> Prop :=
| fin_exhausted st :
    at_head st ->
    st_updates st = Z.to_nat max_iters ->
    finished max_iters st
| fin_break st grad new_y :
    at_head st ->
    (st_updates st < Z.to_nat max_iters)%nat ->
    answers st grad new_y ->
    converged grad tolerance = true ->
    finished max_iters (after_update st grad new_y).

(** The objective raises nowhere. *)
Definition never_raises : Prop :=
  forall a b, (exists y, call func a b = Ok y) /\
              (exists g, backward func a b = Ok g).

End Run.

(** Two consecutive rows [s], [s'] of a path, as an update step: [s] is
    the row of a tensor [p] at which the objective has gradient [g], and
    [s'] holds in each coordinate [p - learning_rate * g]. *)
Definition update_between (func : objective) (learning_rate : f64)
    (s s' : sample) (p g : tensor) : Prop :=
  s_x1 s = item (fst p) /\ s_x2 s = item (snd p) /\
  backward func (fst p) (snd p) = Ok g /\
  s_x1 s' = item (sub32 (fst p) (mul32 (to_f32 learning_rate) (fst g))) /\
  s_x2 s' = item (sub32 (snd p) (mul32 (to_f32 learning_rate) (snd g))).

(** The recorded value of a row is the objective at the row's tensor. *)
Definition value_recorded (func : objective) (s : sample) (p : tensor) : Prop :=
  exists y, call func (fst p) (snd p) = Ok y /\ s = row p y.

(** ** The shape of a path *)

(** The link between rows [i-1] and [i] of a path, with the outcome
    [c] of the test on line 102 in iteration [i]. *)
Definition link (func : objective) (learning_rate tolerance : f64)
    (path : list sample) (i : nat) (c : bool) : Prop :=
  exists s s' p g,
    nth_error path (i - 1) = Some s /\ nth_error path i = Some s' /\
    value_recorded func s p /\
    update_between func learning_rate s s' p g /\
    value_recorded func s' (isub p (scale learning_rate g)) /\
    converged g tolerance = c.

(** The last row of a state's path is the row of its tensor. *)
Definition last_is_current (func : objective) (st : run_state) : Prop :=
  exists y, call func (fst (st_x st)) (snd (st_x st)) = Ok y /\
            nth_error (st_path st) (st_updates st) = Some (row (st_x st) y).

Definition first_is_start (func : objective) (start_point : f64 * f64)
    (st : run_state) : Prop :=
  exists y, call func (fst (torch_tensor start_point))
                      (snd (torch_tensor start_point)) = Ok y /\
            nth_error (st_path st) 0 = Some (row (torch_tensor start_point) y).

(** The shape of the path of a state: one row more than updates, the
    first row for the start, the last for the current tensor. *)
Definition shaped (func : objective) (start_point : f64 * f64)
    (st : run_state) : Prop :=
  length (st_path st) = S (st_updates st) /\
  first_is_start func start_point st /\ last_is_current func st.

(** The recorded values never go up: [path[i+1][2] <= path[i][2]]. *)
Definition non_increasing (path : list sample) : Prop :=
  forall i s s',
    nth_error path i = Some s -> nth_error path (S i) = Some s' ->
    SFleb (s_y s') (s_y s) = true.

(** A Python float that float32 holds exactly: converting it to float32
    and reading it back gives the same float. *)
Definition float32_exact (d : f64) : Prop := item (to_f32 d) = d.

(** A float that is not below zero: not a negative number and not minus
    infinity (signed zeros and NaN included). *)
Definition not_negative (a : spec_float) : Prop :=
  match a with
  | S754_finite true _ _ | S754_infinity true => False
  | _ => True
  end.

(** ** Floats as integers

    The arithmetic facts about the run are stated on the numbers the
    floats stand for.  A zero or finite float [(-1)^s * m * 2^e] is read
    in units of [2^-L], as the integer [(-1)^s * m * 2^(e+L)]; rounding to
    a format is then a function on integers. *)

Module Scaled.

(** Division by [2 ^ k], rounding to nearest, ties to even. *)
Definition rne_div (v k : Z) : Z :=
  let q := v / 2 ^ k in
  match 2 * (v mod 2 ^ k) ?= 2 ^ k with
  | Lt => q
  | Eq => if Z.even q then q else q + 1
  | Gt => q + 1
  end.

(** The exponent of the last place of a magnitude [v], for a precision of
    [prec] bits and least exponent [c]; and the magnitude rounded there. *)
Definition ulp_exp (prec c v : Z) : Z := Z.max (Z.log2 v + 1 - prec) c.

Definition round_int (prec c v : Z) : Z :=
  rne_div v (ulp_exp prec c v) * 2 ^ ulp_exp prec c v.

(** Where a remainder [r] of a division by [2 ^ k] lies: zero, or below,
    at or above the half. *)
Definition loc_of (r k : Z) : location :=
  if r =? 0 then loc_Exact else loc_Inexact (2 * r ?= 2 ^ k).

(** The number a zero or finite float stands for, in units of [2 ^ -L]. *)
Definition scaled (L : Z) (a : spec_float) : Z :=
  match a with
  | S754_finite s m e => cond_Zopp s (Z.pos m * 2 ^ (e + L))
  | _ => 0
  end.

Definition is_finite (a : spec_float) : bool :=
  match a with
  | S754_zero _ | S754_finite _ _ _ => true
  | _ => false
  end.

(** The sign bit. *)
Definition sign_of (a : spec_float) : bool :=
  match a with
  | S754_zero s | S754_infinity s | S754_finite s _ _ => s
  | S754_nan => false
  end.

(** A zero or a finite float of the format [(prec, emax)]. *)
Definition in_format (prec emax : Z) (a : spec_float) : Prop :=
  is_finite a = true /\ valid_binary prec emax a = true.

(** Rounding to the format, on magnitudes and on signed numbers. *)
Definition round_mag (prec emax L v : Z) : Z :=
  round_int prec (emin prec emax + L) v.

Definition round_num (prec emax L v : Z) : Z :=
  if v <? 0 then - round_mag prec emax L (- v) else round_mag prec emax L v.

End Scaled.
Import Scaled.

(** *** The two formats on one scale

    Numbers are counted in units of [2 ^ -1074], the least positive
    binary64 number; every binary32 and binary64 number is an integer
    then, and so is every product of two binary32 numbers. *)

Definition scale_exp : Z := 1074.

Definition num (a : spec_float) : Z := scaled scale_exp a.
Definition in_float32 : spec_float -> Prop := in_format 24 128.
Definition in_float64 : spec_float -> Prop := in_format 53 1024.
Definition round_mag32 : Z -> Z := round_mag 24 128 scale_exp.
Definition round32 : Z -> Z := round_num 24 128 scale_exp.

(** The number one on the scale, and [2 ^ 128]: where float32
    overflows. *)
Definition unit_scaled : Z := 2 ^ scale_exp.
Definition top_scaled : Z := 2 ^ (128 + scale_exp).

(** The power [2 ^ k] as a normal binary32 number. *)
Definition pow2_32 (k : Z) : f32 := S754_finite false 8388608 (k - 23).

(** A float32 number of magnitude below [2 ^ 127]: its double is
    finite. *)
Definition within (x : f32) : Prop :=
  in_float32 x /\ 2 * Z.abs (num x) < top_scaled.

(** A float32 number or plus infinity, and what it stands for. *)
Definition ext32 (a : f32) : Prop := in_float32 a \/ a = pinf.

Definition num_ext (a : f32) : Z :=
  match a with
  | S754_infinity false => top_scaled
  | _ => num a
  end.

Definition capped (v : Z) : Z := Z.min v top_scaled.

(** The value of the bowl, and the square of a coordinate on the
    scale. *)
Definition bowl_value (x1 x2 : f32) : f32 :=
  add32 (mul32 x1 x1) (mul32 x2 x2).

Definition square_scaled (x : f32) : Z :=
  round32 (num x * num x / 2 ^ scale_exp).

(** The Python float [1.0]. *)
Definition one64 : f64 := f64_of_Z 1.

(** A finite Python float: a zero or a finite binary64 number. *)
Definition python_finite (d : f64) : Prop := in_float64 d.

(** The gradient of [func] at the tensor [x] has two finite entries. *)
Definition gradient_finite (func : objective) (x : tensor) : Prop :=
  exists g, backward func (fst x) (snd x) = Ok g /\
            is_finite (fst g) = true /\ is_finite (snd g) = true.

(** What holds of every state of a run on the bowl: both coordinates
    within range, the last row that of the tensor, the values so far
    never going up. *)
Definition bowl_inv (st : run_state) : Prop :=
  within (fst (st_x st)) /\ within (snd (st_x st)) /\
  (exists init,
     st_path st
     = init ++ [row (st_x st) (bowl_value (fst (st_x st)) (snd (st_x st)))]) /\
  non_increasing (st_path st).

(** ** The catalogue of objectives

    The functions of lines 13-53 that use float32 arithmetic alone, on
    two elements of the tensor.  A Python number that meets a float32
    element joins it as a float32; [t ** 2] is the product of [t] with
    itself.  Where Python hands an operation with a number on the left to
    the reflected operator of the tensor, the IEEE result is the one
    written here. *)

Definition f32_lit (numer denom : Z) : f32 := to_f32 (f64_lit numer denom).

Definition square (t : f32) : f32 := mul32 t t.

(** [(x1**2 + x2 - 11)**2 + (x1 + x2**2 - 7)**2]. *)
Definition himmelblau (x1 x2 : f32) : f32 :=
  add32 (square (sub32 (add32 (square x1) x2) (f32_of_Z 11)))
        (square (sub32 (add32 x1 (square x2)) (f32_of_Z 7))).

(** [(a - x1)**2 + b * (x2 - x1**2)**2] with the defaults [a=1],
    [b=100]. *)
Definition rosenbrock (x1 x2 : f32) : f32 :=
  add32 (square (sub32 (f32_of_Z 1) x1))
        (mul32 (f32_of_Z 100) (square (sub32 x2 (square x1)))).

(** [(x1 + 2 * x2 - 7)**2 + (2 * x1 + x2 - 5)**2]. *)
Definition booth (x1 x2 : f32) : f32 :=
  add32 (square (sub32 (add32 x1 (mul32 two32 x2)) (f32_of_Z 7)))
        (square (sub32 (add32 (mul32 two32 x1) x2) (f32_of_Z 5))).

(** The three terms of [beale] and their sum.  [cube] stands for
    [x2 ** 3], the one power of the catalogue kept here that is not a
    square. *)
Definition beale (cube : f32 -> f32) (x1 x2 : f32) : f32 :=
  let term1 := square (add32 (sub32 (f32_lit 3 2) x1) (mul32 x1 x2)) in
  let term2 :=
    square (add32 (sub32 (f32_lit 9 4) x1) (mul32 x1 (square x2))) in
  let term3 :=
    square (add32 (sub32 (f32_lit 21 8) x1) (mul32 x1 (cube x2))) in
  add32 (add32 term1 term2) term3.

(** [0.5 + (r**2 - 25 * r + 100) / (1 + 0.001 * r**2)], where [r] is
    the sum [x1**2 + x2**2] that the source writes out three times. *)
Definition schaffer (x1 x2 : f32) : f32 :=
  let r := add32 (square x1) (square x2) in
  add32 (f32_lit 1 2)
    (div32 (add32 (sub32 (square r) (mul32 (f32_of_Z 25) r)) (f32_of_Z 100))
           (add32 (f32_of_Z 1) (mul32 (f32_lit 1 1000) (square r)))).

(** [0.26 * (x1**2 + x2**2) - 0.48 * x1 * x2]. *)
Definition matyas (x1 x2 : f32) : f32 :=
  sub32 (mul32 (f32_lit 26 100) (add32 (square x1) (square x2)))
        (mul32 (mul32 (f32_lit 48 100) x1) x2).

(** A function of the catalogue as the engine receives it: a call
    returns its value, and the backward pass is the one of autograd,
    [grad]. *)
Definition differentiated (f : f32 -> f32 -> f32)
    (grad : f32 -> f32 -> py tensor) : objective :=
  mkObjective (fun x1 x2 => Ok (f x1 x2)) grad.

(** An objective that refuses a zero: [1 / x1] on the Python float of
    [x1], which raises [ZeroDivisionError] there. *)
Definition guarded : objective :=
  mkObjective
    (fun x1 _ =>
       match x1 with
       | S754_zero _ => Raise (PyExc "ZeroDivisionError")
       | _ => Ok (div32 one32 x1)
       end)
    (fun x1 _ => let r := div32 one32 x1 in Ok (SFopp (mul32 r r), pzero)).

(** ** The call in [main]

    Lines 264-272: the descent as [main] starts it on the selected
    objective. *)
Definition main_descent (selected_func : objective) : py (list sample) :=
  gradient_descent_pytorch selected_func main_start main_learning_rate
    main_max_iters main_tolerance.

(** ** What the figures take from the path

    Both figures read the path as an array of rows.  [path[i]] with an
    integer [i] counts from the end when [i] is negative and raises
    outside the array; the slice [path[:stop]] is cut to the array. *)

Definition np_row (path : list sample) (i : Z) : py sample :=
  let n := Z.of_nat (length path) in
  let j := if i <? 0 then i + n else i in
  if (0 <=? j) && (j <? n) then
    match nth_error path (Z.to_nat j) with
    | Some s => Ok s
    | None => Raise (PyExc "IndexError")
    end
  else Raise (PyExc "IndexError").

Definition np_rows_upto (path : list sample) (stop : Z) : list sample :=
  let n := Z.of_nat (length path) in
  let k := if stop <? 0 then Z.max 0 (stop + n) else Z.min stop n in
  firstn (Z.to_nat k) path.

Definition is_nan (a : spec_float) : bool :=
  match a with
  | S754_nan => true
  | _ => false
  end.

(** numpy's [minimum] and [maximum] of two floats: the first operand
    when the comparison holds or it is NaN, else the second. *)
Definition np_minimum (a b : f64) : f64 :=
  if SFleb a b || is_nan a then a else b.

Definition np_maximum (a b : f64) : f64 :=
  if SFleb b a || is_nan a then a else b.

(** [np.min] and [np.max] of a column: the reduction from its first
    entry; there is none for an empty column. *)
Definition np_min (col : list f64) : py f64 :=
  match col with
  | [] => Raise (PyExc "ValueError")
  | a :: rest => Ok (fold_left np_minimum rest a)
  end.

Definition np_max (col : list f64) : py f64 :=
  match col with
  | [] => Raise (PyExc "ValueError")
  | a :: rest => Ok (fold_left np_maximum rest a)
  end.

Definition two64 : f64 := f64_of_Z 2.

(** Lines 121-122 and 167-168: [np.min(col) - 2, np.max(col) + 2] for
    one column, and the two ranges of a figure. *)
Definition axis_range (col : list f64) : py (f64 * f64) :=
  lo <- np_min col ;;
  hi <- np_max col ;;
  Ok (SFsub 53 1024 lo two64, SFadd 53 1024 hi two64).

Definition plot_range (path : list sample)
    : py ((f64 * f64) * (f64 * f64)) :=
  r1 <- axis_range (map s_x1 path) ;;
  r2 <- axis_range (map s_x2 path) ;;
  Ok (r1, r2).

(** Lines 141-142: the rows marked as start and as minimum. *)
Definition start_marker (path : list sample) : py sample := np_row path 0.
Definition end_marker (path : list sample) : py sample := np_row path (-1).

(** What [update(frame)] hands to the artists (lines 205-210): the three
    columns of the line, the marked point, and the iteration shown in the
    text. *)
Record frame_data : Type := mkFrame {
  line_x1 : list f64;
  line_x2 : list f64;
  line_y : list f64;
  point : sample;
  shown_iteration : Z
}.

Definition update (path : list sample) (frame : Z) : py frame_data :=
  s <- np_row path frame ;;
  let shown := np_rows_upto path (frame + 1) in
  Ok (mkFrame (map s_x1 shown) (map s_x2 shown) (map s_y shown) s frame).

(** [frames=len(path)]: the frames [0, ..., len(path) - 1], each drawn
    once ([repeat=False]). *)
Definition frames (path : list sample) : list Z :=
  map Z.of_nat (seq 0 (length path)).

Fixpoint draw_all (path : list sample) (fs : list Z) : py (list frame_data) :=
  match fs with
  | [] => Ok []
  | f :: fs' =>
      d <- update path f ;;
      ds <- draw_all path fs' ;;
      Ok (d :: ds)
  end.

Definition animation (path : list sample) : py (list frame_data) :=
  draw_all path (frames path).

(** A finite Python float of magnitude below [2 ^ 128], as every reading
    of a finite float32 is. *)
Definition plain (d : f64) : Prop :=
  in_float64 d /\ Z.abs (num d) < top_scaled.

(** The power [2 ^ k] as a normal binary64 number. *)
Definition pow2_64 (k : Z) : f64 := S754_finite false 4503599627370496 (k - 52).
(** A pair of floats in the box of the tensor [x0]: each no farther
    from zero than the coordinate of [x0]. *)
Definition in_box (x0 : tensor) (a b : spec_float) : Prop :=
  Z.abs (num a) <= Z.abs (num (fst x0)) /\
  Z.abs (num b) <= Z.abs (num (snd x0)).

(** What holds of every state of a run on the bowl from the tensor
    [x0], besides [bowl_inv]: the tensor and every row are in the box of
    [x0], the rows with plain coordinates. *)
Definition bowl_box (x0 : tensor) (st : run_state) : Prop :=
  in_box x0 (fst (st_x st)) (snd (st_x st)) /\
  forall s, In s (st_path st) ->
    plain (s_x1 s) /\ plain (s_x2 s) /\ in_box x0 (s_x1 s) (s_x2 s).

(** ** What the loop establishes *)

Section Loop_facts.

Variable func : objective.
Variable start_point : f64 * f64.
Variables learning_rate tolerance : f64.

Local Abbreviation head := (at_head func start_point learning_rate tolerance).
Local Abbreviation fin := (finished func start_point learning_rate tolerance).
Local Abbreviation loop := (descent_loop func learning_rate tolerance).
Local Abbreviation upd := (after_update learning_rate).
Local Abbreviation link := (link func learning_rate tolerance).
Local Abbreviation shaped := (shaped func start_point).
Local Abbreviation first_is_start := (first_is_start func start_point).
Local Abbreviation last_is_current := (last_is_current func).

Lemma link_app path extra i c :
  link path i c -> link (path ++ extra) i c.
Proof.
  intros (s & s' & p & g & H1 & H2 & H).
  exists s, s', p, g. split; [|split]; trivial.
  - rewrite nth_error_app1; trivial.
    apply nth_error_Some. congruence.
  - rewrite nth_error_app1; trivial.
    apply nth_error_Some. congruence.
Qed.

Lemma shaped_update st grad new_y :
  shaped st -> answers func learning_rate st grad new_y ->
  shaped (upd st grad new_y) /\
  link (st_path (upd st grad new_y)) (S (st_updates st))
       (converged grad tolerance).
Proof.
  intros (Hlen & (y0 & Hy0 & Hfirst) & (y & Hy & Hlast)) (_ & Hg & Hnew).
  cbn zeta in Hnew.
  unfold shaped, first_is_start, last_is_current, after_update.
  cbn [st_path st_updates st_x].
  set (x' := isub (st_x st) (scale learning_rate grad)) in *.
  assert (Hat : nth_error (st_path st ++ [row x' new_y]) (S (st_updates st))
                = Some (row x' new_y)).
  { rewrite nth_error_app2 by lia. rewrite Hlen, Nat.sub_diag. reflexivity. }
  split; [split; [|split]|].
  - rewrite length_app, Hlen. cbn. lia.
  - exists y0. split; trivial. cbn [st_path].
    rewrite nth_error_app1; trivial. lia.
  - exists new_y. cbn [st_x st_path st_updates]. split; trivial.
  - exists (row (st_x st) y), (row x' new_y), (st_x st), grad.
    replace (S (st_updates st) - 1)%nat with (st_updates st) by lia.
    split; [|split; [|split; [|split; [|split]]]]; trivial.
    + rewrite nth_error_app1; trivial. lia.
    + exists y. split; trivial.
    + unfold update_between, row, x', isub, scale. cbn.
      repeat split; trivial.
    + exists new_y. split; trivial.
Qed.

(** At the head of the loop every update so far is linked to the one
    before it and failed the test on line 102. *)
Lemma head_shaped st :
  head st ->
  shaped st /\
  forall i, (1 <= i <= st_updates st)%nat -> link (st_path st) i false.
Proof.
  induction 1 as [y Hy | st grad new_y Hst [IHs IHl] Hans Hconv].
  - split.
    + split; [reflexivity|]. split; exists y; split; trivial.
    + cbn. intros i Hi. lia.
  - destruct (shaped_update st grad new_y IHs Hans) as [Hs Hl].
    split; trivial.
    intros i Hi. cbn [after_update st_updates] in Hi.
    destruct (Nat.eq_dec i (S (st_updates st))) as [->|Hne].
    + rewrite <- Hconv. exact Hl.
    + unfold after_update. cbn [st_path]. apply link_app, IHl. lia.
Qed.

(** The loop ends in a [finished] state. *)
Lemma descent_loop_finished max_iters iters st st' :
  head st ->
  (st_updates st + iters = Z.to_nat max_iters)%nat ->
  loop iters st = Ok st' ->
  fin max_iters st'.
Proof.
  revert st. induction iters as [|iters IH]; intros st Hst Hn Hrun.
  - cbn in Hrun. injection Hrun as <-.
    apply fin_exhausted; trivial. lia.
  - cbn [descent_loop] in Hrun.
    destruct (call func (fst (st_x st)) (snd (st_x st))) as [y|e] eqn:Hy;
      [|discriminate].
    cbn [bind] in Hrun.
    destruct (backward func (fst (st_x st)) (snd (st_x st)))
      as [grad|e] eqn:Hg; [|discriminate].
    cbn [bind] in Hrun.
    set (x' := isub (st_x st) (scale learning_rate grad)) in *.
    destruct (call func (fst x') (snd x')) as [new_y|e] eqn:Hnew;
      [|discriminate].
    cbn [bind] in Hrun.
    assert (Hans : answers func learning_rate st grad new_y).
    { split; [exists y; trivial|]. split; trivial. }
    destruct (converged grad tolerance) eqn:Hc.
    + injection Hrun as <-.
      apply (fin_break _ _ _ _ max_iters st grad new_y); trivial. lia.
    + apply (IH (upd st grad new_y)); trivial.
      * apply head_next; trivial.
      * cbn. lia.
Qed.

(** With an objective that never raises the loop returns. *)
Lemma descent_loop_returns iters st :
  never_raises func -> exists st', loop iters st = Ok st'.
Proof.
  intros Hnr. revert st. induction iters as [|iters IH]; intros st.
  - exists st. reflexivity.
  - cbn [descent_loop].
    destruct (Hnr (fst (st_x st)) (snd (st_x st))) as [[y ->] [g ->]].
    cbn [bind].
    destruct (Hnr (fst (isub (st_x st) (scale learning_rate g)))
                  (snd (isub (st_x st) (scale learning_rate g))))
      as [[y' ->] _].
    cbn [bind].
    destruct (converged g tolerance); eauto.
Qed.

Lemma descent_run_finished max_iters st :
  descent_run func start_point learning_rate max_iters tolerance = Ok st ->
  fin max_iters st.
Proof.
  unfold descent_run. intros Hrun.
  destruct (call func (fst (torch_tensor start_point))
                      (snd (torch_tensor start_point))) as [y|e] eqn:Hy;
    [|discriminate].
  cbn [bind] in Hrun.
  eapply descent_loop_finished; [| |exact Hrun].
  - apply head_first; trivial.
  - reflexivity.
Qed.

Lemma descent_run_returns max_iters :
  never_raises func ->
  exists st,
    descent_run func start_point learning_rate max_iters tolerance = Ok st /\
    gradient_descent_pytorch func start_point learning_rate max_iters
      tolerance = Ok (st_path st).
Proof.
  intros Hnr. unfold gradient_descent_pytorch, descent_run.
  destruct (Hnr (fst (torch_tensor start_point))
                (snd (torch_tensor start_point))) as [[y ->] _].
  cbn [bind].
  destruct (descent_loop_returns (Z.to_nat max_iters)
              (mkState (torch_tensor start_point)
                       [row (torch_tensor start_point) y] 0) Hnr)
    as [st ->].
  exists st. split; reflexivity.
Qed.

(** A finished state: its shape, its links, and why it stopped: the
    last iteration, and only the last, passed the test on line 102 or
    was the last of the range. *)
Lemma finished_shaped max_iters st :
  fin max_iters st ->
  shaped st /\
  (st_updates st <= Z.to_nat max_iters)%nat /\
  forall i, (1 <= i <= st_updates st)%nat ->
    exists c, link (st_path st) i c /\
      (i = st_updates st <-> c = true \/ i = Z.to_nat max_iters).
Proof.
  destruct 1 as [st Hst Hn | st grad new_y Hst Hlt Hans Hc].
  - destruct (head_shaped st Hst) as [Hs Hl].
    split; trivial. split; [lia|].
    intros i Hi. exists false. split; [apply Hl; trivial|].
    split; [intros ->; right; trivial|].
    intros [H|H]; [discriminate|lia].
  - destruct (head_shaped st Hst) as [Hs Hl].
    destruct (shaped_update st grad new_y Hs Hans) as [Hs' Hl'].
    split; trivial. cbn [after_update st_updates]. split; [lia|].
    intros i Hi. destruct (Nat.eq_dec i (S (st_updates st))) as [->|Hne].
    + exists true. rewrite <- Hc at 1. split; [exact Hl'|]. tauto.
    + exists false. split.
      * unfold after_update. cbn [st_path]. apply link_app, Hl. lia.
      * split; [intros H; contradiction|].
        intros [H|H]; [discriminate|lia].
Qed.

End Loop_facts.

(** ** Objectives that never raise *)

Lemma bowl_never_raises : never_raises bowl.
Proof. intros a b. split; eexists; reflexivity. Qed.

Lemma flat_never_raises : never_raises flat.
Proof. intros a b. split; eexists; reflexivity. Qed.

Lemma reciprocal_never_raises : never_raises reciprocal.
Proof. intros a b. split; eexists; reflexivity. Qed.

(** ** Runs on concrete inputs *)

(** With the parameters of [main] the bowl is at its minimum from the
    start: the gradient is zero, one update is made and recorded, and the
    test on line 102 ends the loop. *)
Example main_run_on_bowl :
  gradient_descent_pytorch bowl main_start main_learning_rate main_max_iters
    main_tolerance
  = Ok [mkSample pzero pzero pzero; mkSample pzero pzero pzero].
Proof. vm_compute. reflexivity. Qed.

(** From [(5, 5)] with the learning rate [0.1] the tolerance [1e-6] ends
    the run after 75 of the 1000 iterations, at a point within [1e-3] of
    the origin and a value below [1e-6]. *)
Example bowl_converges :
  exists path last,
    gradient_descent_pytorch bowl (f64_of_Z 5, f64_of_Z 5) (f64_lit 1 10)
      1000 (f64_lit 1 1000000) = Ok path /\
    length path = 76%nat /\
    nth_error path 75 = Some last /\
    py_lt (s_x1 last) (f64_lit 1 1000) = true /\
    py_lt (s_x2 last) (f64_lit 1 1000) = true /\
    py_lt (s_y last) (f64_lit 1 1000000) = true.
Proof.
  eexists. eexists. split; [vm_compute; reflexivity|].
  split; [reflexivity|]. split; [reflexivity|].
  split; [reflexivity|]. split; reflexivity.
Qed.

(** The norm of the gradient [(0.1, 0.2)] is the float32
    [0.22360679507], one unit in the last place below what separately
    rounded squares would give, and below [0.2236068]: from
    [(0.05, 0.1)] with that tolerance the run stops after the first of
    its three iterations. *)
Example bowl_stops_on_fused_norm :
  backward bowl (to_f32 (f64_lit 5 100)) (to_f32 (f64_lit 1 10))
  = Ok (to_f32 (f64_lit 1 10), to_f32 (f64_lit 2 10)) /\
  torch_norm (to_f32 (f64_lit 1 10), to_f32 (f64_lit 2 10))
  = S754_finite false 15005998 (-26) /\
  py_lt (item (S754_finite false 15005998 (-26))) (f64_lit 2236068 10000000)
  = true /\
  exists path,
    gradient_descent_pytorch bowl (f64_lit 5 100, f64_lit 1 10) (f64_lit 1 10)
      3 (f64_lit 2236068 10000000) = Ok path /\
    length path = 2%nat.
Proof.
  split; [reflexivity|]. split; [reflexivity|]. split; [reflexivity|].
  eexists. split; [vm_compute; reflexivity|reflexivity].
Qed.

(** ** The trajectory *)

(** The run returns; its path has one row more than it made updates,
    and these are at most, and with a non-empty range at least one of, the
    iterations of the range. *)
Lemma trajectory_length_aux func start_point learning_rate max_iters
    tolerance :
  never_raises func ->
  exists st,
    descent_run func start_point learning_rate max_iters tolerance = Ok st /\
    gradient_descent_pytorch func start_point learning_rate max_iters
      tolerance = Ok (st_path st) /\
    length (st_path st) = S (st_updates st) /\
    (st_updates st <= Z.to_nat max_iters)%nat /\
    (1 <= max_iters -> (1 <= st_updates st)%nat).
Proof.
  intros Hnr.
  destruct (descent_run_returns func start_point learning_rate tolerance
              max_iters Hnr) as (st & Hrun & Hgd).
  exists st. split; trivial. split; trivial.
  pose proof (descent_run_finished _ _ _ _ _ _ Hrun) as Hfin.
  destruct (finished_shaped _ _ _ _ _ _ Hfin) as ((Hlen & _) & Hle & _).
  repeat split; trivial.
  destruct Hfin as [st _ Hn | st grad new_y _ _ _ _]; intros Hmax.
  - lia.
  - cbn. lia.
Qed.

(** C1.  In a run on an objective that never raises, every iteration
    made leaves its row: the returned trajectory has one row more than
    updates were made, of which there are at most [max_iters] and, with
    [max_iters >= 1], at least one.  Every row [i >= 1] holds, in each of
    its two coordinates, the coordinate of row [i-1] minus the learning
    rate times the gradient of the objective at the point of row [i-1];
    the arithmetic is that of the float32 tensor, which the learning rate
    joins as a float32. *)
Theorem update_rule func start_point learning_rate max_iters tolerance :
  never_raises func ->
  exists st,
    descent_run func start_point learning_rate max_iters tolerance = Ok st /\
    gradient_descent_pytorch func start_point learning_rate max_iters
      tolerance = Ok (st_path st) /\
    length (st_path st) = S (st_updates st) /\
    (st_updates st <= Z.to_nat max_iters)%nat /\
    (1 <= max_iters -> (1 <= st_updates st)%nat) /\
    forall i, (1 <= i < length (st_path st))%nat ->
      exists s s' p g,
        nth_error (st_path st) (i - 1) = Some s /\
        nth_error (st_path st) i = Some s' /\
        update_between func learning_rate s s' p g.
Proof.
  intros Hnr.
  destruct (trajectory_length_aux func start_point learning_rate max_iters
              tolerance Hnr) as (st & Hrun & Hgd & Hlen & Hle & Hup).
  exists st. repeat (split; trivial).
  destruct (finished_shaped _ _ _ _ _ _
              (descent_run_finished _ _ _ _ _ _ Hrun))
    as (_ & _ & Hlinks).
  intros i Hi. rewrite Hlen in Hi.
  destruct (Hlinks i) as (c & (s & s' & p & g & H1 & H2 & _ & Hu & _) & _);
    [lia|].
  exists s, s', p, g. auto.
Qed.

Lemma update_rule_witness :
  never_raises bowl /\
  exists st,
    descent_run bowl (f64_of_Z 5, f64_of_Z 5) (f64_lit 1 10) 1000
      (f64_lit 1 1000000) = Ok st /\
    gradient_descent_pytorch bowl (f64_of_Z 5, f64_of_Z 5) (f64_lit 1 10)
      1000 (f64_lit 1 1000000) = Ok (st_path st) /\
    length (st_path st) = S (st_updates st) /\
    (st_updates st <= Z.to_nat 1000)%nat /\
    (1 <= 1000 -> (1 <= st_updates st)%nat) /\
    forall i, (1 <= i < length (st_path st))%nat ->
      exists s s' p g,
        nth_error (st_path st) (i - 1) = Some s /\
        nth_error (st_path st) i = Some s' /\
        update_between bowl (f64_lit 1 10) s s' p g.
Proof.
  split; [exact bowl_never_raises|].
  apply (update_rule bowl (f64_of_Z 5, f64_of_Z 5) (f64_lit 1 10) 1000
           (f64_lit 1 1000000)).
  intros a b. split; eexists; reflexivity.
Defined.

(** C2.  In a run on an objective that never raises, every iteration
    made leaves its row (one row more than updates, at least one update
    with [max_iters >= 1]), and an executed iteration [i] is the last one
    exactly when the norm of the gradient taken at its pre-update point
    (the point of row [i-1]) is strictly below the tolerance, or [i] is
    [max_iters]; with a norm equal to the tolerance and [i] short of
    [max_iters] the run goes on. *)
Theorem stopping_rule func start_point learning_rate max_iters tolerance :
  never_raises func ->
  exists st,
    descent_run func start_point learning_rate max_iters tolerance = Ok st /\
    gradient_descent_pytorch func start_point learning_rate max_iters
      tolerance = Ok (st_path st) /\
    length (st_path st) = S (st_updates st) /\
    (1 <= max_iters -> (1 <= st_updates st)%nat) /\
    forall i, (1 <= i <= st_updates st)%nat ->
      exists s p g,
        nth_error (st_path st) (i - 1) = Some s /\
        value_recorded func s p /\
        backward func (fst p) (snd p) = Ok g /\
        (i = st_updates st <->
         py_lt (item (torch_norm g)) tolerance = true \/
         Z.of_nat i = max_iters) /\
        (py_eq (item (torch_norm g)) tolerance = true ->
         Z.of_nat i <> max_iters -> (i < st_updates st)%nat).
Proof.
  intros Hnr.
  destruct (trajectory_length_aux func start_point learning_rate max_iters
              tolerance Hnr) as (st & Hrun & Hgd & Hlen & _ & Hup).
  exists st. split; trivial. split; trivial. split; trivial. split; trivial.
  destruct (finished_shaped _ _ _ _ _ _
              (descent_run_finished _ _ _ _ _ _ Hrun))
    as (_ & Hle & Hlinks).
  intros i Hi.
  destruct (Hlinks i Hi)
    as (c & (s & s' & p & g & H1 & _ & Hv & (_ & _ & Hg & _) & _ & Hc) & Hiff).
  exists s, p, g. repeat (split; trivial).
  - intros H. apply Hiff in H. unfold converged in Hc.
    destruct H as [H|H]; [left; congruence|right; lia].
  - intros [H|H]; apply Hiff.
    + left. unfold converged in Hc. congruence.
    + right. lia.
  - intros Heq Hne.
    assert (Hlt : py_lt (item (torch_norm g)) tolerance = false).
    { unfold py_lt, py_eq, SFltb, SFeqb in *.
      destruct (SFcompare (item (torch_norm g)) tolerance) as [[]|];
        trivial; discriminate. }
    destruct (Nat.eq_dec i (st_updates st)) as [He|He]; [|lia].
    apply Hiff in He. unfold converged in Hc.
    destruct He as [He|He]; [congruence|lia].
Qed.

Lemma stopping_rule_witness :
  never_raises bowl /\
  exists st,
    descent_run bowl (f64_of_Z 5, f64_of_Z 5) (f64_lit 1 10) 1000
      (f64_lit 1 1000000) = Ok st /\
    gradient_descent_pytorch bowl (f64_of_Z 5, f64_of_Z 5) (f64_lit 1 10)
      1000 (f64_lit 1 1000000) = Ok (st_path st) /\
    length (st_path st) = S (st_updates st) /\
    (1 <= 1000 -> (1 <= st_updates st)%nat) /\
    forall i, (1 <= i <= st_updates st)%nat ->
      exists s p g,
        nth_error (st_path st) (i - 1) = Some s /\
        value_recorded bowl s p /\
        backward bowl (fst p) (snd p) = Ok g /\
        (i = st_updates st <->
         py_lt (item (torch_norm g)) (f64_lit 1 1000000) = true \/
         Z.of_nat i = 1000) /\
        (py_eq (item (torch_norm g)) (f64_lit 1 1000000) = true ->
         Z.of_nat i <> 1000 -> (i < st_updates st)%nat).
Proof.
  split; [exact bowl_never_raises|].
  apply (stopping_rule bowl (f64_of_Z 5, f64_of_Z 5) (f64_lit 1 10) 1000
           (f64_lit 1 1000000)).
  intros a b. split; eexists; reflexivity.
Defined.

(** C3.  With [max_iters >= 1] and an objective that never raises, the
    returned trajectory has between 1 and [max_iters + 1] rows, one more
    than the number of update steps performed. *)
Theorem trajectory_length func start_point learning_rate max_iters tolerance :
  never_raises func ->
  1 <= max_iters ->
  exists st,
    descent_run func start_point learning_rate max_iters tolerance = Ok st /\
    gradient_descent_pytorch func start_point learning_rate max_iters
      tolerance = Ok (st_path st) /\
    1 <= Z.of_nat (length (st_path st)) <= max_iters + 1 /\
    length (st_path st) = (1 + st_updates st)%nat.
Proof.
  intros Hnr Hmax.
  destruct (trajectory_length_aux func start_point learning_rate max_iters
              tolerance Hnr) as (st & Hrun & Hgd & Hlen & Hle & _).
  exists st. rewrite Hlen. repeat split; trivial; lia.
Qed.

Lemma trajectory_length_witness :
  never_raises bowl /\ 1 <= 1000 /\
  exists st,
    descent_run bowl (f64_of_Z 5, f64_of_Z 5) (f64_lit 1 10) 1000
      (f64_lit 1 1000000) = Ok st /\
    gradient_descent_pytorch bowl (f64_of_Z 5, f64_of_Z 5) (f64_lit 1 10)
      1000 (f64_lit 1 1000000) = Ok (st_path st) /\
    1 <= Z.of_nat (length (st_path st)) <= 1000 + 1 /\
    length (st_path st) = (1 + st_updates st)%nat.
Proof.
  split; [exact bowl_never_raises|]. split; [lia|].
  apply (trajectory_length bowl (f64_of_Z 5, f64_of_Z 5) (f64_lit 1 10) 1000
           (f64_lit 1 1000000)).
  - intros a b. split; eexists; reflexivity.
  - lia.
Defined.

(** C10.  With [max_iters >= 1] the returned trajectory has at least two
    rows: the row of the first update is appended before the test on
    line 102 is reached, so one update is performed whatever the gradient
    norm at the start. *)
Theorem first_update_always func start_point learning_rate max_iters
    tolerance :
  never_raises func ->
  1 <= max_iters ->
  exists st,
    descent_run func start_point learning_rate max_iters tolerance = Ok st /\
    gradient_descent_pytorch func start_point learning_rate max_iters
      tolerance = Ok (st_path st) /\
    (2 <= length (st_path st))%nat /\ (1 <= st_updates st)%nat.
Proof.
  intros Hnr Hmax.
  destruct (trajectory_length_aux func start_point learning_rate max_iters
              tolerance Hnr) as (st & Hrun & Hgd & Hlen & _ & Hup).
  specialize (Hup Hmax).
  exists st. rewrite Hlen. repeat split; trivial; lia.
Qed.

Lemma first_update_always_witness :
  never_raises flat /\ 1 <= 1000 /\
  exists st,
    descent_run flat main_start main_learning_rate 1000 main_tolerance
      = Ok st /\
    gradient_descent_pytorch flat main_start main_learning_rate 1000
      main_tolerance = Ok (st_path st) /\
    (2 <= length (st_path st))%nat /\ (1 <= st_updates st)%nat.
Proof.
  split; [exact flat_never_raises|]. split; [lia|].
  apply (first_update_always flat main_start main_learning_rate 1000
           main_tolerance).
  - intros a b. split; eexists; reflexivity.
  - lia.
Defined.

(** C8.  On an objective that never raises the loop terminates, after at
    most [max_iters] iterations, and for one of two reasons only: the
    range is used up, or the last iteration's gradient norm was below the
    tolerance. *)
Theorem loop_terminates func start_point learning_rate max_iters tolerance :
  never_raises func ->
  exists st,
    descent_run func start_point learning_rate max_iters tolerance = Ok st /\
    (st_updates st <= Z.to_nat max_iters)%nat /\
    (st_updates st = Z.to_nat max_iters \/
     exists s p g,
       nth_error (st_path st) (st_updates st - 1) = Some s /\
       value_recorded func s p /\
       backward func (fst p) (snd p) = Ok g /\
       converged g tolerance = true).
Proof.
  intros Hnr.
  destruct (descent_run_returns func start_point learning_rate tolerance
              max_iters Hnr) as (st & Hrun & _).
  exists st. split; trivial.
  pose proof (descent_run_finished _ _ _ _ _ _ Hrun) as Hfin.
  destruct (finished_shaped _ _ _ _ _ _ Hfin) as (_ & Hle & Hlinks).
  split; trivial.
  destruct (Nat.eq_dec (st_updates st) 0) as [H0|H0].
  - left. inversion Hfin as [st0 _ Hn | st0 grad new_y _ _ _ _ Heq].
    + trivial.
    + subst st. discriminate H0.
  - destruct (Hlinks (st_updates st))
      as (c & (s & s' & p & g & H1 & _ & Hv & (_ & _ & Hg & _) & _ & Hc)
          & Hiff);
      [lia|].
    destruct (proj1 Hiff eq_refl) as [Hcv|Hm]; [|left; trivial].
    right. exists s, p, g. subst c. auto.
Qed.

Lemma loop_terminates_witness :
  never_raises bowl /\
  exists st,
    descent_run bowl (f64_of_Z 5, f64_of_Z 5) (f64_lit 1 10) 1000
      (f64_lit 1 1000000) = Ok st /\
    (st_updates st <= Z.to_nat 1000)%nat /\
    (st_updates st = Z.to_nat 1000 \/
     exists s p g,
       nth_error (st_path st) (st_updates st - 1) = Some s /\
       value_recorded bowl s p /\
       backward bowl (fst p) (snd p) = Ok g /\
       converged g (f64_lit 1 1000000) = true).
Proof.
  split; [exact bowl_never_raises|].
  apply (loop_terminates bowl (f64_of_Z 5, f64_of_Z 5) (f64_lit 1 10) 1000
           (f64_lit 1 1000000)).
  intros a b. split; eexists; reflexivity.
Defined.

(** ** The first row *)

(** The first row is the row of the start tensor. *)
Lemma first_row func start_point learning_rate max_iters tolerance :
  never_raises func ->
  exists path y,
    gradient_descent_pytorch func start_point learning_rate max_iters
      tolerance = Ok path /\
    call func (to_f32 (fst start_point)) (to_f32 (snd start_point)) = Ok y /\
    nth_error path 0 = Some (row (torch_tensor start_point) y).
Proof.
  intros Hnr.
  destruct (descent_run_returns func start_point learning_rate tolerance
              max_iters Hnr) as (st & Hrun & Hgd).
  destruct (finished_shaped _ _ _ _ _ _
              (descent_run_finished _ _ _ _ _ _ Hrun))
    as ((_ & (y & Hy & Hfirst) & _) & _).
  exists (st_path st), y. auto.
Qed.

(** C4, as the code has it.  The first row of the returned trajectory is
    the start point after its conversion to float32, with the objective
    evaluated there; its coordinates are the configured ones whenever
    float32 holds these exactly. *)
Theorem first_sample func start_point learning_rate max_iters tolerance :
  never_raises func ->
  exists path s y,
    gradient_descent_pytorch func start_point learning_rate max_iters
      tolerance = Ok path /\
    nth_error path 0 = Some s /\
    s_x1 s = item (to_f32 (fst start_point)) /\
    s_x2 s = item (to_f32 (snd start_point)) /\
    call func (to_f32 (fst start_point)) (to_f32 (snd start_point)) = Ok y /\
    s_y s = item y /\
    (float32_exact (fst start_point) -> s_x1 s = fst start_point) /\
    (float32_exact (snd start_point) -> s_x2 s = snd start_point).
Proof.
  intros Hnr.
  destruct (first_row func start_point learning_rate max_iters tolerance Hnr)
    as (path & y & Hgd & Hy & Hfirst).
  exists path, (row (torch_tensor start_point) y), y.
  unfold float32_exact. cbn. repeat (split; trivial).
Qed.

Lemma first_sample_witness :
  never_raises bowl /\
  exists path s y,
    gradient_descent_pytorch bowl main_start main_learning_rate
      main_max_iters main_tolerance = Ok path /\
    nth_error path 0 = Some s /\
    s_x1 s = item (to_f32 (fst main_start)) /\
    s_x2 s = item (to_f32 (snd main_start)) /\
    call bowl (to_f32 (fst main_start)) (to_f32 (snd main_start)) = Ok y /\
    s_y s = item y /\
    (float32_exact (fst main_start) -> s_x1 s = fst main_start) /\
    (float32_exact (snd main_start) -> s_x2 s = snd main_start).
Proof.
  split; [exact bowl_never_raises|].
  apply (first_sample bowl main_start main_learning_rate main_max_iters
           main_tolerance).
  intros a b. split; eexists; reflexivity.
Defined.

(** C4 as stated fails: from the start point [[0.1, 0.0]] the first row
    holds [0.10000000149011612], the float32 nearest to [0.1], which is
    neither identical nor [==] to the configured [0.1]. *)
Lemma first_sample_not_exact :
  exists path s,
    gradient_descent_pytorch bowl (f64_lit 1 10, pzero) main_learning_rate
      main_max_iters main_tolerance = Ok path /\
    nth_error path 0 = Some s /\
    s_x1 s = S754_finite false 7205759511166976 (-56) /\
    f64_lit 1 10 = S754_finite false 7205759403792794 (-56) /\
    py_eq (s_x1 s) (f64_lit 1 10) = false /\
    s_x1 s <> f64_lit 1 10.
Proof.
  destruct (first_row bowl (f64_lit 1 10, pzero) main_learning_rate
              main_max_iters main_tolerance bowl_never_raises)
    as (path & y & Hgd & _ & Hs).
  exists path, (row (torch_tensor (f64_lit 1 10, pzero)) y).
  repeat split; trivial.
  vm_compute. discriminate.
Qed.

(** ** A single iteration *)

(** C5, as the code has it.  With [max_iters = 1] the trajectory has
    exactly two rows, whatever the tolerance and whatever the gradient
    norm: the update is made and recorded before the test. *)
Theorem single_iteration func start_point learning_rate tolerance :
  never_raises func ->
  exists path,
    gradient_descent_pytorch func start_point learning_rate 1 tolerance
      = Ok path /\
    length path = 2%nat.
Proof.
  intros Hnr.
  destruct (trajectory_length_aux func start_point learning_rate 1 tolerance
              Hnr) as (st & Hrun & Hgd & Hlen & Hle & Hup).
  exists (st_path st). split; trivial.
  specialize (Hup ltac:(lia)). change (Z.to_nat 1) with 1%nat in Hle. lia.
Qed.

Lemma single_iteration_witness :
  never_raises flat /\
  exists path,
    gradient_descent_pytorch flat main_start main_learning_rate 1
      main_tolerance = Ok path /\
    length path = 2%nat.
Proof.
  split; [exact flat_never_raises|].
  apply (single_iteration flat main_start main_learning_rate main_tolerance).
  intros a b. split; eexists; reflexivity.
Defined.

(** C5 as stated fails: on the flat objective, whose gradient norm [0] is
    below the tolerance [1e-6], the run with [max_iters = 1] returns two
    rows, not one. *)
Lemma flat_single_iteration_two_rows :
  converged (pzero, pzero) main_tolerance = true /\
  exists path,
    gradient_descent_pytorch flat main_start main_learning_rate 1
      main_tolerance = Ok path /\
    length path = 2%nat /\ length path <> 1%nat.
Proof.
  split; [reflexivity|].
  eexists. split; [vm_compute; reflexivity|].
  split; [reflexivity|discriminate].
Qed.

(** ** Configurations outside the documented range *)

Lemma binary_round_aux_not_negative prec emax m e l :
  not_negative (binary_round_aux prec emax false m e l).
Proof.
  unfold binary_round_aux.
  destruct (shr_fexp prec emax m e l) as [mrs' e'].
  destruct (shr_fexp prec emax _ e' loc_Exact) as [mrs'' e''].
  destruct (shr_m mrs''); cbn; trivial.
  destruct (e'' <=? emax - prec); cbn; trivial.
Qed.

Lemma sqrt32_not_negative a : not_negative (sqrt32 a).
Proof.
  destruct a as [s|[]| |[] m e]; cbn; trivial.
  unfold sqrt32, SFsqrt.
  destruct (SFsqrt_core_binary 24 128 (Z.pos m) e) as [[mz ez] lz].
  apply binary_round_aux_not_negative.
Qed.

Lemma item_not_negative a : not_negative a -> not_negative (item a).
Proof.
  destruct a as [s|[]| |[] m e]; cbn; trivial; try contradiction.
  intros _. unfold binary_round.
  destruct (shl_align m e _) as [mz ez].
  apply binary_round_aux_not_negative.
Qed.

(** Nothing that is not negative compares below a negative float. *)
Lemma not_negative_not_below a b :
  not_negative a -> py_lt b pzero = true -> py_lt a b = false.
Proof.
  destruct a as [sa|[]| |[] ma ea]; cbn; try contradiction; intros _;
    destruct b as [sb|[]| |[] mb eb]; cbn; trivial; discriminate.
Qed.

(** With a negative tolerance the test on line 102 fails for every
    gradient. *)
Lemma negative_tolerance_never_converged grad tolerance :
  py_lt tolerance pzero = true -> converged grad tolerance = false.
Proof.
  intros Hneg. unfold converged.
  apply not_negative_not_below; trivial.
  apply item_not_negative, sqrt32_not_negative.
Qed.

(** C6, as the code has it.  The function checks none of its arguments
    and rejects no configuration: on an objective that never raises it
    returns a trajectory for every learning rate, iteration count and
    tolerance.  With [max_iters < 1] no iteration runs and the trajectory
    is the start row alone; with [max_iters >= 1] at least one update is
    made, whatever the learning rate and the tolerance; and with a
    negative tolerance all [max_iters] updates are made. *)
Theorem no_config_validation func start_point learning_rate max_iters
    tolerance :
  never_raises func ->
  exists st,
    descent_run func start_point learning_rate max_iters tolerance = Ok st /\
    gradient_descent_pytorch func start_point learning_rate max_iters
      tolerance = Ok (st_path st) /\
    (max_iters < 1 -> st_updates st = 0%nat /\ length (st_path st) = 1%nat) /\
    (1 <= max_iters -> (1 <= st_updates st)%nat) /\
    (py_lt tolerance pzero = true -> st_updates st = Z.to_nat max_iters).
Proof.
  intros Hnr.
  destruct (trajectory_length_aux func start_point learning_rate max_iters
              tolerance Hnr) as (st & Hrun & Hgd & Hlen & Hle & Hup).
  exists st. repeat split; trivial.
  - lia.
  - rewrite Hlen. lia.
  - intros Hneg.
    destruct (descent_run_finished _ _ _ _ _ _ Hrun)
      as [st _ Hn | st grad new_y _ _ _ Hc]; trivial.
    rewrite negative_tolerance_never_converged in Hc by trivial.
    discriminate.
Qed.

Lemma no_config_validation_witness :
  never_raises bowl /\
  exists st,
    descent_run bowl (f64_of_Z 1, f64_of_Z 1) (f64_lit (-1) 100) 3
      (f64_lit (-1) 1000000) = Ok st /\
    gradient_descent_pytorch bowl (f64_of_Z 1, f64_of_Z 1) (f64_lit (-1) 100)
      3 (f64_lit (-1) 1000000) = Ok (st_path st) /\
    (3 < 1 -> st_updates st = 0%nat /\ length (st_path st) = 1%nat) /\
    (1 <= 3 -> (1 <= st_updates st)%nat) /\
    (py_lt (f64_lit (-1) 1000000) pzero = true ->
     st_updates st = Z.to_nat 3).
Proof.
  split; [exact bowl_never_raises|].
  apply (no_config_validation bowl (f64_of_Z 1, f64_of_Z 1)
           (f64_lit (-1) 100) 3 (f64_lit (-1) 1000000)).
  intros a b. split; eexists; reflexivity.
Defined.

(** C6 as stated fails: a run with the learning rate [-0.01] is not
    rejected but performs its three updates, a run with the tolerance
    [-1e-6] likewise, and a run with [max_iters = 0] returns the start
    row without raising. *)
Lemma invalid_config_accepted :
  py_lt (f64_lit (-1) 100) pzero = true /\
  (exists st,
     descent_run bowl (f64_of_Z 1, f64_of_Z 1) (f64_lit (-1) 100) 3
       main_tolerance = Ok st /\ st_updates st = 3%nat) /\
  py_lt (f64_lit (-1) 1000000) pzero = true /\
  (exists st,
     descent_run bowl (f64_of_Z 1, f64_of_Z 1) main_learning_rate 3
       (f64_lit (-1) 1000000) = Ok st /\ st_updates st = 3%nat) /\
  (exists st,
     descent_run bowl (f64_of_Z 1, f64_of_Z 1) main_learning_rate 0
       main_tolerance = Ok st /\ st_updates st = 0%nat).
Proof.
  split; [reflexivity|]. split.
  { eexists. split; [vm_compute; reflexivity|reflexivity]. }
  split; [reflexivity|]. split.
  { eexists. split; [vm_compute; reflexivity|reflexivity]. }
  eexists. split; [vm_compute; reflexivity|reflexivity].
Qed.

(** ** Division by zero *)

(** C7, as the code has it.  For the objective [1 / x1] a run from
    [(0, 0)] raises nothing: float32 division by zero yields an infinity,
    recorded as the value of the first row; the first gradient is
    infinite too, the first iteration completes, and with
    [max_iters >= 1] the trajectory returned has at least two rows. *)
Theorem division_by_zero_returns learning_rate max_iters tolerance :
  1 <= max_iters ->
  exists path,
    gradient_descent_pytorch reciprocal (pzero, pzero) learning_rate
      max_iters tolerance = Ok path /\
    nth_error path 0 = Some (mkSample pzero pzero pinf) /\
    backward reciprocal pzero pzero = Ok (ninf, pzero) /\
    (2 <= length path)%nat.
Proof.
  intros Hmax.
  destruct (trajectory_length_aux reciprocal (pzero, pzero) learning_rate
              max_iters tolerance reciprocal_never_raises)
    as (st & Hrun & Hgd & Hlen & _ & Hup).
  specialize (Hup Hmax).
  exists (st_path st). repeat split; trivial; [|lia].
  destruct (finished_shaped _ _ _ _ _ _
              (descent_run_finished _ _ _ _ _ _ Hrun))
    as ((_ & (y & Hy & Hfirst) & _) & _).
  rewrite Hfirst. cbn in Hy. injection Hy as <-. reflexivity.
Qed.

Lemma division_by_zero_returns_witness :
  1 <= main_max_iters /\
  exists path,
    gradient_descent_pytorch reciprocal (pzero, pzero) main_learning_rate
      main_max_iters main_tolerance = Ok path /\
    nth_error path 0 = Some (mkSample pzero pzero pinf) /\
    backward reciprocal pzero pzero = Ok (ninf, pzero) /\
    (2 <= length path)%nat.
Proof.
  split; [unfold main_max_iters; lia|].
  apply (division_by_zero_returns main_learning_rate main_max_iters
           main_tolerance).
  unfold main_max_iters. lia.
Defined.

(** C7 as stated fails: with the parameters of [main] the run on [1 / x1]
    from [(0, 0)] raises no exception and returns three rows, two
    iterations having completed. *)
Lemma division_by_zero_not_raised :
  exists path,
    gradient_descent_pytorch reciprocal main_start main_learning_rate
      main_max_iters main_tolerance = Ok path /\
    length path = 3%nat /\
    forall e,
      gradient_descent_pytorch reciprocal main_start main_learning_rate
        main_max_iters main_tolerance <> Raise e.
Proof.
  eexists. split; [vm_compute; reflexivity|].
  split; [reflexivity|]. intros e. vm_compute. discriminate.
Qed.

(** * Float32 arithmetic on the bowl

    That the values recorded on the bowl never go up is a fact of
    rounding: each operation of the run returns the nearest float32 of
    the exact result, and rounding to nearest is monotone.  The sections
    below read the floats of [SpecFloat] as integers on a common scale,
    show that its rounding, multiplication, addition and subtraction
    round the exact results, overflowing to an infinity from [2 ^ emax]
    on, and follow one coordinate and the value through an update. *)

(** ** Binary digits *)

Lemma digits2_pos_bounds m :
  2 ^ (Z.pos (digits2_pos m) - 1) <= Z.pos m < 2 ^ Z.pos (digits2_pos m).
Proof.
  induction m as [m IH|m IH|]; cbn [digits2_pos].
  - rewrite Pos2Z.inj_succ, (Pos2Z.inj_xI m).
    replace (Z.succ (Z.pos (digits2_pos m)) - 1)
      with (Z.succ (Z.pos (digits2_pos m) - 1)) by lia.
    rewrite !Z.pow_succ_r by lia. lia.
  - rewrite Pos2Z.inj_succ, (Pos2Z.inj_xO m).
    replace (Z.succ (Z.pos (digits2_pos m)) - 1)
      with (Z.succ (Z.pos (digits2_pos m) - 1)) by lia.
    rewrite !Z.pow_succ_r by lia. lia.
  - cbn. lia.
Qed.

Lemma digits2_pos_log2 m : Z.pos (digits2_pos m) = Z.log2 (Z.pos m) + 1.
Proof.
  pose proof (digits2_pos_bounds m) as H.
  rewrite (Z.log2_unique (Z.pos m) (Z.pos (digits2_pos m) - 1)); [lia|lia|].
  replace (Z.succ (Z.pos (digits2_pos m) - 1)) with (Z.pos (digits2_pos m))
    by lia.
  exact H.
Qed.

(** ** Division by a power of two, rounding to nearest, ties to even *)

Lemma rne_div_exact c k : 0 <= k -> rne_div (c * 2 ^ k) k = c.
Proof.
  intros Hk. unfold rne_div.
  assert (0 < 2 ^ k) by (apply Z.pow_pos_nonneg; lia).
  rewrite Z.mod_mul, Z.div_mul by lia.
  change (2 * 0) with 0.
  destruct (Z.compare_spec 0 (2 ^ k)); trivial; lia.
Qed.

Lemma rne_div_shift v k j :
  0 <= k -> 0 <= j -> rne_div (v * 2 ^ j) (k + j) = rne_div v k.
Proof.
  intros Hk Hj. unfold rne_div.
  assert (0 < 2 ^ k) by (apply Z.pow_pos_nonneg; lia).
  assert (0 < 2 ^ j) by (apply Z.pow_pos_nonneg; lia).
  rewrite Z.pow_add_r by lia.
  rewrite Z.mul_mod_distr_r, Z.div_mul_cancel_r by lia.
  replace (2 * (v mod 2 ^ k * 2 ^ j)) with (2 * (v mod 2 ^ k) * 2 ^ j) by ring.
  replace (2 * (v mod 2 ^ k) * 2 ^ j ?= 2 ^ k * 2 ^ j)
    with (2 * (v mod 2 ^ k) ?= 2 ^ k); trivial.
  destruct (Z.compare_spec (2 * (v mod 2 ^ k)) (2 ^ k)) as [E|E|E];
    symmetry.
  - rewrite E. apply Z.compare_refl.
  - apply Z.compare_lt_iff. nia.
  - apply Z.compare_gt_iff. nia.
Qed.

Lemma rne_div_mono v1 v2 k :
  0 <= k -> v1 <= v2 -> rne_div v1 k <= rne_div v2 k.
Proof.
  intros Hk Hv. unfold rne_div.
  assert (Hp : 0 < 2 ^ k) by (apply Z.pow_pos_nonneg; lia).
  pose proof (Z.div_le_mono v1 v2 (2 ^ k) Hp Hv) as Hq.
  pose proof (Z.div_mod v1 (2 ^ k) ltac:(lia)) as E1.
  pose proof (Z.div_mod v2 (2 ^ k) ltac:(lia)) as E2.
  pose proof (Z.mod_pos_bound v1 (2 ^ k) Hp) as B1.
  pose proof (Z.mod_pos_bound v2 (2 ^ k) Hp) as B2.
  destruct (Z.eq_dec (v1 / 2 ^ k) (v2 / 2 ^ k)) as [He|Hne].
  - rewrite <- He in *.
    assert (Hr : v1 mod 2 ^ k <= v2 mod 2 ^ k) by lia.
    destruct (Z.compare_spec (2 * (v1 mod 2 ^ k)) (2 ^ k));
      destruct (Z.compare_spec (2 * (v2 mod 2 ^ k)) (2 ^ k));
      destruct (Z.even (v1 / 2 ^ k)); lia.
  - destruct (2 * (v1 mod 2 ^ k) ?= 2 ^ k);
      destruct (2 * (v2 mod 2 ^ k) ?= 2 ^ k);
      destruct (Z.even (v1 / 2 ^ k)); destruct (Z.even (v2 / 2 ^ k)); lia.
Qed.

Lemma rne_div_nonneg v k : 0 <= k -> 0 <= v -> 0 <= rne_div v k.
Proof.
  intros Hk Hv.
  replace 0 with (rne_div (0 * 2 ^ k) k) at 1 by (apply rne_div_exact; lia).
  apply rne_div_mono; lia.
Qed.

(** ** Rounding of scaled integers *)

Section Rounding.

Variables prec c : Z.
Hypothesis prec_pos : 0 < prec.
Hypothesis c_nonneg : 0 <= c.

Local Abbreviation ulp_exp := (ulp_exp prec c).
Local Abbreviation round_int := (round_int prec c).

Lemma ulp_exp_nonneg v : 0 <= ulp_exp v.
Proof. unfold ulp_exp. lia. Qed.

Lemma ulp_exp_mono v1 v2 : 0 < v1 <= v2 -> ulp_exp v1 <= ulp_exp v2.
Proof.
  intros H. unfold ulp_exp.
  pose proof (Z.log2_le_mono v1 v2 ltac:(lia)). lia.
Qed.

Lemma round_int_nonneg v : 0 <= v -> 0 <= round_int v.
Proof.
  intros Hv. unfold round_int.
  pose proof (ulp_exp_nonneg v).
  apply Z.mul_nonneg_nonneg.
  - apply rne_div_nonneg; trivial.
  - apply Z.pow_nonneg. lia.
Qed.

(** A scaled integer the format holds: [q * 2 ^ k] with [q] of at most
    [prec] bits and [k] no less than the least exponent. *)
Lemma round_int_id q k :
  0 < q < 2 ^ prec -> c <= k -> round_int (q * 2 ^ k) = q * 2 ^ k.
Proof.
  intros Hq Hk. unfold round_int.
  set (v := q * 2 ^ k). set (u := ulp_exp v).
  assert (Hu : c <= u <= k).
  { unfold u, ulp_exp. split; [lia|].
    assert (Z.log2 v < prec + k); [|lia].
    apply Z.log2_lt_pow2.
    - unfold v. apply Z.mul_pos_pos; [lia|apply Z.pow_pos_nonneg; lia].
    - unfold v. rewrite Z.pow_add_r by lia.
      apply Z.mul_lt_mono_pos_r; [apply Z.pow_pos_nonneg; lia|lia]. }
  assert (Hv : v = q * 2 ^ (k - u) * 2 ^ u).
  { unfold v. rewrite <- Z.mul_assoc, <- Z.pow_add_r by lia.
    f_equal. f_equal. lia. }
  rewrite Hv at 1. rewrite rne_div_exact by lia. symmetry. exact Hv.
Qed.

Lemma round_int_mono v1 v2 : 0 < v1 <= v2 -> round_int v1 <= round_int v2.
Proof.
  intros Hv. unfold round_int.
  pose proof (ulp_exp_mono v1 v2 Hv) as Hu.
  pose proof (ulp_exp_nonneg v1) as H1.
  destruct (Z.eq_dec (ulp_exp v1) (ulp_exp v2)) as [He|Hne].
  - rewrite <- He.
    apply Z.mul_le_mono_nonneg_r; [apply Z.pow_nonneg; lia|].
    apply rne_div_mono; lia.
  - (* different binades: the power of two between them separates *)
    set (k1 := ulp_exp v1) in *. set (k2 := ulp_exp v2) in *.
    set (d2 := Z.log2 v2 + 1).
    assert (Hk2 : k2 = d2 - prec) by (unfold k2, k1, ulp_exp, d2 in *; lia).
    assert (Hd : Z.log2 v1 + 1 <= d2 - 1).
    { unfold k2, k1, ulp_exp, d2 in *. lia. }
    assert (Hk1 : 0 <= k1 <= d2 - 1) by lia.
    set (T := 2 ^ (d2 - 1)).
    assert (HT1 : T = 2 ^ (d2 - 1 - k1) * 2 ^ k1).
    { unfold T. rewrite <- Z.pow_add_r by lia. f_equal. lia. }
    assert (HT2 : T = 2 ^ (prec - 1) * 2 ^ k2).
    { unfold T. rewrite <- Z.pow_add_r by lia. f_equal. lia. }
    assert (Hv1 : v1 <= T).
    { unfold T. pose proof (Z.log2_spec v1 ltac:(lia)) as [_ H].
      assert (2 ^ Z.succ (Z.log2 v1) <= 2 ^ (d2 - 1));
        [apply Z.pow_le_mono_r; lia|lia]. }
    assert (Hv2 : T <= v2).
    { unfold T, d2. pose proof (Z.log2_spec v2 ltac:(lia)) as [H _].
      replace (Z.log2 v2 + 1 - 1) with (Z.log2 v2) by lia. trivial. }
    apply Z.le_trans with T.
    + rewrite HT1.
      apply Z.mul_le_mono_nonneg_r; [apply Z.pow_nonneg; lia|].
      rewrite <- (rne_div_exact (2 ^ (d2 - 1 - k1)) k1) by lia.
      apply rne_div_mono; lia.
    + rewrite HT2.
      apply Z.mul_le_mono_nonneg_r; [apply Z.pow_nonneg; lia|].
      rewrite <- (rne_div_exact (2 ^ (prec - 1)) k2) by lia.
      apply rne_div_mono; lia.
Qed.

End Rounding.

(** ** The shift of [SpecFloat] *)

Lemma iter_pos_nat {A : Type} (f : A -> A) p x :
  iter_pos f p x = Nat.iter (Pos.to_nat p) f x.
Proof.
  revert x. induction p as [p IH|p IH|]; intros x; cbn [iter_pos].
  - rewrite !IH, Pos2Nat.inj_xI, Nat.iter_succ_r.
    replace (2 * Pos.to_nat p)%nat with (Pos.to_nat p + Pos.to_nat p)%nat
      by lia.
    rewrite Nat.iter_add. reflexivity.
  - rewrite !IH, Pos2Nat.inj_xO.
    replace (2 * Pos.to_nat p)%nat with (Pos.to_nat p + Pos.to_nat p)%nat
      by lia.
    rewrite Nat.iter_add. reflexivity.
  - reflexivity.
Qed.

Lemma shr_1_spec m r s :
  0 <= m ->
  shr_1 (Build_shr_record m r s)
  = Build_shr_record (m / 2) (Z.odd m) (r || s).
Proof.
  intros Hm. rewrite <- Z.div2_div.
  destruct m as [|[p|p|]|]; try reflexivity. lia.
Qed.

Lemma shr_nat_spec m k :
  0 <= m ->
  let mrs := Nat.iter k shr_1 (Build_shr_record m false false) in
  shr_m mrs = m / 2 ^ Z.of_nat k /\
  loc_of_shr_record mrs = loc_of (m mod 2 ^ Z.of_nat k) (Z.of_nat k).
Proof.
  intros Hm. induction k as [|k IH].
  - cbn. rewrite Z.div_1_r, Z.mod_1_r. split; reflexivity.
  - cbn zeta in *. cbn [Nat.iter nat_rect].
    change (nat_rect (fun _ => shr_record) (Build_shr_record m false false)
              (fun _ => shr_1) k)
      with (Nat.iter k shr_1 (Build_shr_record m false false)).
    destruct (Nat.iter k shr_1 (Build_shr_record m false false))
      as [q r s] eqn:Hq.
    cbn [shr_m] in IH. destruct IH as [IHq IHl].
    set (P := 2 ^ Z.of_nat k) in *.
    assert (HP : 0 < P) by (apply Z.pow_pos_nonneg; lia).
    assert (Hq0 : 0 <= q) by (rewrite IHq; apply Z.div_pos; lia).
    rewrite shr_1_spec by trivial. cbn [shr_m].
    assert (HP2 : 2 ^ Z.of_nat (S k) = P * 2).
    { rewrite Nat2Z.inj_succ, Z.pow_succ_r by lia. unfold P. ring. }
    rewrite HP2. split.
    + rewrite IHq, Z.div_div by lia. reflexivity.
    + rewrite Z.rem_mul_r by lia. rewrite <- IHq.
      pose proof (Z.mod_pos_bound m P HP) as Hrem.
      set (rem := m mod P) in *.
      rewrite Zmod_odd.
      assert (Hs : (r || s) = negb (rem =? 0)).
      { unfold loc_of in IHl. destruct (rem =? 0), r, s; cbn in *;
          trivial; discriminate. }
      rewrite Hs. unfold loc_of. rewrite HP2.
      destruct (Z.odd q); destruct (Z.eqb_spec rem 0) as [E0|E0]; cbn [negb].
      * rewrite E0, Z.mul_1_r, Z.add_0_l.
        destruct (Z.eqb_spec P 0); [lia|]. cbn [loc_of_shr_record].
        rewrite (Z.mul_comm 2 P), Z.compare_refl. reflexivity.
      * destruct (Z.eqb_spec (rem + P * 1) 0); [lia|].
        cbn [loc_of_shr_record].
        replace (2 * (rem + P * 1) ?= P * 2) with Gt; trivial.
        symmetry. apply Z.compare_gt_iff. lia.
      * rewrite E0, Z.mul_0_r. reflexivity.
      * rewrite Z.mul_0_r, Z.add_0_r.
        destruct (Z.eqb_spec rem 0); [lia|]. cbn [loc_of_shr_record].
        replace (2 * rem ?= P * 2) with Lt; trivial.
        symmetry. apply Z.compare_lt_iff. lia.
Qed.

Lemma round_nearest_even_shr m k :
  0 <= m ->
  let mrs := Nat.iter k shr_1 (Build_shr_record m false false) in
  round_nearest_even (shr_m mrs) (loc_of_shr_record mrs)
  = rne_div m (Z.of_nat k).
Proof.
  intros Hm. destruct (shr_nat_spec m k Hm) as [Hq Hl]. cbn zeta in *.
  rewrite Hq, Hl. unfold loc_of, rne_div.
  assert (HP : 0 < 2 ^ Z.of_nat k) by (apply Z.pow_pos_nonneg; lia).
  destruct (Z.eqb_spec (m mod 2 ^ Z.of_nat k) 0) as [E0|E0].
  - rewrite E0. cbn [round_nearest_even]. change (2 * 0) with 0.
    destruct (Z.compare_spec 0 (2 ^ Z.of_nat k)); trivial; lia.
  - cbn [round_nearest_even].
    destruct (2 * (m mod 2 ^ Z.of_nat k) ?= 2 ^ Z.of_nat k); reflexivity.
Qed.

(** A shift by [n >= 0] places of an exact record, then rounding. *)
Lemma shr_round m e n :
  0 <= m -> 0 <= n ->
  let '(mrs, e') := shr (Build_shr_record m false false) e n in
  e' = e + n /\
  round_nearest_even (shr_m mrs) (loc_of_shr_record mrs) = rne_div m n.
Proof.
  intros Hm Hn. destruct n as [|p|p]; [| |lia].
  - cbn [shr]. split; [lia|]. cbn [shr_m loc_of_shr_record round_nearest_even].
    rewrite <- (Z.mul_1_r m) at 2. change 1 with (2 ^ 0).
    rewrite rne_div_exact; lia.
  - cbn [shr]. split; trivial. rewrite iter_pos_nat.
    rewrite round_nearest_even_shr by trivial.
    rewrite positive_nat_Z. reflexivity.
Qed.

(** A shift by [n <= 0] does nothing. *)
Lemma shr_none mrs e n : n <= 0 -> shr mrs e n = (mrs, e).
Proof. destruct n; trivial. lia. Qed.

(** ** Floats as scaled integers *)

Section Format.

Variables prec emax L : Z.
Hypothesis prec_pos : 0 < prec.
Hypothesis prec_lt_emax : prec < emax.
Hypothesis scale_ok : 0 <= emin prec emax + L.

Local Abbreviation scaled := (scaled L).
Local Abbreviation in_format := (in_format prec emax).
Local Abbreviation round_mag := (round_mag prec emax L).
Local Abbreviation round_num := (round_num prec emax L).

Lemma fexp_eq k : fexp prec emax k = Z.max (k - prec) (emin prec emax).
Proof. reflexivity. Qed.

Lemma emin_eq : emin prec emax = 3 - emax - prec.
Proof. reflexivity. Qed.

Lemma bounded_digits m e :
  bounded prec emax m e = true ->
  fexp prec emax (Z.pos (digits2_pos m) + e) = e /\ e <= emax - prec.
Proof.
  unfold bounded, canonical_mantissa. intros H.
  apply andb_prop in H. destruct H as [H1 H2].
  apply Z.eqb_eq in H1. apply Z.leb_le in H2. auto.
Qed.

(** The rounding of [SpecFloat] on an exact mantissa and exponent: the
    float of the rounded magnitude while that is below [2 ^ emax], an
    infinity from there on. *)
Lemma round_aux_cases s m e :
  - L <= e ->
  e <= fexp prec emax (Z.pos (digits2_pos m) + e) ->
  (round_mag (Z.pos m * 2 ^ (e + L)) < 2 ^ (emax + L) ->
   in_format (binary_round_aux prec emax s (Z.pos m) e loc_Exact) /\
   scaled (binary_round_aux prec emax s (Z.pos m) e loc_Exact)
   = cond_Zopp s (round_mag (Z.pos m * 2 ^ (e + L)))) /\
  (2 ^ (emax + L) <= round_mag (Z.pos m * 2 ^ (e + L)) ->
   binary_round_aux prec emax s (Z.pos m) e loc_Exact = S754_infinity s).
Proof.
  intros HL Hn.
  pose proof emin_eq as Hemin.
  set (d := Z.pos (digits2_pos m)) in *.
  set (E := fexp prec emax (d + e)) in *.
  set (n := E - e).
  assert (HE : E = Z.max (d + e - prec) (emin prec emax)) by reflexivity.
  assert (Hd : d = Z.log2 (Z.pos m) + 1) by apply digits2_pos_log2.
  pose proof (digits2_pos_bounds m) as Hm. fold d in Hm.
  assert (Hulp : ulp_exp prec (emin prec emax + L) (Z.pos m * 2 ^ (e + L))
                 = E + L).
  { unfold ulp_exp. rewrite Z.log2_mul_pow2 by lia. lia. }
  assert (HV : round_mag (Z.pos m * 2 ^ (e + L))
               = rne_div (Z.pos m) n * 2 ^ (E + L)).
  { unfold round_mag, round_int. rewrite Hulp.
    replace (E + L) with (n + (e + L)) at 1 by (unfold n; lia).
    rewrite rne_div_shift by (unfold n; lia). reflexivity. }
  rewrite HV in *. clear HV Hulp.
  set (q := rne_div (Z.pos m) n) in *.
  assert (Hn0 : 0 <= n) by (unfold n; lia).
  assert (Hq0 : 0 <= q) by (apply rne_div_nonneg; lia).
  assert (HpE : 0 < 2 ^ (E + L)) by (apply Z.pow_pos_nonneg; lia).
  assert (Hqhi : q <= 2 ^ prec).
  { set (j := Z.max (d - n) 0).
    apply Z.le_trans with (2 ^ j).
    - rewrite <- (rne_div_exact (2 ^ j) n) by lia.
      apply rne_div_mono; trivial.
      rewrite <- Z.pow_add_r by lia.
      apply Z.le_trans with (2 ^ d); [lia|].
      apply Z.pow_le_mono_r; lia.
    - apply Z.pow_le_mono_r; unfold j, n; lia. }
  assert (Hqlo : emin prec emax < E -> 2 ^ (prec - 1) <= q).
  { intros HEm.
    rewrite <- (rne_div_exact (2 ^ (prec - 1)) n) by lia.
    apply rne_div_mono; trivial.
    rewrite <- Z.pow_add_r by lia.
    replace (prec - 1 + n) with (d - 1) by (unfold n; lia). lia. }
  (* the exponent test against the magnitude *)
  assert (Hbig : emax - prec < E -> 2 ^ (emax + L) <= q * 2 ^ (E + L)).
  { intros Hgt. specialize (Hqlo ltac:(lia)).
    apply Z.le_trans with (2 ^ (prec - 1) * 2 ^ (E + L)).
    - rewrite <- Z.pow_add_r by lia. apply Z.pow_le_mono_r; lia.
    - apply Z.mul_le_mono_nonneg_r; lia. }
  assert (Hsmall : q < 2 ^ prec -> E <= emax - prec ->
                   q * 2 ^ (E + L) < 2 ^ (emax + L)).
  { intros Hlt Hle.
    apply Z.lt_le_trans with (2 ^ prec * 2 ^ (E + L)).
    - apply Z.mul_lt_mono_pos_r; lia.
    - rewrite <- Z.pow_add_r by lia. apply Z.pow_le_mono_r; lia. }
  unfold binary_round_aux, shr_fexp.
  cbn [shr_record_of_loc Zdigits2]. fold d. fold E. fold n.
  pose proof (shr_round (Z.pos m) e n ltac:(lia) Hn0) as Hshr.
  destruct (shr (Build_shr_record (Z.pos m) false false) e n) as [mrs' e'].
  destruct Hshr as [He' Hr]. fold q in Hr. rewrite Hr.
  assert (e' = E) by (unfold n in He'; lia). clear He' Hr. subst e'.
  destruct (Z.eq_dec q 0) as [Hz|Hnz].
  - (* the magnitude rounds to zero *)
    rewrite Hz. cbn [Zdigits2]. rewrite shr_none by (rewrite fexp_eq; lia).
    cbn [shr_m]. split.
    + intros _. split; [split; reflexivity|].
      cbn [scaled]. destruct s; reflexivity.
    + intros Hov. assert (0 < 2 ^ (emax + L))
        by (apply Z.pow_pos_nonneg; lia). lia.
  - destruct q as [|p|p] eqn:Hq; [lia| |lia]. rewrite <- Hq in *.
    assert (Hp : Z.pos (digits2_pos p) = Z.log2 q + 1)
      by (rewrite Hq; apply digits2_pos_log2).
    destruct (Z.eq_dec q (2 ^ prec)) as [Hc|Hc].
    + (* the rounding carried into a new bit *)
      assert (Hlog : Z.log2 q = prec)
        by (rewrite Hc; apply Z.log2_pow2; lia).
      assert (HEmin : emin prec emax <= E) by lia.
      assert (Hval : q * 2 ^ (E + L) = 2 ^ (prec + (E + L)))
        by (rewrite Hc, (Z.pow_add_r 2 prec (E + L)) by lia; reflexivity).
      rewrite Hq in *. cbn [Zdigits2]. rewrite Hp.
      replace (fexp prec emax (Z.log2 (Z.pos p) + 1 + E) - E) with 1
        by (rewrite fexp_eq; lia).
      replace (shr (Build_shr_record (Z.pos p) false false) E 1)
        with (Build_shr_record (Z.pos p / 2) (Z.odd (Z.pos p)) false, E + 1)
        by (cbn [shr iter_pos]; rewrite shr_1_spec by lia; reflexivity).
      cbn [shr_m].
      assert (Hhalf : Z.pos p / 2 = 2 ^ (prec - 1)).
      { rewrite Hc. replace prec with (Z.succ (prec - 1)) at 1 by lia.
        rewrite Z.pow_succ_r by lia.
        rewrite Z.mul_comm, Z.div_mul by lia. reflexivity. }
      rewrite Hhalf.
      assert (Hpos : 0 < 2 ^ (prec - 1)) by (apply Z.pow_pos_nonneg; lia).
      destruct (2 ^ (prec - 1)) as [|w|w] eqn:Hw; [lia| |lia].
      assert (Hdw : Z.pos (digits2_pos w) = prec).
      { rewrite digits2_pos_log2, <- Hw, Z.log2_pow2; lia. }
      rewrite Hval.
      destruct (Z.leb_spec (E + 1) (emax - prec)) as [Hle|Hgt]; split.
      * intros _. split; [split; [reflexivity|]|].
        -- cbn [valid_binary]. unfold bounded, canonical_mantissa.
           rewrite Hdw, fexp_eq.
           apply andb_true_intro.
           split; [apply Z.eqb_eq|apply Z.leb_le]; lia.
        -- cbn [scaled]. f_equal. rewrite <- Hw.
           rewrite <- !Z.pow_add_r by lia. f_equal. lia.
      * intros Hov. exfalso.
        apply Z.pow_le_mono_r_iff in Hov; lia.
      * intros Hov. exfalso.
        apply Z.pow_lt_mono_r_iff in Hov; lia.
      * reflexivity.
    + (* the rounded mantissa fits *)
      assert (Hlt : q < 2 ^ prec) by lia.
      assert (Hlog : Z.log2 q < prec) by (apply Z.log2_lt_pow2; lia).
      rewrite Hq in *. cbn [Zdigits2]. rewrite Hp.
      rewrite shr_none by (rewrite fexp_eq; lia).
      cbn [shr_m].
      destruct (Z.leb_spec E (emax - prec)) as [Hle|Hgt]; split.
      * intros _. split; [split; [reflexivity|]|].
        -- cbn [valid_binary]. unfold bounded, canonical_mantissa.
           rewrite Hp, fexp_eq.
           apply andb_true_intro.
           split; [apply Z.eqb_eq|apply Z.leb_le; lia].
           destruct (Z.eq_dec E (emin prec emax)) as [He|He]; [lia|].
           specialize (Hqlo ltac:(lia)).
           assert (prec - 1 <= Z.log2 (Z.pos p)); [|lia].
           apply Z.log2_le_pow2; lia.
        -- reflexivity.
      * intros Hov. specialize (Hsmall Hlt Hle). lia.
      * intros Hov. specialize (Hbig Hgt). lia.
      * reflexivity.
Qed.

(** *** Alignment and [binary_round] *)

Lemma iter_xO_pow m d : Z.pos (Pos.iter xO m d) = Z.pos m * 2 ^ Z.pos d.
Proof.
  induction d as [|d IH] using Pos.peano_ind.
  - cbn [Pos.iter]. rewrite Pos2Z.inj_xO. change (2 ^ 1) with 2. ring.
  - rewrite Pos.iter_succ, Pos2Z.inj_xO, IH, Pos2Z.inj_succ.
    rewrite Z.pow_succ_r by lia. ring.
Qed.

Lemma shl_align_spec m e e' :
  let '(mz, ez) := shl_align m e e' in
  ez = Z.min e e' /\ Z.pos mz = Z.pos m * 2 ^ (e - ez).
Proof.
  unfold shl_align. destruct (e' - e) as [|p|p] eqn:Hd.
  - split; [lia|]. rewrite Z.sub_diag. change (2 ^ 0) with 1. lia.
  - split; [lia|]. rewrite Z.sub_diag. change (2 ^ 0) with 1. lia.
  - split; [lia|]. rewrite iter_xO_pow. f_equal. f_equal. lia.
Qed.

Lemma binary_round_cases s m e :
  - L <= e ->
  (round_mag (Z.pos m * 2 ^ (e + L)) < 2 ^ (emax + L) ->
   in_format (binary_round prec emax s m e) /\
   scaled (binary_round prec emax s m e)
   = cond_Zopp s (round_mag (Z.pos m * 2 ^ (e + L)))) /\
  (2 ^ (emax + L) <= round_mag (Z.pos m * 2 ^ (e + L)) ->
   binary_round prec emax s m e = S754_infinity s).
Proof.
  intros HL. unfold binary_round.
  pose proof (shl_align_spec m e
                (fexp prec emax (Z.pos (digits2_pos m) + e))) as Hal.
  destruct (shl_align m e (fexp prec emax (Z.pos (digits2_pos m) + e)))
    as [mz ez].
  destruct Hal as [Hez Hmz].
  pose proof emin_eq as Hemin.
  assert (Hfe : emin prec emax
                <= fexp prec emax (Z.pos (digits2_pos m) + e))
    by (rewrite fexp_eq; lia).
  assert (Hval : Z.pos mz * 2 ^ (ez + L) = Z.pos m * 2 ^ (e + L)).
  { rewrite Hmz, <- Z.mul_assoc, <- Z.pow_add_r by lia.
    f_equal. f_equal. lia. }
  assert (Hdig : Z.pos (digits2_pos mz) + ez = Z.pos (digits2_pos m) + e).
  { rewrite !digits2_pos_log2, Hmz, Z.log2_mul_pow2 by lia. lia. }
  rewrite <- Hval.
  apply round_aux_cases; [lia|].
  rewrite Hdig. lia.
Qed.

Lemma binary_round_spec s m e :
  - L <= e ->
  round_mag (Z.pos m * 2 ^ (e + L)) < 2 ^ (emax + L) ->
  in_format (binary_round prec emax s m e) /\
  scaled (binary_round prec emax s m e)
  = cond_Zopp s (round_mag (Z.pos m * 2 ^ (e + L))).
Proof. intros HL. apply (binary_round_cases s m e HL). Qed.

Lemma binary_round_overflow s m e :
  - L <= e ->
  2 ^ (emax + L) <= round_mag (Z.pos m * 2 ^ (e + L)) ->
  binary_round prec emax s m e = S754_infinity s.
Proof. intros HL. apply (binary_round_cases s m e HL). Qed.

(** *** Floats of the format *)

Lemma in_format_finite s m e :
  in_format (S754_finite s m e) ->
  emin prec emax <= e <= emax - prec /\
  Z.pos m < 2 ^ prec /\
  (emin prec emax < e -> 2 ^ (prec - 1) <= Z.pos m).
Proof.
  intros [_ Hv]. cbn [valid_binary] in Hv.
  apply bounded_digits in Hv. destruct Hv as [Hc Hb].
  rewrite fexp_eq, digits2_pos_log2 in Hc.
  pose proof (Z.log2_spec (Z.pos m) ltac:(lia)) as [Hlo Hhi].
  split; [lia|]. split.
  - apply Z.lt_le_trans with (2 ^ Z.succ (Z.log2 (Z.pos m))); trivial.
    apply Z.pow_le_mono_r; lia.
  - intros He. apply Z.le_trans with (2 ^ Z.log2 (Z.pos m)); trivial.
    apply Z.pow_le_mono_r; lia.
Qed.

Lemma in_format_zero s : in_format (S754_zero s).
Proof. split; reflexivity. Qed.

Lemma in_format_opp a : in_format a -> in_format (SFopp a).
Proof. destruct a; intros [Hf Hv]; split; trivial; discriminate. Qed.

Lemma scaled_opp a : scaled (SFopp a) = - scaled a.
Proof. destruct a as [| | |[] m e]; cbn; lia. Qed.

Lemma in_format_abs a : in_format a -> in_format (SFabs a).
Proof. destruct a; intros [Hf Hv]; split; trivial; discriminate. Qed.

Lemma scaled_abs a : scaled (SFabs a) = Z.abs (scaled a).
Proof.
  destruct a as [| | |[] m e]; cbn [SFabs scaled cond_Zopp]; trivial.
  - assert (0 < 2 ^ (e + L) \/ 2 ^ (e + L) = 0) as [H|H].
    { pose proof (Z.pow_nonneg 2 (e + L)). lia. }
    + rewrite Z.abs_opp, Z.abs_eq; nia.
    + rewrite H. lia.
  - rewrite Z.abs_eq; trivial.
    pose proof (Z.pow_nonneg 2 (e + L)). nia.
Qed.

(** The magnitude of a finite float of the format. *)
Lemma mag_bounds s m e :
  in_format (S754_finite s m e) ->
  0 < Z.pos m * 2 ^ (e + L) < 2 ^ (emax + L).
Proof.
  intros Hg. destruct (in_format_finite s m e Hg) as (He & Hm & _).
  assert (0 < 2 ^ (e + L)) by (apply Z.pow_pos_nonneg; lia).
  split; [lia|].
  apply Z.lt_le_trans with (2 ^ prec * 2 ^ (e + L)).
  - apply Z.mul_lt_mono_pos_r; trivial.
  - rewrite <- Z.pow_add_r by lia. apply Z.pow_le_mono_r; lia.
Qed.

Lemma scaled_bound a : in_format a -> Z.abs (scaled a) < 2 ^ (emax + L).
Proof.
  intros Hg. rewrite <- scaled_abs. pose proof emin_eq as Hemin.
  destruct a as [| | |s m e]; cbn [SFabs scaled cond_Zopp];
    try (apply Z.pow_pos_nonneg; lia).
  apply (mag_bounds s m e Hg).
Qed.

(** Between floats of the format a smaller exponent means a smaller
    magnitude. *)
Lemma mag_lt s1 m1 e1 s2 m2 e2 :
  in_format (S754_finite s1 m1 e1) -> in_format (S754_finite s2 m2 e2) ->
  e1 < e2 ->
  Z.pos m1 * 2 ^ (e1 + L) < Z.pos m2 * 2 ^ (e2 + L).
Proof.
  intros H1 H2 He.
  destruct (in_format_finite _ _ _ H1) as (He1 & Hm1 & _).
  destruct (in_format_finite _ _ _ H2) as (He2 & _ & Hm2).
  specialize (Hm2 ltac:(lia)).
  assert (0 < 2 ^ (e1 + L)) by (apply Z.pow_pos_nonneg; lia).
  assert (0 < 2 ^ (e2 + L)) by (apply Z.pow_pos_nonneg; lia).
  apply Z.lt_le_trans with (2 ^ prec * 2 ^ (e1 + L)).
  - apply Z.mul_lt_mono_pos_r; trivial.
  - apply Z.le_trans with (2 ^ (prec - 1) * 2 ^ (e2 + L)).
    + rewrite <- !Z.pow_add_r by lia. apply Z.pow_le_mono_r; lia.
    + apply Z.mul_le_mono_nonneg_r; lia.
Qed.

Lemma mag_compare s1 m1 e1 s2 m2 e2 :
  in_format (S754_finite s1 m1 e1) -> in_format (S754_finite s2 m2 e2) ->
  match e1 ?= e2 with
  | Lt => Lt
  | Gt => Gt
  | Eq => Pos.compare_cont Eq m1 m2
  end = (Z.pos m1 * 2 ^ (e1 + L) ?= Z.pos m2 * 2 ^ (e2 + L)).
Proof.
  intros H1 H2. symmetry.
  destruct (Z.compare_spec e1 e2) as [He|He|He].
  - subst e2. destruct (in_format_finite _ _ _ H1) as (He1 & _).
    assert (0 < 2 ^ (e1 + L)) by (apply Z.pow_pos_nonneg; lia).
    change (Pos.compare_cont Eq m1 m2) with (Z.pos m1 ?= Z.pos m2).
    destruct (Z.compare_spec (Z.pos m1) (Z.pos m2)) as [E|E|E].
    + rewrite E. apply Z.compare_refl.
    + apply Z.compare_lt_iff. nia.
    + apply Z.compare_gt_iff. nia.
  - apply Z.compare_lt_iff. apply (mag_lt s1 m1 e1 s2 m2 e2); trivial.
  - apply Z.compare_gt_iff. apply (mag_lt s2 m2 e2 s1 m1 e1); trivial.
Qed.

(** On floats of the format the comparison of [SpecFloat] is the
    comparison of the numbers. *)
Lemma SFcompare_spec a b :
  in_format a -> in_format b -> SFcompare a b = Some (scaled a ?= scaled b).
Proof.
  intros Ha Hb.
  destruct a as [sa| | |sa ma ea]; try (destruct Ha; discriminate);
    destruct b as [sb| | |sb mb eb]; try (destruct Hb; discriminate).
  - reflexivity.
  - pose proof (mag_bounds _ _ _ Hb) as [Hp _].
    cbn [SFcompare scaled cond_Zopp]. f_equal. symmetry.
    destruct sb; [apply Z.compare_gt_iff|apply Z.compare_lt_iff];
      cbn [cond_Zopp]; lia.
  - pose proof (mag_bounds _ _ _ Ha) as [Hp _].
    cbn [SFcompare scaled cond_Zopp]. f_equal. symmetry.
    destruct sa; [apply Z.compare_lt_iff|apply Z.compare_gt_iff];
      cbn [cond_Zopp]; lia.
  - pose proof (mag_bounds _ _ _ Ha) as [Hpa _].
    pose proof (mag_bounds _ _ _ Hb) as [Hpb _].
    cbn [SFcompare scaled]. f_equal.
    destruct sa, sb; cbn [cond_Zopp].
    + rewrite Z.compare_opp.
      rewrite (Z.compare_antisym (Z.pos ma * 2 ^ (ea + L))
                 (Z.pos mb * 2 ^ (eb + L))).
      rewrite <- (mag_compare true ma ea true mb eb Ha Hb).
      destruct (ea ?= eb); reflexivity.
    + symmetry. apply Z.compare_lt_iff. lia.
    + symmetry. apply Z.compare_gt_iff. lia.
    + apply (mag_compare false ma ea false mb eb Ha Hb).
Qed.

Lemma SFleb_spec a b :
  in_format a -> in_format b -> SFleb a b = (scaled a <=? scaled b).
Proof.
  intros Ha Hb. unfold SFleb. rewrite (SFcompare_spec a b Ha Hb).
  unfold Z.leb. destruct (scaled a ?= scaled b); reflexivity.
Qed.

Lemma SFltb_spec a b :
  in_format a -> in_format b -> SFltb a b = (scaled a <? scaled b).
Proof.
  intros Ha Hb. unfold SFltb. rewrite (SFcompare_spec a b Ha Hb).
  unfold Z.ltb. destruct (scaled a ?= scaled b); reflexivity.
Qed.

(** *** Signed rounding *)

Lemma round_mag_0 : round_mag 0 = 0.
Proof. unfold round_mag, round_int, rne_div. rewrite Z.mod_0_l, Z.div_0_l.
  - change (2 * 0) with 0.
    assert (0 < 2 ^ ulp_exp prec (emin prec emax + L) 0).
    { apply Z.pow_pos_nonneg; [lia|]. unfold ulp_exp. lia. }
    destruct (Z.compare_spec 0 (2 ^ ulp_exp prec (emin prec emax + L) 0));
      lia.
  - apply Z.pow_nonzero; [lia|]. unfold ulp_exp. lia.
  - apply Z.pow_nonzero; [lia|]. unfold ulp_exp. lia.
Qed.

Lemma round_mag_nonneg v : 0 <= v -> 0 <= round_mag v.
Proof. intros H. apply round_int_nonneg; trivial. Qed.

Lemma round_mag_mono v1 v2 : 0 <= v1 <= v2 -> round_mag v1 <= round_mag v2.
Proof.
  intros [H1 H2]. destruct (Z.eq_dec v1 0) as [->|Hnz].
  - rewrite round_mag_0. apply round_mag_nonneg; trivial.
  - apply round_int_mono; lia.
Qed.

Lemma round_num_mono v1 v2 : v1 <= v2 -> round_num v1 <= round_num v2.
Proof.
  intros H. unfold round_num.
  destruct (Z.ltb_spec v1 0), (Z.ltb_spec v2 0).
  - pose proof (round_mag_mono (- v2) (- v1)). lia.
  - pose proof (round_mag_nonneg (- v1)). pose proof (round_mag_nonneg v2). lia.
  - lia.
  - apply round_mag_mono. lia.
Qed.

Lemma round_num_opp v : round_num (- v) = - round_num v.
Proof.
  unfold round_num. destruct (Z.ltb_spec v 0), (Z.ltb_spec (- v) 0); try lia.
  - rewrite Z.opp_involutive. lia.
  - assert (v = 0) by lia. subst v. cbn. rewrite round_mag_0. reflexivity.
Qed.

Lemma round_num_abs v : Z.abs (round_num v) = round_mag (Z.abs v).
Proof.
  unfold round_num. destruct (Z.ltb_spec v 0).
  - pose proof (round_mag_nonneg (- v)). rewrite Z.abs_neq by lia.
    rewrite Z.abs_neq by lia. lia.
  - pose proof (round_mag_nonneg v). rewrite !Z.abs_eq by lia. reflexivity.
Qed.

Lemma round_num_cond s v :
  0 <= v -> round_num (cond_Zopp s v) = cond_Zopp s (round_mag v).
Proof.
  intros Hv. destruct s; cbn [cond_Zopp].
  - rewrite round_num_opp. unfold round_num. destruct (Z.ltb_spec v 0); lia.
  - unfold round_num. destruct (Z.ltb_spec v 0); lia.
Qed.

(** The numbers of the format round to themselves. *)
Lemma round_mag_mag s m e :
  in_format (S754_finite s m e) ->
  round_mag (Z.pos m * 2 ^ (e + L)) = Z.pos m * 2 ^ (e + L).
Proof.
  intros Hg. destruct (in_format_finite s m e Hg) as (He & Hm & _).
  apply round_int_id; lia.
Qed.

Lemma round_num_in_format a : in_format a -> round_num (scaled a) = scaled a.
Proof.
  intros Hg. destruct a as [| | |s m e]; cbn [scaled];
    try (unfold round_num; cbn; apply round_mag_0).
  pose proof (mag_bounds s m e Hg).
  rewrite round_num_cond by lia. rewrite (round_mag_mag s m e Hg). reflexivity.
Qed.

(** A rounding stays within any number of the format that bounds its
    argument. *)
Lemma round_num_bounded v y :
  in_format y -> Z.abs v <= Z.abs (scaled y) ->
  Z.abs (round_num v) <= Z.abs (scaled y).
Proof.
  intros Hy Hv.
  rewrite round_num_abs.
  rewrite <- (scaled_abs y) in *.
  rewrite <- (round_num_in_format (SFabs y)) by (apply in_format_abs; trivial).
  pose proof (Z.abs_nonneg v).
  unfold round_num. destruct (Z.ltb_spec (scaled (SFabs y)) 0); [lia|].
  apply round_mag_mono. lia.
Qed.

Lemma round_mag_no_overflow v y :
  in_format y -> Z.abs v <= Z.abs (scaled y) ->
  round_mag (Z.abs v) < 2 ^ (emax + L).
Proof.
  intros Hy Hv. rewrite <- round_num_abs.
  pose proof (round_num_bounded v y Hy Hv). pose proof (scaled_bound y Hy). lia.
Qed.

(** *** The operations *)

Lemma SFmul_cases a b :
  0 <= 2 * emin prec emax + L ->
  in_format a -> in_format b ->
  (round_mag (Z.abs (scaled a) * Z.abs (scaled b) / 2 ^ L) < 2 ^ (emax + L) ->
   in_format (SFmul prec emax a b) /\
   scaled (SFmul prec emax a b) = round_num (scaled a * scaled b / 2 ^ L)) /\
  (2 ^ (emax + L) <= round_mag (Z.abs (scaled a) * Z.abs (scaled b) / 2 ^ L) ->
   SFmul prec emax a b = S754_infinity (xorb (sign_of a) (sign_of b))).
Proof.
  intros HL2 Ha Hb. pose proof emin_eq as Hemin.
  assert (Hp0 : 0 < 2 ^ (emax + L)) by (apply Z.pow_pos_nonneg; lia).
  assert (HL : 0 <= L) by lia.
  assert (HpL : 0 < 2 ^ L) by (apply Z.pow_pos_nonneg; lia).
  destruct a as [sa| | |sa ma ea]; try (destruct Ha; discriminate);
    destruct b as [sb| | |sb mb eb]; try (destruct Hb; discriminate);
    cbn [SFmul scaled].
  1-3: cbn [Z.abs];
       rewrite ?Z.mul_0_l, ?Z.mul_0_r, Z.div_0_l, round_mag_0 by lia;
       (split; [intros _|lia]);
       (split; [apply in_format_zero|]);
       unfold round_num; cbn; symmetry; apply round_mag_0.
  destruct (in_format_finite _ _ _ Ha) as (Hea & Hma & Hna).
  destruct (in_format_finite _ _ _ Hb) as (Heb & Hmb & Hnb).
  pose proof (mag_bounds _ _ _ Ha) as [Hpa _].
  pose proof (mag_bounds _ _ _ Hb) as [Hpb _].
  set (W := Z.pos (ma * mb) * 2 ^ (ea + eb + L)).
  assert (Hprod : Z.pos ma * 2 ^ (ea + L) * (Z.pos mb * 2 ^ (eb + L))
                  = W * 2 ^ L).
  { assert (Hpw : 2 ^ (ea + L) * 2 ^ (eb + L) = 2 ^ (ea + eb + L) * 2 ^ L).
    { rewrite <- !Z.pow_add_r by lia. f_equal. lia. }
    unfold W. rewrite Pos2Z.inj_mul.
    replace (Z.pos ma * 2 ^ (ea + L) * (Z.pos mb * 2 ^ (eb + L)))
      with (Z.pos ma * Z.pos mb * (2 ^ (ea + L) * 2 ^ (eb + L))) by ring.
    rewrite Hpw. ring. }
  assert (HW : 0 < W).
  { unfold W. apply Z.mul_pos_pos; [lia|apply Z.pow_pos_nonneg; lia]. }
  replace (Z.abs (cond_Zopp sa (Z.pos ma * 2 ^ (ea + L))))
    with (Z.pos ma * 2 ^ (ea + L))
    by (destruct sa; cbn [cond_Zopp]; rewrite ?Z.abs_opp, Z.abs_eq; lia).
  replace (Z.abs (cond_Zopp sb (Z.pos mb * 2 ^ (eb + L))))
    with (Z.pos mb * 2 ^ (eb + L))
    by (destruct sb; cbn [cond_Zopp]; rewrite ?Z.abs_opp, Z.abs_eq; lia).
  rewrite Hprod, Z.div_mul by lia.
  assert (Hsign : cond_Zopp sa (Z.pos ma * 2 ^ (ea + L))
                  * cond_Zopp sb (Z.pos mb * 2 ^ (eb + L)) / 2 ^ L
                  = cond_Zopp (xorb sa sb) W).
  { destruct sa, sb; cbn [cond_Zopp xorb].
    - rewrite Z.mul_opp_opp, Hprod, Z.div_mul by lia. reflexivity.
    - rewrite Z.mul_opp_l, Hprod, <- Z.mul_opp_l, Z.div_mul by lia.
      reflexivity.
    - rewrite Z.mul_opp_r, Hprod, <- Z.mul_opp_l, Z.div_mul by lia.
      reflexivity.
    - rewrite Hprod, Z.div_mul by lia. reflexivity. }
  rewrite Hsign, round_num_cond by lia. cbn [sign_of].
  apply round_aux_cases; [lia|].
  cbn [valid_binary] in Ha, Hb. destruct Ha as [_ Ha], Hb as [_ Hb].
  apply bounded_digits in Ha, Hb. destruct Ha as [Hca _], Hb as [Hcb _].
  rewrite fexp_eq, digits2_pos_log2 in *.
  rewrite Pos2Z.inj_mul.
  pose proof (Z.log2_mul_below (Z.pos ma) (Z.pos mb) ltac:(lia) ltac:(lia)).
  pose proof (Z.log2_nonneg (Z.pos ma)).
  pose proof (Z.log2_nonneg (Z.pos mb)).
  lia.
Qed.

Lemma SFmul_spec a b :
  0 <= 2 * emin prec emax + L ->
  in_format a -> in_format b ->
  round_mag (Z.abs (scaled a) * Z.abs (scaled b) / 2 ^ L) < 2 ^ (emax + L) ->
  in_format (SFmul prec emax a b) /\
  scaled (SFmul prec emax a b) = round_num (scaled a * scaled b / 2 ^ L).
Proof. intros HL2 Ha Hb. apply (SFmul_cases a b HL2 Ha Hb). Qed.

Lemma SFmul_overflow a b :
  0 <= 2 * emin prec emax + L ->
  in_format a -> in_format b ->
  2 ^ (emax + L) <= round_mag (Z.abs (scaled a) * Z.abs (scaled b) / 2 ^ L) ->
  SFmul prec emax a b = S754_infinity (xorb (sign_of a) (sign_of b)).
Proof. intros HL2 Ha Hb. apply (SFmul_cases a b HL2 Ha Hb). Qed.

Lemma SFadd_spec a b :
  in_format a -> in_format b ->
  round_mag (Z.abs (scaled a + scaled b)) < 2 ^ (emax + L) ->
  in_format (SFadd prec emax a b) /\
  scaled (SFadd prec emax a b) = round_num (scaled a + scaled b).
Proof.
  intros Ha Hb Hov. pose proof emin_eq as Hemin.
  destruct a as [sa| | |sa ma ea]; try (destruct Ha; discriminate);
    destruct b as [sb| | |sb mb eb]; try (destruct Hb; discriminate).
  - split; [destruct sa, sb; apply in_format_zero|].
    destruct sa, sb; cbn; unfold round_num; cbn; symmetry; apply round_mag_0.
  - cbn [SFadd]. split; trivial.
    rewrite Z.add_0_l. symmetry. apply round_num_in_format; trivial.
  - cbn [SFadd]. split; trivial. cbn [scaled].
    rewrite Z.add_0_r. symmetry. apply (round_num_in_format _ Ha).
  - destruct (in_format_finite _ _ _ Ha) as (Hea & _).
    destruct (in_format_finite _ _ _ Hb) as (Heb & _).
    cbn [SFadd scaled] in *.
    set (ez := Z.min ea eb) in *.
    pose proof (shl_align_spec ma ea ez) as Hsa.
    pose proof (shl_align_spec mb eb ez) as Hsb.
    destruct (shl_align ma ea ez) as [mza eza].
    destruct (shl_align mb eb ez) as [mzb ezb].
    destruct Hsa as [Heza Hmza], Hsb as [Hezb Hmzb]. cbn [fst].
    assert (eza = ez) by (unfold ez in *; lia).
    assert (ezb = ez) by (unfold ez in *; lia). subst eza ezb.
    set (M := cond_Zopp sa (Z.pos mza) + cond_Zopp sb (Z.pos mzb)).
    assert (HM : cond_Zopp sa (Z.pos ma * 2 ^ (ea + L))
                 + cond_Zopp sb (Z.pos mb * 2 ^ (eb + L))
                 = M * 2 ^ (ez + L)).
    { assert (Ha2 : Z.pos ma * 2 ^ (ea + L) = Z.pos mza * 2 ^ (ez + L)).
      { rewrite Hmza, <- Z.mul_assoc, <- Z.pow_add_r by (unfold ez; lia).
        f_equal. f_equal. lia. }
      assert (Hb2 : Z.pos mb * 2 ^ (eb + L) = Z.pos mzb * 2 ^ (ez + L)).
      { rewrite Hmzb, <- Z.mul_assoc, <- Z.pow_add_r by (unfold ez; lia).
        f_equal. f_equal. lia. }
      unfold M. rewrite Ha2, Hb2.
      destruct sa, sb; cbn [cond_Zopp]; ring. }
    rewrite HM in *.
    assert (Hp : 0 < 2 ^ (ez + L))
      by (apply Z.pow_pos_nonneg; unfold ez; lia).
    unfold binary_normalize.
    destruct M as [|p|p].
    + split; [apply in_format_zero|]. cbn. unfold round_num. cbn.
      symmetry. apply round_mag_0.
    + rewrite Z.abs_eq in Hov by lia.
      replace (round_num (Z.pos p * 2 ^ (ez + L)))
        with (cond_Zopp false (round_mag (Z.pos p * 2 ^ (ez + L))))
        by (symmetry; apply (round_num_cond false); lia).
      apply binary_round_spec; trivial. unfold ez. lia.
    + change (Z.neg p) with (- Z.pos p) in *.
      rewrite Z.mul_opp_l, Z.abs_opp, Z.abs_eq in Hov by lia.
      rewrite Z.mul_opp_l.
      replace (round_num (- (Z.pos p * 2 ^ (ez + L))))
        with (cond_Zopp true (round_mag (Z.pos p * 2 ^ (ez + L))))
        by (symmetry; apply (round_num_cond true); lia).
      apply binary_round_spec; trivial. unfold ez. lia.
Qed.

(** A sum of two numbers that are not negative overflows to plus
    infinity. *)
Lemma SFadd_overflow a b :
  in_format a -> in_format b -> 0 <= scaled a -> 0 <= scaled b ->
  2 ^ (emax + L) <= round_mag (scaled a + scaled b) ->
  SFadd prec emax a b = S754_infinity false.
Proof.
  intros Ha Hb Ha0 Hb0 Hov. pose proof emin_eq as Hemin.
  assert (Hp0 : 0 < 2 ^ (emax + L)) by (apply Z.pow_pos_nonneg; lia).
  assert (Hfin : forall y, in_format y -> 0 <= scaled y ->
                 round_mag (scaled y) < 2 ^ (emax + L)).
  { intros y Hy Hy0. pose proof (scaled_bound y Hy) as Hbd.
    pose proof (round_num_in_format y Hy) as Hid. unfold round_num in Hid.
    destruct (Z.ltb_spec (scaled y) 0); lia. }
  destruct a as [sa| | |sa ma ea]; try (destruct Ha; discriminate);
    destruct b as [sb| | |sb mb eb]; try (destruct Hb; discriminate).
  - cbn [scaled] in Hov. cbn in Hov. rewrite round_mag_0 in Hov. lia.
  - rewrite Z.add_0_l in Hov. specialize (Hfin _ Hb Hb0). lia.
  - cbn [scaled] in Hov. rewrite Z.add_0_r in Hov.
    specialize (Hfin _ Ha Ha0). cbn [scaled] in Hfin. lia.
  - destruct (in_format_finite _ _ _ Ha) as (Hea & _).
    destruct (in_format_finite _ _ _ Hb) as (Heb & _).
    pose proof (mag_bounds _ _ _ Ha) as [Hpa _].
    pose proof (mag_bounds _ _ _ Hb) as [Hpb _].
    cbn [scaled] in *.
    destruct sa; [cbn [cond_Zopp] in Ha0; lia|].
    destruct sb; [cbn [cond_Zopp] in Hb0; lia|].
    cbn [SFadd cond_Zopp] in *.
    set (ez := Z.min ea eb) in *.
    pose proof (shl_align_spec ma ea ez) as Hsa.
    pose proof (shl_align_spec mb eb ez) as Hsb.
    destruct (shl_align ma ea ez) as [mza eza].
    destruct (shl_align mb eb ez) as [mzb ezb].
    destruct Hsa as [Heza Hmza], Hsb as [Hezb Hmzb]. cbn [fst].
    assert (eza = ez) by (unfold ez in *; lia).
    assert (ezb = ez) by (unfold ez in *; lia). subst eza ezb.
    assert (HM : Z.pos ma * 2 ^ (ea + L) + Z.pos mb * 2 ^ (eb + L)
                 = Z.pos (mza + mzb) * 2 ^ (ez + L)).
    { assert (Ha2 : Z.pos ma * 2 ^ (ea + L) = Z.pos mza * 2 ^ (ez + L)).
      { rewrite Hmza, <- Z.mul_assoc, <- Z.pow_add_r by (unfold ez; lia).
        f_equal. f_equal. lia. }
      assert (Hb2 : Z.pos mb * 2 ^ (eb + L) = Z.pos mzb * 2 ^ (ez + L)).
      { rewrite Hmzb, <- Z.mul_assoc, <- Z.pow_add_r by (unfold ez; lia).
        f_equal. f_equal. lia. }
      rewrite Ha2, Hb2, Pos2Z.inj_add. ring. }
    rewrite HM in Hov.
    change (Z.pos mza + Z.pos mzb) with (Z.pos (mza + mzb)).
    cbn [binary_normalize].
    apply binary_round_overflow; trivial. unfold ez. lia.
Qed.

Lemma SFsub_spec a b :
  in_format a -> in_format b ->
  round_mag (Z.abs (scaled a - scaled b)) < 2 ^ (emax + L) ->
  in_format (SFsub prec emax a b) /\
  scaled (SFsub prec emax a b) = round_num (scaled a - scaled b).
Proof.
  intros Ha Hb Hov. pose proof emin_eq as Hemin.
  destruct a as [sa| | |sa ma ea]; try (destruct Ha; discriminate);
    destruct b as [sb| | |sb mb eb]; try (destruct Hb; discriminate).
  - split; [destruct sa, sb; apply in_format_zero|].
    destruct sa, sb; cbn; unfold round_num; cbn; symmetry; apply round_mag_0.
  - cbn [SFsub]. split; [apply (in_format_opp _ Hb)|].
    rewrite Z.sub_0_l, round_num_opp, (round_num_in_format _ Hb).
    apply (scaled_opp (S754_finite sb mb eb)).
  - cbn [SFsub]. split; trivial. cbn [scaled].
    rewrite Z.sub_0_r. symmetry. apply (round_num_in_format _ Ha).
  - destruct (in_format_finite _ _ _ Ha) as (Hea & _).
    destruct (in_format_finite _ _ _ Hb) as (Heb & _).
    cbn [SFsub scaled] in *.
    set (ez := Z.min ea eb) in *.
    pose proof (shl_align_spec ma ea ez) as Hsa.
    pose proof (shl_align_spec mb eb ez) as Hsb.
    destruct (shl_align ma ea ez) as [mza eza].
    destruct (shl_align mb eb ez) as [mzb ezb].
    destruct Hsa as [Heza Hmza], Hsb as [Hezb Hmzb]. cbn [fst].
    assert (eza = ez) by (unfold ez in *; lia).
    assert (ezb = ez) by (unfold ez in *; lia). subst eza ezb.
    set (M := cond_Zopp sa (Z.pos mza) - cond_Zopp sb (Z.pos mzb)).
    assert (HM : cond_Zopp sa (Z.pos ma * 2 ^ (ea + L))
                 - cond_Zopp sb (Z.pos mb * 2 ^ (eb + L))
                 = M * 2 ^ (ez + L)).
    { assert (Ha2 : Z.pos ma * 2 ^ (ea + L) = Z.pos mza * 2 ^ (ez + L)).
      { rewrite Hmza, <- Z.mul_assoc, <- Z.pow_add_r by (unfold ez; lia).
        f_equal. f_equal. lia. }
      assert (Hb2 : Z.pos mb * 2 ^ (eb + L) = Z.pos mzb * 2 ^ (ez + L)).
      { rewrite Hmzb, <- Z.mul_assoc, <- Z.pow_add_r by (unfold ez; lia).
        f_equal. f_equal. lia. }
      unfold M. rewrite Ha2, Hb2.
      destruct sa, sb; cbn [cond_Zopp]; ring. }
    rewrite HM in *.
    assert (Hp : 0 < 2 ^ (ez + L))
      by (apply Z.pow_pos_nonneg; unfold ez; lia).
    unfold binary_normalize.
    destruct M as [|p|p].
    + split; [apply in_format_zero|]. cbn. unfold round_num. cbn.
      symmetry. apply round_mag_0.
    + rewrite Z.abs_eq in Hov by lia.
      replace (round_num (Z.pos p * 2 ^ (ez + L)))
        with (cond_Zopp false (round_mag (Z.pos p * 2 ^ (ez + L))))
        by (symmetry; apply (round_num_cond false); lia).
      apply binary_round_spec; trivial. unfold ez. lia.
    + change (Z.neg p) with (- Z.pos p) in *.
      rewrite Z.mul_opp_l, Z.abs_opp, Z.abs_eq in Hov by lia.
      rewrite Z.mul_opp_l.
      replace (round_num (- (Z.pos p * 2 ^ (ez + L))))
        with (cond_Zopp true (round_mag (Z.pos p * 2 ^ (ez + L))))
        by (symmetry; apply (round_num_cond true); lia).
      apply binary_round_spec; trivial. unfold ez. lia.
Qed.

End Format.

(** ** The two formats on one scale *)

Lemma scale32 : 0 <= emin 24 128 + scale_exp.
Proof. vm_compute. discriminate. Qed.

Lemma scale32_mul : 0 <= 2 * emin 24 128 + scale_exp.
Proof. vm_compute. discriminate. Qed.

Lemma scale64 : 0 <= emin 53 1024 + scale_exp.
Proof. vm_compute. discriminate. Qed.

Ltac format32 := first [lia | exact scale32 | exact scale32_mul].
Ltac format64 := first [lia | exact scale64].

Lemma mul32_spec a b :
  in_float32 a -> in_float32 b ->
  round_mag32 (Z.abs (num a) * Z.abs (num b) / 2 ^ scale_exp)
  < 2 ^ (128 + scale_exp) ->
  in_float32 (mul32 a b) /\
  num (mul32 a b) = round32 (num a * num b / 2 ^ scale_exp).
Proof.
  apply SFmul_spec; format32.
Qed.

Lemma add32_spec a b :
  in_float32 a -> in_float32 b ->
  round_mag32 (Z.abs (num a + num b)) < 2 ^ (128 + scale_exp) ->
  in_float32 (add32 a b) /\ num (add32 a b) = round32 (num a + num b).
Proof. apply SFadd_spec; format32. Qed.

Lemma sub32_spec a b :
  in_float32 a -> in_float32 b ->
  round_mag32 (Z.abs (num a - num b)) < 2 ^ (128 + scale_exp) ->
  in_float32 (sub32 a b) /\ num (sub32 a b) = round32 (num a - num b).
Proof. apply SFsub_spec; format32. Qed.

Lemma mul32_overflow a b :
  in_float32 a -> in_float32 b ->
  2 ^ (128 + scale_exp)
  <= round_mag32 (Z.abs (num a) * Z.abs (num b) / 2 ^ scale_exp) ->
  mul32 a b = S754_infinity (xorb (sign_of a) (sign_of b)).
Proof. apply SFmul_overflow; format32. Qed.

Lemma add32_overflow a b :
  in_float32 a -> in_float32 b -> 0 <= num a -> 0 <= num b ->
  2 ^ (128 + scale_exp) <= round_mag32 (num a + num b) ->
  add32 a b = S754_infinity false.
Proof. apply SFadd_overflow; format32. Qed.

Lemma round32_abs v : Z.abs (round32 v) = round_mag32 (Z.abs v).
Proof. apply round_num_abs; format32. Qed.

Lemma round32_nonneg v : 0 <= v -> round32 v = round_mag32 v.
Proof.
  intros Hv. unfold round32, round_num, round_mag32.
  destruct (Z.ltb_spec v 0); [lia|].
  reflexivity.
Qed.

Lemma num_bound a : in_float32 a -> Z.abs (num a) < 2 ^ (128 + scale_exp).
Proof. apply scaled_bound; format32. Qed.

Lemma round32_mono v1 v2 : v1 <= v2 -> round32 v1 <= round32 v2.
Proof. apply round_num_mono; format32. Qed.

Lemma round32_in_format a : in_float32 a -> round32 (num a) = num a.
Proof. apply round_num_in_format; format32. Qed.

Lemma round32_bounded v y :
  in_float32 y -> Z.abs v <= Z.abs (num y) ->
  Z.abs (round32 v) <= Z.abs (num y).
Proof. apply round_num_bounded; format32. Qed.

Lemma round_mag32_no_overflow v y :
  in_float32 y -> Z.abs v <= Z.abs (num y) ->
  round_mag32 (Z.abs v) < 2 ^ (128 + scale_exp).
Proof. apply round_mag_no_overflow; format32. Qed.

Lemma round32_0 : round32 0 = 0.
Proof. apply (round32_in_format (S754_zero false)). apply in_format_zero. Qed.

Lemma leb64_spec a b :
  in_float64 a -> in_float64 b -> SFleb a b = (num a <=? num b).
Proof. apply SFleb_spec; format64. Qed.

Lemma ltb64_spec a b :
  in_float64 a -> in_float64 b -> SFltb a b = (num a <? num b).
Proof. apply SFltb_spec; format64. Qed.

Lemma float32_finite s m e :
  in_float32 (S754_finite s m e) ->
  -149 <= e <= 104 /\ Z.pos m < 2 ^ 24 /\ 0 < num (S754_finite false m e).
Proof.
  intros H.
  destruct (in_format_finite 24 128 ltac:(lia) s m e H) as (He & Hm & _).
  repeat split; trivial; try apply He.
  apply (mag_bounds 24 128 scale_exp ltac:(lia) scale32 s m e H).
Qed.

Lemma float64_finite s m e :
  in_float64 (S754_finite s m e) ->
  - scale_exp <= e /\ 0 < num (S754_finite false m e).
Proof.
  intros H. destruct (in_format_finite 53 1024 ltac:(lia) s m e H) as (He & _).
  split; [apply He|].
  apply (mag_bounds 53 1024 scale_exp ltac:(lia) scale64 s m e H).
Qed.

Lemma num_finite s m e :
  num (S754_finite s m e) = cond_Zopp s (num (S754_finite false m e)).
Proof. reflexivity. Qed.

Lemma abs_cond_Zopp s v : 0 <= v -> Z.abs (cond_Zopp s v) = v.
Proof. intros H. destruct s; cbn [cond_Zopp]; lia. Qed.

(** Conversion of a Python float to float32. *)
Lemma to_f32_cases d :
  in_float64 d ->
  (round_mag32 (Z.abs (num d)) < 2 ^ (128 + scale_exp) ->
   in_float32 (to_f32 d) /\ num (to_f32 d) = round32 (num d)) /\
  (2 ^ (128 + scale_exp) <= round_mag32 (Z.abs (num d)) ->
   to_f32 d = S754_infinity (sign_of d)).
Proof.
  intros Hd.
  destruct d as [s| | |s m e]; try (destruct Hd; discriminate).
  - split.
    + intros _. split; [apply in_format_zero|]. symmetry. apply round32_0.
    + change (Z.abs (num (S754_zero s))) with 0.
      unfold round_mag32. rewrite round_mag_0 by exact scale32.
      intros H. exfalso. revert H. apply Z.lt_nge.
      apply Z.pow_pos_nonneg; unfold scale_exp; lia.
  - destruct (float64_finite s m e Hd) as [He Hp].
    rewrite num_finite, abs_cond_Zopp by lia.
    cbn [to_f32 sign_of].
    destruct (binary_round_cases 24 128 scale_exp ltac:(lia) ltac:(lia)
                scale32 s m e He) as [Hfin Hinf].
    split; trivial. intros Hov. specialize (Hfin Hov).
    destruct Hfin as [Hg Hv]. split; trivial.
    fold (num (binary_round 24 128 s m e)) in Hv. rewrite Hv.
    symmetry. apply round_num_cond; [exact scale32|lia].
Qed.

Lemma to_f32_spec d :
  in_float64 d ->
  round_mag32 (Z.abs (num d)) < 2 ^ (128 + scale_exp) ->
  in_float32 (to_f32 d) /\ num (to_f32 d) = round32 (num d).
Proof. intros Hd. apply (to_f32_cases d Hd). Qed.

(** Reading a float32 as a Python float changes nothing of the number. *)
Lemma item_spec a : in_float32 a -> in_float64 (item a) /\ num (item a) = num a.
Proof.
  intros Ha.
  destruct a as [s| | |s m e]; try (destruct Ha; discriminate).
  - split; [apply in_format_zero|reflexivity].
  - destruct (float32_finite s m e Ha) as (He & Hm & Hp).
    pose proof (scaled_bound 24 128 scale_exp ltac:(lia) ltac:(lia) scale32
                  _ Ha) as Hlt.
    fold (num (S754_finite s m e)) in Hlt.
    rewrite num_finite, abs_cond_Zopp in Hlt by lia.
    assert (Hid : round_mag 53 1024 scale_exp (num (S754_finite false m e))
                  = num (S754_finite false m e)).
    { apply round_int_id; [lia|exact scale64| |].
      - split; [lia|]. apply Z.lt_le_trans with (2 ^ 24); trivial.
        apply Z.pow_le_mono_r; lia.
      - change (emin 53 1024) with (- scale_exp). unfold scale_exp. lia. }
    cbn [item].
    destruct (binary_round_spec 53 1024 scale_exp ltac:(lia) ltac:(lia)
                scale64 s m e) as [Hg Hv].
    + unfold scale_exp. lia.
    + change (Z.pos m * 2 ^ (e + scale_exp))
        with (num (S754_finite false m e)).
      rewrite Hid. apply Z.lt_le_trans with (2 ^ (128 + scale_exp)); trivial.
      apply Z.pow_le_mono_r; unfold scale_exp; lia.
    + split; trivial. unfold num at 1. rewrite Hv.
      change (Z.pos m * 2 ^ (e + scale_exp))
        with (num (S754_finite false m e)).
      rewrite Hid. reflexivity.
Qed.

(** ** The bowl within range *)

Lemma pow2_32_spec k :
  -126 <= k <= 127 ->
  in_float32 (pow2_32 k) /\ num (pow2_32 k) = 2 ^ (k + scale_exp).
Proof.
  intros Hk. split; [split; [reflexivity|]|].
  - cbn [pow2_32 valid_binary]. unfold bounded, canonical_mantissa.
    change (Z.pos (digits2_pos 8388608)) with 24.
    rewrite fexp_eq. change (emin 24 128) with (-149).
    apply andb_true_intro. split; [apply Z.eqb_eq|apply Z.leb_le]; lia.
  - unfold num, pow2_32. cbn [scaled cond_Zopp].
    change (Z.pos 8388608) with (2 ^ 23).
    rewrite <- Z.pow_add_r by (unfold scale_exp; lia).
    f_equal. lia.
Qed.

Lemma unit_scaled_pos : 0 < unit_scaled.
Proof. apply Z.pow_pos_nonneg; unfold scale_exp; lia. Qed.

Lemma top_scaled_pos : 0 < top_scaled.
Proof. apply Z.pow_pos_nonneg; unfold scale_exp; lia. Qed.

Lemma two32_spec : in_float32 two32 /\ num two32 = 2 * unit_scaled.
Proof.
  change two32 with (pow2_32 1).
  destruct (pow2_32_spec 1 ltac:(lia)) as [Hg Hn].
  split; [exact Hg|]. rewrite Hn. unfold unit_scaled.
  rewrite Z.pow_add_r by (unfold scale_exp; lia). reflexivity.
Qed.

Lemma round_mag32_top : round_mag32 top_scaled = top_scaled.
Proof.
  unfold top_scaled, round_mag32, round_mag.
  replace (2 ^ (128 + scale_exp)) with (2 ^ 23 * 2 ^ (105 + scale_exp))
    by (rewrite <- Z.pow_add_r by (unfold scale_exp; lia); f_equal; lia).
  apply round_int_id; [lia|exact scale32|lia|].
  change (emin 24 128) with (-149). lia.
Qed.

(** From [2 ^ 128] on, magnitudes round to [2 ^ 128] at least. *)
Lemma round_mag32_above_top v : top_scaled <= v -> top_scaled <= round_mag32 v.
Proof.
  intros Hv. rewrite <- round_mag32_top at 1.
  apply round_mag_mono; [lia|exact scale32|]. pose proof top_scaled_pos. lia.
Qed.

(** Doubling is exact on the numbers of the format. *)
Lemma round32_double x : in_float32 x -> round32 (2 * num x) = 2 * num x.
Proof.
  intros Hx. destruct x as [s| | |s m e]; try (destruct Hx; discriminate).
  - apply round32_0.
  - destruct (float32_finite s m e Hx) as (He & Hm & Hp).
    rewrite num_finite.
    replace (2 * cond_Zopp s (num (S754_finite false m e)))
      with (cond_Zopp s (Z.pos m * 2 ^ (e + 1 + scale_exp))).
    + unfold round32. rewrite round_num_cond.
      * f_equal. apply round_int_id; [lia|exact scale32|lia|].
        change (emin 24 128) with (-149). lia.
      * exact scale32.
      * apply Z.lt_le_incl, Z.mul_pos_pos; [lia|].
        apply Z.pow_pos_nonneg; unfold scale_exp; lia.
    + unfold num. cbn [scaled cond_Zopp].
      replace (e + 1 + scale_exp) with (Z.succ (e + scale_exp)) by lia.
      rewrite Z.pow_succ_r by (unfold scale_exp; lia).
      destruct s; cbn [cond_Zopp]; ring.
Qed.

(** The magnitude that [2 * x] rounds. *)
Lemma double_arg x :
  Z.abs (num two32) * Z.abs (num x) / 2 ^ scale_exp = Z.abs (2 * num x).
Proof.
  destruct two32_spec as [_ Hn2]. pose proof unit_scaled_pos as Hu.
  rewrite Hn2. fold unit_scaled.
  rewrite (Z.abs_eq (2 * unit_scaled)) by lia.
  replace (2 * unit_scaled * Z.abs (num x))
    with (2 * Z.abs (num x) * unit_scaled) by ring.
  rewrite Z.div_mul by lia. lia.
Qed.

Lemma double_exact x :
  within x -> in_float32 (mul32 two32 x) /\ num (mul32 two32 x) = 2 * num x.
Proof.
  intros [Hx Hb]. destruct two32_spec as [H2 Hn2].
  pose proof unit_scaled_pos as Hu.
  assert (Hq : num two32 * num x / 2 ^ scale_exp = 2 * num x).
  { rewrite Hn2. fold unit_scaled.
    replace (2 * unit_scaled * num x) with (2 * num x * unit_scaled) by ring.
    apply Z.div_mul. lia. }
  destruct (mul32_spec two32 x H2 Hx) as [Hg Hv].
  - rewrite double_arg, <- round32_abs, (round32_double x Hx).
    fold top_scaled. lia.
  - split; trivial. rewrite Hv, Hq. apply round32_double; trivial.
Qed.

(** A float32 number whose double is finite is within range. *)
Lemma finite_double_within x :
  in_float32 x -> is_finite (mul32 two32 x) = true -> within x.
Proof.
  intros Hx Hfin. split; trivial.
  destruct (Z.lt_ge_cases (2 * Z.abs (num x)) top_scaled) as [|Hge];
    trivial.
  exfalso. destruct two32_spec as [H2 _].
  rewrite (mul32_overflow two32 x H2 Hx) in Hfin; [discriminate|].
  rewrite double_arg. fold top_scaled. apply round_mag32_above_top. lia.
Qed.

(** Multiplying by a factor between 0 and 1 brings a number no farther
    from zero, on the same side. *)
Lemma shrink l g :
  in_float32 l -> 0 <= num l <= unit_scaled -> in_float32 g ->
  in_float32 (mul32 l g) /\
  (0 <= num g -> 0 <= num (mul32 l g) <= num g) /\
  (num g <= 0 -> num g <= num (mul32 l g) <= 0).
Proof.
  intros Hl Hln Hg.
  pose proof unit_scaled_pos as Hu.
  assert (Hlo : 0 <= num g -> 0 <= num l * num g / 2 ^ scale_exp <= num g).
  { intros Hg0. fold unit_scaled. split.
    - apply Z.div_pos; nia.
    - apply Z.div_le_upper_bound; nia. }
  assert (Hhi : num g <= 0 -> num g <= num l * num g / 2 ^ scale_exp <= 0).
  { intros Hg0. fold unit_scaled. split.
    - apply Z.div_le_lower_bound; nia.
    - assert (num l * num g / unit_scaled <= 0 / unit_scaled).
      { apply Z.div_le_mono; nia. }
      rewrite Z.div_0_l in H by lia. trivial. }
  destruct (mul32_spec l g Hl Hg) as [Hm Hv].
  - assert (Hq : 0 <= Z.abs (num l) * Z.abs (num g) / 2 ^ scale_exp
                 <= Z.abs (num g)).
    { fold unit_scaled. split.
      - apply Z.div_pos; nia.
      - apply Z.div_le_upper_bound; nia. }
    rewrite <- (Z.abs_eq (_ / _)) by lia.
    apply (round_mag32_no_overflow _ g Hg). lia.
  - split; trivial. rewrite Hv. split; intros Hg0.
    + specialize (Hlo Hg0). split.
      * rewrite <- round32_0. apply round32_mono. lia.
      * rewrite <- (round32_in_format g Hg) at 2. apply round32_mono. lia.
    + specialize (Hhi Hg0). split.
      * rewrite <- (round32_in_format g Hg) at 1. apply round32_mono. lia.
      * rewrite <- round32_0. apply round32_mono. lia.
Qed.

(** Adding a zero changes no number. *)
Lemma add32_zero_r g :
  in_float32 g ->
  in_float32 (add32 g pzero) /\ num (add32 g pzero) = num g.
Proof.
  intros Hg.
  destruct (add32_spec g pzero Hg (in_format_zero 24 128 false)) as [Hf Hv].
  - apply (round_mag32_no_overflow _ g Hg).
    change (num pzero) with 0. rewrite Z.add_0_r. lia.
  - split; trivial. rewrite Hv. change (num pzero) with 0.
    rewrite Z.add_0_r. apply round32_in_format, Hg.
Qed.

Lemma add32_zero_l g :
  in_float32 g ->
  in_float32 (add32 pzero g) /\ num (add32 pzero g) = num g.
Proof.
  intros Hg.
  destruct (add32_spec pzero g (in_format_zero 24 128 false) Hg) as [Hf Hv].
  - apply (round_mag32_no_overflow _ g Hg).
    change (num pzero) with 0. rewrite Z.add_0_l. lia.
  - split; trivial. rewrite Hv. change (num pzero) with 0.
    rewrite Z.add_0_l. apply round32_in_format, Hg.
Qed.

Lemma finite_add_zero_r g :
  is_finite (add32 g pzero) = true -> is_finite g = true.
Proof. destruct g as [s|s| |s m e]; trivial. Qed.

Lemma finite_add_zero_l g :
  is_finite (add32 pzero g) = true -> is_finite g = true.
Proof. destruct g as [s|s| |s m e]; trivial. Qed.

(** The two entries of the gradient of the bowl. *)
Lemma grad_entry_l x :
  within x ->
  in_float32 (add32 (mul32 two32 x) pzero) /\
  num (add32 (mul32 two32 x) pzero) = 2 * num x.
Proof.
  intros Hw. destruct (double_exact x Hw) as [Hg Hng].
  destruct (add32_zero_r _ Hg) as [Hf Hn]. split; trivial. congruence.
Qed.

Lemma grad_entry_r x :
  within x ->
  in_float32 (add32 pzero (mul32 two32 x)) /\
  num (add32 pzero (mul32 two32 x)) = 2 * num x.
Proof.
  intros Hw. destruct (double_exact x Hw) as [Hg Hng].
  destruct (add32_zero_l _ Hg) as [Hf Hn]. split; trivial. congruence.
Qed.

(** One update of a coordinate: [x - l * g] with [g] the double of [x]
    and [0 <= l <= 1] is no farther from zero than [x]. *)
Lemma coordinate_step x l g :
  within x -> in_float32 l -> 0 <= num l <= unit_scaled ->
  in_float32 g -> num g = 2 * num x ->
  within (sub32 x (mul32 l g)) /\
  Z.abs (num (sub32 x (mul32 l g))) <= Z.abs (num x).
Proof.
  intros Hw Hl Hln Hg Hng. pose proof Hw as [Hx Hb].
  destruct (shrink l g Hl Hln Hg) as (Hs & Hpos & Hneg).
  rewrite Hng in Hpos, Hneg.
  set (s := mul32 l g) in *.
  assert (Hd : Z.abs (num x - num s) <= Z.abs (num x)) by lia.
  destruct (sub32_spec x s Hx Hs) as [Hg' Hv'].
  - apply (round_mag32_no_overflow _ x Hx Hd).
  - pose proof (round32_bounded _ x Hx Hd) as Hbd. rewrite <- Hv' in Hbd.
    split; [split; trivial; lia|trivial].
Qed.

(** *** Values, infinite ones included *)

Lemma num_ext_in_format a : in_float32 a -> num_ext a = num a.
Proof. destruct a; trivial. intros [H _]. discriminate. Qed.

Lemma square_nonneg x : 0 <= num x * num x / 2 ^ scale_exp.
Proof. pose proof unit_scaled_pos. fold unit_scaled. apply Z.div_pos; nia. Qed.

Lemma square_ext x :
  in_float32 x ->
  ext32 (mul32 x x) /\ num_ext (mul32 x x) = capped (square_scaled x) /\
  0 <= num_ext (mul32 x x).
Proof.
  intros Hx. pose proof top_scaled_pos as Ht.
  pose proof (square_nonneg x) as Hnn.
  assert (Habs : Z.abs (num x) * Z.abs (num x) = num x * num x) by nia.
  assert (Hsq : square_scaled x = round_mag32 (num x * num x / 2 ^ scale_exp))
    by (apply round32_nonneg; trivial).
  destruct (Z.lt_ge_cases (round_mag32 (num x * num x / 2 ^ scale_exp))
              top_scaled) as [Hlt|Hge].
  - destruct (mul32_spec x x Hx Hx) as [Hg Hv]; [rewrite Habs; exact Hlt|].
    fold (square_scaled x) in Hv.
    rewrite (num_ext_in_format _ Hg), Hv. unfold capped.
    split; [left; trivial|]. split; [lia|].
    rewrite Hsq. apply round_mag_nonneg; [exact scale32|trivial].
  - rewrite (mul32_overflow x x Hx Hx) by (rewrite Habs; exact Hge).
    rewrite xorb_nilpotent. cbn [num_ext]. unfold capped.
    split; [right; reflexivity|]. split; lia.
Qed.

Lemma square_mono x x' :
  Z.abs (num x') <= Z.abs (num x) -> square_scaled x' <= square_scaled x.
Proof.
  intros H. unfold square_scaled. apply round32_mono.
  apply Z.div_le_mono; [apply Z.pow_pos_nonneg; unfold scale_exp; lia|].
  assert (num x' * num x' = Z.abs (num x') * Z.abs (num x')) as -> by nia.
  assert (num x * num x = Z.abs (num x) * Z.abs (num x)) as -> by nia.
  nia.
Qed.

(** The sum of two values that are not negative. *)
Lemma add_ext a b :
  ext32 a -> ext32 b -> 0 <= num_ext a -> 0 <= num_ext b ->
  ext32 (add32 a b) /\
  num_ext (add32 a b) = capped (round32 (num_ext a + num_ext b)).
Proof.
  intros Ha Hb Ha0 Hb0. pose proof top_scaled_pos as Ht.
  assert (Hinf : forall v, top_scaled <= v -> capped (round32 v) = top_scaled).
  { intros v Hv. rewrite round32_nonneg by lia.
    pose proof (round_mag32_above_top v Hv). unfold capped. lia. }
  destruct Ha as [Ha| ->].
  - destruct Hb as [Hb| ->].
    + rewrite (num_ext_in_format _ Ha), (num_ext_in_format _ Hb) in *.
      rewrite round32_nonneg by lia.
      destruct (Z.lt_ge_cases (round_mag32 (num a + num b)) top_scaled)
        as [Hlt|Hge].
      * destruct (add32_spec a b Ha Hb) as [Hg Hv].
        { rewrite Z.abs_eq by lia. exact Hlt. }
        rewrite (num_ext_in_format _ Hg), Hv, round32_nonneg by lia.
        split; [left; trivial|]. unfold capped. lia.
      * rewrite (add32_overflow a b Ha Hb Ha0 Hb0 Hge).
        split; [right; reflexivity|]. cbn [num_ext]. unfold capped. lia.
    + assert (add32 a pinf = pinf) as ->.
      { destruct a as [s| | |s m e]; try (destruct Ha; discriminate);
          reflexivity. }
      split; [right; reflexivity|]. cbn [num_ext pinf].
      symmetry. apply Hinf. cbn [num_ext pinf] in Hb0. lia.
  - assert (add32 pinf b = pinf) as ->.
    { destruct Hb as [Hb| ->]; [|reflexivity].
      destruct b as [s| | |s m e]; try (destruct Hb; discriminate);
        reflexivity. }
    split; [right; reflexivity|]. cbn [num_ext pinf].
    symmetry. apply Hinf. cbn [num_ext pinf] in Ha0. lia.
Qed.

Lemma bowl_value_ext x1 x2 :
  in_float32 x1 -> in_float32 x2 ->
  ext32 (bowl_value x1 x2) /\
  num_ext (bowl_value x1 x2)
  = capped (round32 (capped (square_scaled x1) + capped (square_scaled x2))).
Proof.
  intros H1 H2.
  destruct (square_ext x1 H1) as (He1 & Hn1 & Hp1).
  destruct (square_ext x2 H2) as (He2 & Hn2 & Hp2).
  unfold bowl_value. rewrite <- Hn1, <- Hn2.
  apply add_ext; trivial.
Qed.

(** Read as Python floats, values are ordered as the numbers they stand
    for. *)
Lemma leb_ext a b :
  ext32 a -> ext32 b -> num_ext a <= num_ext b ->
  SFleb (item a) (item b) = true.
Proof.
  intros Ha Hb Hle.
  destruct Hb as [Hb| ->].
  - destruct Ha as [Ha| ->].
    + destruct (item_spec a Ha) as [Hia Hna].
      destruct (item_spec b Hb) as [Hib Hnb].
      rewrite (leb64_spec _ _ Hia Hib), Hna, Hnb.
      rewrite (num_ext_in_format _ Ha), (num_ext_in_format _ Hb) in Hle.
      apply Z.leb_le. exact Hle.
    + rewrite (num_ext_in_format _ Hb) in Hle. cbn [num_ext pinf] in Hle.
      pose proof (num_bound b Hb) as Hbd. fold top_scaled in Hbd. lia.
  - destruct Ha as [Ha| ->]; [|reflexivity].
    destruct (item_spec a Ha) as [[Hfin _] _].
    destruct (item a) as [s| | |s m e]; try discriminate; reflexivity.
Qed.

Lemma bowl_value_mono x1 x2 x1' x2' :
  in_float32 x1 -> in_float32 x2 -> in_float32 x1' -> in_float32 x2' ->
  Z.abs (num x1') <= Z.abs (num x1) ->
  Z.abs (num x2') <= Z.abs (num x2) ->
  SFleb (item (bowl_value x1' x2')) (item (bowl_value x1 x2)) = true.
Proof.
  intros H1 H2 H1' H2' Ha1 Ha2.
  destruct (bowl_value_ext x1 x2 H1 H2) as [He Hv].
  destruct (bowl_value_ext x1' x2' H1' H2') as [He' Hv'].
  apply leb_ext; trivial. rewrite Hv, Hv'.
  pose proof (square_mono x1 x1' Ha1). pose proof (square_mono x2 x2' Ha2).
  unfold capped at 1 3. apply Z.min_le_compat_r. apply round32_mono.
  unfold capped. lia.
Qed.

(** ** The run on the bowl *)

Lemma non_increasing_snoc init r r' :
  non_increasing (init ++ [r]) ->
  SFleb (s_y r') (s_y r) = true ->
  non_increasing ((init ++ [r]) ++ [r']).
Proof.
  intros H Hle i s s' Hi Hsi.
  assert (Hlen : length (init ++ [r]) = S (length init))
    by (rewrite length_app; cbn; lia).
  assert (Hb : (S i < length ((init ++ [r]) ++ [r']))%nat)
    by (apply nth_error_Some; congruence).
  rewrite length_app, Hlen in Hb. cbn in Hb.
  destruct (Nat.eq_dec i (length init)) as [->|Hne].
  - rewrite nth_error_app1 in Hi by lia.
    rewrite nth_error_app2, Nat.sub_diag in Hi by lia.
    rewrite nth_error_app2 in Hsi by lia.
    rewrite Hlen, Nat.sub_diag in Hsi.
    cbn in Hi, Hsi. injection Hi as <-. injection Hsi as <-. exact Hle.
  - rewrite nth_error_app1 in Hi, Hsi by lia. exact (H i s s' Hi Hsi).
Qed.

Lemma one64_spec : in_float64 one64 /\ num one64 = unit_scaled.
Proof. split; [split; reflexivity|]. vm_compute. reflexivity. Qed.

Lemma pzero_spec : in_float64 pzero /\ num pzero = 0.
Proof. split; [apply in_format_zero|reflexivity]. Qed.

(** A finite start coordinate whose double is finite in float32 is
    within range there. *)
Lemma start_within d :
  in_float64 d -> is_finite (mul32 two32 (to_f32 d)) = true ->
  within (to_f32 d).
Proof.
  intros Hd Hfin. apply finite_double_within; trivial.
  destruct (to_f32_cases d Hd) as [Hok Hinf].
  destruct (Z.lt_ge_cases (round_mag32 (Z.abs (num d))) (2 ^ (128 + scale_exp)))
    as [Hlt|Hge].
  - apply Hok; trivial.
  - rewrite (Hinf Hge) in Hfin. discriminate.
Qed.

(** A learning rate in [(0, 1]] is a factor in [[0, 1]] in float32. *)
Lemma rate_unit lr :
  in_float64 lr -> py_lt pzero lr = true -> SFleb lr one64 = true ->
  in_float32 (to_f32 lr) /\ 0 <= num (to_f32 lr) <= unit_scaled.
Proof.
  intros Hd Hpos Hle. destruct one64_spec as [H1 Hn1].
  destruct pzero_spec as [H0 Hn0].
  destruct (pow2_32_spec 0 ltac:(lia)) as [Hg Hn].
  change (2 ^ (0 + scale_exp)) with unit_scaled in Hn.
  pose proof unit_scaled_pos as Hu.
  unfold py_lt in Hpos. rewrite (ltb64_spec _ _ H0 Hd), Hn0 in Hpos.
  apply Z.ltb_lt in Hpos.
  rewrite (leb64_spec _ _ Hd H1), Hn1 in Hle. apply Z.leb_le in Hle.
  assert (Hb : Z.abs (num lr) <= Z.abs (num (pow2_32 0)))
    by (rewrite Hn; lia).
  destruct (to_f32_spec lr Hd) as [Hg' Hv].
  - apply (round_mag32_no_overflow _ _ Hg Hb).
  - split; trivial. rewrite Hv. split.
    + rewrite <- round32_0. apply round32_mono. lia.
    + rewrite <- Hn, <- (round32_in_format _ Hg). apply round32_mono. lia.
Qed.

Section Bowl_run.

Variable start_point : f64 * f64.
Variables learning_rate tolerance : f64.

Hypothesis start1 : within (to_f32 (fst start_point)).
Hypothesis start2 : within (to_f32 (snd start_point)).
Hypothesis rate_in_format : in_float32 (to_f32 learning_rate).
Hypothesis rate_range : 0 <= num (to_f32 learning_rate) <= unit_scaled.

Lemma bowl_inv_update st grad new_y :
  bowl_inv st ->
  answers bowl learning_rate st grad new_y ->
  bowl_inv (after_update learning_rate st grad new_y).
Proof.
  intros (H1 & H2 & [init Hpath] & Hni) (_ & Hg & Hnew).
  cbn zeta in Hnew. cbn [bowl backward call] in Hg, Hnew.
  injection Hg as <-. injection Hnew as <-.
  unfold after_update, bowl_inv. cbn [st_x st_path st_updates].
  unfold isub, scale. cbn [fst snd].
  destruct (grad_entry_l _ H1) as [Hg1 Hn1].
  destruct (grad_entry_r _ H2) as [Hg2 Hn2].
  destruct (coordinate_step _ _ _ H1 rate_in_format rate_range Hg1 Hn1)
    as [Hw1 Ha1].
  destruct (coordinate_step _ _ _ H2 rate_in_format rate_range Hg2 Hn2)
    as [Hw2 Ha2].
  split; trivial. split; trivial. split.
  - exists (st_path st). reflexivity.
  - rewrite Hpath. apply non_increasing_snoc.
    + rewrite <- Hpath. exact Hni.
    + cbn [row s_y].
      apply bowl_value_mono; trivial;
        first [apply H1 | apply H2 | apply Hw1 | apply Hw2].
Qed.

Lemma bowl_inv_head st :
  at_head bowl start_point learning_rate tolerance st -> bowl_inv st.
Proof.
  induction 1 as [y Hy | st grad new_y Hst IH Hans Hconv].
  - cbn [bowl call] in Hy. injection Hy as <-.
    unfold bowl_inv, torch_tensor. cbn [st_x st_path fst snd].
    split; trivial. split; trivial. split.
    + exists []. reflexivity.
    + intros i s s' _ Hsi. destruct i; discriminate.
  - apply bowl_inv_update; trivial.
Qed.

Lemma bowl_inv_finished max_iters st :
  finished bowl start_point learning_rate tolerance max_iters st ->
  bowl_inv st.
Proof.
  destruct 1 as [st Hst _ | st grad new_y Hst _ Hans _].
  - apply bowl_inv_head; trivial.
  - apply bowl_inv_update; trivial. apply bowl_inv_head; trivial.
Qed.

End Bowl_run.

(** C9, as the code has it.  On the bowl [x1^2 + x2^2], for every finite
    start point at which the float32 gradient [(2 * x1, 2 * x2)] is
    finite (both coordinates below [2 ^ 127] in magnitude) and every
    learning rate in [(0, 1]], whatever [max_iters] and the tolerance,
    the recorded objective values never go up along the returned
    trajectory. *)
Theorem bowl_values_non_increasing start_point learning_rate max_iters
    tolerance :
  python_finite (fst start_point) -> python_finite (snd start_point) ->
  gradient_finite bowl (torch_tensor start_point) ->
  python_finite learning_rate ->
  py_lt pzero learning_rate = true ->
  SFleb learning_rate one64 = true ->
  exists path,
    gradient_descent_pytorch bowl start_point learning_rate max_iters
      tolerance = Ok path /\
    forall i s s',
      nth_error path i = Some s -> nth_error path (S i) = Some s' ->
      SFleb (s_y s') (s_y s) = true.
Proof.
  intros Hs1 Hs2 (g & Hg & Hg1 & Hg2) Hlr Hpos Hle.
  cbn [bowl backward torch_tensor fst snd] in Hg. injection Hg as <-.
  cbn [fst snd] in Hg1, Hg2.
  destruct (descent_run_returns bowl start_point learning_rate tolerance
              max_iters bowl_never_raises) as (st & Hrun & Hgd).
  exists (st_path st). split; trivial.
  destruct (rate_unit learning_rate Hlr Hpos Hle) as [Hrg Hrr].
  pose proof (bowl_inv_finished start_point learning_rate tolerance
                (start_within _ Hs1 (finite_add_zero_r _ Hg1))
                (start_within _ Hs2 (finite_add_zero_l _ Hg2)) Hrg Hrr
                max_iters st (descent_run_finished _ _ _ _ _ _ Hrun))
    as (_ & _ & _ & Hni).
  exact Hni.
Qed.

Lemma bowl_values_non_increasing_witness :
  python_finite (fst (f64_of_Z 5, f64_of_Z 5)) /\
  python_finite (snd (f64_of_Z 5, f64_of_Z 5)) /\
  gradient_finite bowl (torch_tensor (f64_of_Z 5, f64_of_Z 5)) /\
  python_finite (f64_lit 1 10) /\
  py_lt pzero (f64_lit 1 10) = true /\
  SFleb (f64_lit 1 10) one64 = true /\
  exists path,
    gradient_descent_pytorch bowl (f64_of_Z 5, f64_of_Z 5) (f64_lit 1 10)
      1000 main_tolerance = Ok path /\
    forall i s s',
      nth_error path i = Some s -> nth_error path (S i) = Some s' ->
      SFleb (s_y s') (s_y s) = true.
Proof.
  split; [split; reflexivity|]. split; [split; reflexivity|].
  split; [eexists; split; [reflexivity|split; reflexivity]|].
  split; [split; reflexivity|].
  split; [reflexivity|]. split; [reflexivity|].
  apply (bowl_values_non_increasing (f64_of_Z 5, f64_of_Z 5) (f64_lit 1 10)
           1000 main_tolerance);
    first [reflexivity | split; reflexivity
          | eexists; split; [reflexivity|split; reflexivity]].
Defined.

(** C9 as stated fails: from the start point [[3e38, 0.0]] with the
    learning rate [0.1] the gradient [2 * 3e38] overflows float32; the
    recorded values are [inf], [inf], [nan], and [nan <= inf] is false. *)
Lemma bowl_overflow_values_not_ordered :
  python_finite (f64_of_Z (3 * 10 ^ 38)) /\
  backward bowl (to_f32 (f64_of_Z (3 * 10 ^ 38))) pzero = Ok (pinf, pzero) /\
  py_lt pzero (f64_lit 1 10) = true /\
  SFleb (f64_lit 1 10) one64 = true /\
  exists path s s',
    gradient_descent_pytorch bowl (f64_of_Z (3 * 10 ^ 38), pzero)
      (f64_lit 1 10) 2 main_tolerance = Ok path /\
    nth_error path 1 = Some s /\ nth_error path 2 = Some s' /\
    s_y s = pinf /\ s_y s' = S754_nan /\
    SFleb (s_y s') (s_y s) = false.
Proof.
  split; [split; reflexivity|]. split; [reflexivity|].
  split; [reflexivity|]. split; [reflexivity|].
  eexists. eexists. eexists.
  split; [vm_compute; reflexivity|].
  split; [reflexivity|]. split; [reflexivity|].
  split; [reflexivity|]. split; reflexivity.
Qed.

(** * More of the engine *)

(** ** The path only grows *)

Lemma path_grows func learning_rate tolerance iters st st' :
  descent_loop func learning_rate tolerance iters st = Ok st' ->
  exists extra, st_path st' = st_path st ++ extra.
Proof.
  revert st. induction iters as [|iters IH]; intros st Hrun.
  - cbn in Hrun. injection Hrun as <-. exists []. symmetry. apply app_nil_r.
  - cbn [descent_loop] in Hrun.
    destruct (call func (fst (st_x st)) (snd (st_x st))) as [y|e];
      [|discriminate].
    cbn [bind] in Hrun.
    destruct (backward func (fst (st_x st)) (snd (st_x st))) as [grad|e];
      [|discriminate].
    cbn [bind] in Hrun.
    set (x' := isub (st_x st) (scale learning_rate grad)) in *.
    destruct (call func (fst x') (snd x')) as [new_y|e]; [|discriminate].
    cbn [bind] in Hrun.
    destruct (converged grad tolerance).
    + injection Hrun as <-. cbn [st_path]. eauto.
    + apply IH in Hrun. destruct Hrun as [extra ->]. cbn [st_path].
      rewrite <- app_assoc. eauto.
Qed.

(** A loop that returns after [n + k] iterations at most returns after
    [n] at most too, with a prefix of the path. *)
Lemma loop_prefix func learning_rate tolerance n k st st2 :
  descent_loop func learning_rate tolerance (n + k) st = Ok st2 ->
  exists st1 extra,
    descent_loop func learning_rate tolerance n st = Ok st1 /\
    st_path st2 = st_path st1 ++ extra.
Proof.
  revert st. induction n as [|n IH]; intros st Hrun.
  - cbn [Nat.add] in Hrun. exists st. cbn [descent_loop].
    destruct (path_grows _ _ _ _ _ _ Hrun) as [extra He]. eauto.
  - cbn [Nat.add descent_loop] in Hrun |- *.
    destruct (call func (fst (st_x st)) (snd (st_x st))) as [y|e];
      [|discriminate].
    cbn [bind] in Hrun |- *.
    destruct (backward func (fst (st_x st)) (snd (st_x st))) as [grad|e];
      [|discriminate].
    cbn [bind] in Hrun |- *.
    set (x' := isub (st_x st) (scale learning_rate grad)) in *.
    destruct (call func (fst x') (snd x')) as [new_y|e]; [|discriminate].
    cbn [bind] in Hrun |- *.
    destruct (converged grad tolerance).
    + injection Hrun as <-. eexists. exists []. split; [reflexivity|].
      symmetry. apply app_nil_r.
    + apply IH, Hrun.
Qed.

(** X1.  A run with a smaller [max_iters] stops where the run with the
    larger one passed: whenever the run with [m] iterations returns, the
    run with [n <= m] returns as well, and its trajectory is a prefix of
    the other. *)
Theorem fewer_iterations_prefix func start_point learning_rate tolerance
    n m path :
  n <= m ->
  gradient_descent_pytorch func start_point learning_rate m tolerance
    = Ok path ->
  exists shorter extra,
    gradient_descent_pytorch func start_point learning_rate n tolerance
      = Ok shorter /\
    path = shorter ++ extra.
Proof.
  intros Hnm. unfold gradient_descent_pytorch, descent_run.
  destruct (call func (fst (torch_tensor start_point))
                      (snd (torch_tensor start_point))) as [y|e];
    [|discriminate].
  cbn [bind].
  replace (Z.to_nat m) with (Z.to_nat n + (Z.to_nat m - Z.to_nat n))%nat
    by lia.
  destruct (descent_loop func learning_rate tolerance
              (Z.to_nat n + (Z.to_nat m - Z.to_nat n)) _) as [st2|e] eqn:Hrun;
    [|discriminate].
  cbn [bind]. intros Hp. injection Hp as <-.
  destruct (loop_prefix _ _ _ _ _ _ _ Hrun) as (st1 & extra & -> & He).
  cbn [bind]. eauto.
Qed.

Lemma fewer_iterations_prefix_witness :
  exists path,
    3 <= 1000 /\
    gradient_descent_pytorch bowl (f64_of_Z 5, f64_of_Z 5) (f64_lit 1 10)
      1000 (f64_lit 1 1000000) = Ok path /\
    exists shorter extra,
      gradient_descent_pytorch bowl (f64_of_Z 5, f64_of_Z 5) (f64_lit 1 10)
        3 (f64_lit 1 1000000) = Ok shorter /\
      path = shorter ++ extra.
Proof.
  destruct (gradient_descent_pytorch bowl (f64_of_Z 5, f64_of_Z 5)
              (f64_lit 1 10) 1000 (f64_lit 1 1000000))
    as [path|e] eqn:Hrun; [|vm_compute in Hrun; discriminate Hrun].
  exists path. split; [lia|]. split; [reflexivity|].
  apply (fewer_iterations_prefix bowl (f64_of_Z 5, f64_of_Z 5) (f64_lit 1 10)
           (f64_lit 1 1000000) 3 1000 path); [lia|exact Hrun].
Defined.

(** ** The tolerance *)

(** [a < t] and [t <= t'] give [a < t'], for all floats. *)
Lemma SFltb_leb_trans a t t' :
  SFltb a t = true -> SFleb t t' = true -> SFltb a t' = true.
Proof.
  unfold SFltb, SFleb.
  destruct a as [sa|sa| |sa ma ea], t as [st|st| |st mt et],
    t' as [su|su| |su mu eu];
    cbn [SFcompare]; try discriminate; trivial;
    try (destruct sa, st, su; cbn; trivial; discriminate);
    try (destruct sa, st; cbn; trivial; discriminate);
    try (destruct st, su; cbn; trivial; discriminate);
    try (destruct sa, su; cbn; trivial; discriminate).
  change (Pcompare ma mt Eq) with (Pos.compare ma mt).
  change (Pcompare mt mu Eq) with (Pos.compare mt mu).
  change (Pcompare ma mu Eq) with (Pos.compare ma mu).
  destruct sa, st, su; cbn; trivial; try discriminate;
    destruct (Z.compare_spec ea et), (Z.compare_spec et eu),
      (Z.compare_spec ea eu); trivial; try discriminate; try lia;
    destruct (Pos.compare_spec ma mt), (Pos.compare_spec mt mu),
      (Pos.compare_spec ma mu); cbn; trivial; try discriminate; lia.
Qed.

Lemma converged_mono grad tolerance tolerance' :
  SFleb tolerance tolerance' = true ->
  converged grad tolerance = true -> converged grad tolerance' = true.
Proof.
  unfold converged, py_lt. intros Hle Hlt.
  exact (SFltb_leb_trans _ _ _ Hlt Hle).
Qed.

Lemma loop_tolerance_prefix func learning_rate tolerance tolerance' n st st2 :
  SFleb tolerance tolerance' = true ->
  descent_loop func learning_rate tolerance n st = Ok st2 ->
  exists st1 extra,
    descent_loop func learning_rate tolerance' n st = Ok st1 /\
    st_path st2 = st_path st1 ++ extra.
Proof.
  intros Hle. revert st. induction n as [|n IH]; intros st Hrun.
  - cbn in Hrun |- *. injection Hrun as <-. exists st, [].
    split; [reflexivity|]. symmetry. apply app_nil_r.
  - cbn [descent_loop] in Hrun |- *.
    destruct (call func (fst (st_x st)) (snd (st_x st))) as [y|e];
      [|discriminate].
    cbn [bind] in Hrun |- *.
    destruct (backward func (fst (st_x st)) (snd (st_x st))) as [grad|e];
      [|discriminate].
    cbn [bind] in Hrun |- *.
    set (x' := isub (st_x st) (scale learning_rate grad)) in *.
    destruct (call func (fst x') (snd x')) as [new_y|e]; [|discriminate].
    cbn [bind] in Hrun |- *.
    destruct (converged grad tolerance) eqn:Hc.
    + rewrite (converged_mono _ _ _ Hle Hc).
      injection Hrun as <-. eexists. exists []. split; [reflexivity|].
      symmetry. apply app_nil_r.
    + destruct (converged grad tolerance').
      * eexists. destruct (path_grows _ _ _ _ _ _ Hrun) as [extra He].
        exists extra. split; [reflexivity|]. exact He.
      * apply IH, Hrun.
Qed.

(** X2.  Raising the tolerance can only cut the run short: whenever the
    run with [tolerance] returns and [tolerance <= tolerance'], the run
    with [tolerance'] returns as well, and its trajectory is a prefix of
    the other. *)
Theorem larger_tolerance_prefix func start_point learning_rate max_iters
    tolerance tolerance' path :
  SFleb tolerance tolerance' = true ->
  gradient_descent_pytorch func start_point learning_rate max_iters tolerance
    = Ok path ->
  exists shorter extra,
    gradient_descent_pytorch func start_point learning_rate max_iters
      tolerance' = Ok shorter /\
    path = shorter ++ extra.
Proof.
  intros Hle. unfold gradient_descent_pytorch, descent_run.
  destruct (call func (fst (torch_tensor start_point))
                      (snd (torch_tensor start_point))) as [y|e];
    [|discriminate].
  cbn [bind].
  destruct (descent_loop func learning_rate tolerance _ _) as [st2|e] eqn:Hrun;
    [|discriminate].
  cbn [bind]. intros Hp. injection Hp as <-.
  destruct (loop_tolerance_prefix _ _ _ _ _ _ _ Hle Hrun)
    as (st1 & extra & -> & He).
  cbn [bind]. eauto.
Qed.

Lemma larger_tolerance_prefix_witness :
  exists path,
    SFleb (f64_lit 1 1000000) (f64_lit 1 100) = true /\
    gradient_descent_pytorch bowl (f64_of_Z 5, f64_of_Z 5) (f64_lit 1 10)
      1000 (f64_lit 1 1000000) = Ok path /\
    exists shorter extra,
      gradient_descent_pytorch bowl (f64_of_Z 5, f64_of_Z 5) (f64_lit 1 10)
        1000 (f64_lit 1 100) = Ok shorter /\
      path = shorter ++ extra.
Proof.
  destruct (gradient_descent_pytorch bowl (f64_of_Z 5, f64_of_Z 5)
              (f64_lit 1 10) 1000 (f64_lit 1 1000000))
    as [path|e] eqn:Hrun; [|vm_compute in Hrun; discriminate Hrun].
  exists path. split; [reflexivity|]. split; [reflexivity|].
  apply (larger_tolerance_prefix bowl (f64_of_Z 5, f64_of_Z 5) (f64_lit 1 10)
           1000 (f64_lit 1 1000000) (f64_lit 1 100) path);
    [reflexivity|exact Hrun].
Defined.

(** Nothing that is not negative compares below a float that zero does
    not compare below. *)
Lemma not_negative_not_below_zero a t :
  not_negative a -> py_lt pzero t = false -> py_lt a t = false.
Proof.
  destruct a as [sa|[]| |[] ma ea]; cbn; try contradiction; intros _;
    destruct t as [st|[]| |[] mt et]; cbn; trivial; discriminate.
Qed.

Lemma no_tolerance_never_converged grad tolerance :
  py_lt pzero tolerance = false -> converged grad tolerance = false.
Proof.
  intros H. unfold converged.
  apply not_negative_not_below_zero; trivial.
  apply item_not_negative, sqrt32_not_negative.
Qed.

(** X3.  Only a tolerance above zero can end the loop early: with a
    tolerance that is zero, negative or NaN, the run on an objective
    that never raises makes all [max_iters] updates and returns
    [max_iters + 1] rows. *)
Theorem zero_tolerance_runs_out func start_point learning_rate max_iters
    tolerance :
  never_raises func ->
  py_lt pzero tolerance = false ->
  exists st,
    descent_run func start_point learning_rate max_iters tolerance = Ok st /\
    gradient_descent_pytorch func start_point learning_rate max_iters
      tolerance = Ok (st_path st) /\
    st_updates st = Z.to_nat max_iters /\
    length (st_path st) = S (Z.to_nat max_iters).
Proof.
  intros Hnr Htol.
  destruct (trajectory_length_aux func start_point learning_rate max_iters
              tolerance Hnr) as (st & Hrun & Hgd & Hlen & _).
  exists st. split; trivial. split; trivial.
  assert (Hn : st_updates st = Z.to_nat max_iters).
  { destruct (descent_run_finished _ _ _ _ _ _ Hrun)
      as [st _ Hn | st grad new_y _ _ _ Hc]; trivial.
    rewrite no_tolerance_never_converged in Hc by trivial. discriminate. }
  split; trivial. congruence.
Qed.

Lemma zero_tolerance_runs_out_witness :
  never_raises flat /\ py_lt pzero pzero = false /\
  exists st,
    descent_run flat main_start main_learning_rate 5 pzero = Ok st /\
    gradient_descent_pytorch flat main_start main_learning_rate 5 pzero
      = Ok (st_path st) /\
    st_updates st = Z.to_nat 5 /\
    length (st_path st) = S (Z.to_nat 5).
Proof.
  split; [exact flat_never_raises|]. split; [reflexivity|].
  apply (zero_tolerance_runs_out flat main_start main_learning_rate 5 pzero).
  - intros a b. split; eexists; reflexivity.
  - reflexivity.
Defined.

(** ** Exceptions *)

(** A run is the loop resumed from any state it reaches at the head. *)
Lemma head_resumes func start_point learning_rate tolerance max_iters st :
  at_head func start_point learning_rate tolerance st ->
  (st_updates st <= Z.to_nat max_iters)%nat ->
  descent_run func start_point learning_rate max_iters tolerance
  = descent_loop func learning_rate tolerance
      (Z.to_nat max_iters - st_updates st) st.
Proof.
  induction 1 as [y Hy | st grad new_y Hst IH Hans Hconv]; intros Hle.
  - unfold descent_run. rewrite Hy. cbn [bind st_updates].
    rewrite Nat.sub_0_r. reflexivity.
  - cbn [after_update st_updates] in Hle |- *.
    rewrite IH by lia.
    replace (Z.to_nat max_iters - st_updates st)%nat
      with (S (Z.to_nat max_iters - S (st_updates st))) by lia.
    destruct Hans as ([y Hy] & Hg & Hnew). cbn zeta in Hnew.
    cbn [descent_loop]. rewrite Hy. cbn [bind]. rewrite Hg. cbn [bind].
    rewrite Hnew. cbn [bind]. rewrite Hconv. reflexivity.
Qed.

(** X5.  An exception of the objective is not caught, wherever the run
    stands: when at the head of an iteration still to be made the
    backward pass raises, or the call at the updated tensor does, the
    function raises that exception. *)
Theorem exception_not_caught func start_point learning_rate max_iters
    tolerance st e :
  at_head func start_point learning_rate tolerance st ->
  (st_updates st < Z.to_nat max_iters)%nat ->
  backward func (fst (st_x st)) (snd (st_x st)) = Raise e \/
  (exists grad,
     backward func (fst (st_x st)) (snd (st_x st)) = Ok grad /\
     call func (fst (isub (st_x st) (scale learning_rate grad)))
               (snd (isub (st_x st) (scale learning_rate grad))) = Raise e) ->
  gradient_descent_pytorch func start_point learning_rate max_iters tolerance
  = Raise e.
Proof.
  intros Hst Hlt Hraise. unfold gradient_descent_pytorch.
  rewrite (head_resumes _ _ _ _ max_iters st Hst) by lia.
  replace (Z.to_nat max_iters - st_updates st)%nat
    with (S (Z.to_nat max_iters - S (st_updates st))) by lia.
  destruct (head_shaped _ _ _ _ st Hst) as ((_ & _ & (y & Hy & _)) & _).
  cbn [descent_loop]. rewrite Hy. cbn [bind].
  destruct Hraise as [Hg | (grad & Hg & Hnew)].
  - rewrite Hg. reflexivity.
  - rewrite Hg. cbn [bind]. rewrite Hnew. reflexivity.
Qed.

Lemma exception_not_caught_witness :
  at_head guarded (f64_of_Z 1, pzero) (f64_of_Z (-1)) main_tolerance
    (mkState (torch_tensor (f64_of_Z 1, pzero))
       [row (torch_tensor (f64_of_Z 1, pzero)) one32] 0) /\
  (0 < Z.to_nat 1000)%nat /\
  gradient_descent_pytorch guarded (f64_of_Z 1, pzero) (f64_of_Z (-1)) 1000
    main_tolerance = Raise (PyExc "ZeroDivisionError").
Proof.
  assert (H : at_head guarded (f64_of_Z 1, pzero) (f64_of_Z (-1))
                main_tolerance
                (mkState (torch_tensor (f64_of_Z 1, pzero))
                   [row (torch_tensor (f64_of_Z 1, pzero)) one32] 0))
    by (apply head_first; reflexivity).
  split; [exact H|]. split; [vm_compute; lia|].
  apply (exception_not_caught guarded (f64_of_Z 1, pzero) (f64_of_Z (-1)) 1000
           main_tolerance _ (PyExc "ZeroDivisionError") H).
  - vm_compute. lia.
  - right. eexists. split; reflexivity.
Defined.

(** ** The recorded values *)

Lemma rows_recorded func start_point learning_rate max_iters tolerance
    path s :
  gradient_descent_pytorch func start_point learning_rate max_iters tolerance
    = Ok path ->
  In s path ->
  exists p, value_recorded func s p.
Proof.
  unfold gradient_descent_pytorch.
  destruct (descent_run func start_point learning_rate max_iters tolerance)
    as [st|e] eqn:Hrun; [|discriminate].
  cbn [bind]. intros Hp. injection Hp as <-.
  destruct (finished_shaped _ _ _ _ _ _
              (descent_run_finished _ _ _ _ _ _ Hrun))
    as ((Hlen & (y0 & Hy0 & Hfirst) & _) & _ & Hlinks).
  intros Hin. apply In_nth_error in Hin. destruct Hin as [i Hs].
  destruct (Nat.eq_dec i 0) as [->|Hi].
  - exists (torch_tensor start_point), y0. split; trivial. congruence.
  - assert (Hlt : (i < length (st_path st))%nat)
      by (apply nth_error_Some; congruence).
    destruct (Hlinks i)
      as (c & (s0 & s' & p & g & _ & H2 & _ & _ & Hv & _) & _); [lia|].
    exists (isub p (scale learning_rate g)). congruence.
Qed.

(** X6.  Every row of a returned trajectory holds the value of the
    objective at the row's point: the row is that of a float32 tensor,
    and its third entry is what the objective returns there. *)
Theorem values_recorded func start_point learning_rate max_iters tolerance
    path i s :
  gradient_descent_pytorch func start_point learning_rate max_iters tolerance
    = Ok path ->
  nth_error path i = Some s ->
  exists p y,
    call func (fst p) (snd p) = Ok y /\
    s = mkSample (item (fst p)) (item (snd p)) (item y).
Proof.
  intros Hrun Hs.
  destruct (rows_recorded _ _ _ _ _ _ _ Hrun (nth_error_In _ _ Hs))
    as (p & y & Hy & ->).
  exists p, y. split; trivial.
Qed.

Lemma values_recorded_witness :
  gradient_descent_pytorch bowl main_start main_learning_rate main_max_iters
    main_tolerance
  = Ok [mkSample pzero pzero pzero; mkSample pzero pzero pzero] /\
  nth_error [mkSample pzero pzero pzero; mkSample pzero pzero pzero] 1
  = Some (mkSample pzero pzero pzero) /\
  exists p y,
    call bowl (fst p) (snd p) = Ok y /\
    mkSample pzero pzero pzero
    = mkSample (item (fst p)) (item (snd p)) (item y).
Proof.
  split; [vm_compute; reflexivity|]. split; [reflexivity|].
  apply (values_recorded bowl main_start main_learning_rate main_max_iters
           main_tolerance
           [mkSample pzero pzero pzero; mkSample pzero pzero pzero] 1).
  - vm_compute. reflexivity.
  - reflexivity.
Defined.

(** ** A start at a stationary point *)

Lemma scale_zero learning_rate :
  is_finite (to_f32 learning_rate) = true ->
  sign_of (to_f32 learning_rate) = false ->
  scale learning_rate (pzero, pzero) = (pzero, pzero).
Proof.
  unfold scale. cbn [fst snd].
  destruct (to_f32 learning_rate) as [[]|s| |[] m e]; cbn; intros H1 H2;
    try discriminate; reflexivity.
Qed.

Lemma isub_zero x : isub x (pzero, pzero) = x.
Proof.
  destruct x as [a b]. unfold isub. cbn [fst snd]. f_equal.
  - destruct a as [[]|s| |s m e]; reflexivity.
  - destruct b as [[]|s| |s m e]; reflexivity.
Qed.

(** X7.  Started where the gradient is zero, with a finite learning
    rate that is not negative and a tolerance above zero, the run makes
    one update, which leaves the point where it is, and stops: the
    trajectory is the start row twice. *)
Theorem stationary_start func start_point learning_rate max_iters tolerance
    y :
  call func (to_f32 (fst start_point)) (to_f32 (snd start_point)) = Ok y ->
  backward func (to_f32 (fst start_point)) (to_f32 (snd start_point))
    = Ok (pzero, pzero) ->
  is_finite (to_f32 learning_rate) = true ->
  sign_of (to_f32 learning_rate) = false ->
  py_lt pzero tolerance = true ->
  1 <= max_iters ->
  gradient_descent_pytorch func start_point learning_rate max_iters tolerance
  = Ok [row (torch_tensor start_point) y; row (torch_tensor start_point) y].
Proof.
  intros Hy Hg Hfin Hsign Htol Hmax.
  unfold gradient_descent_pytorch, descent_run, torch_tensor.
  cbn [fst snd]. rewrite Hy. cbn [bind].
  destruct (Z.to_nat max_iters) as [|n] eqn:Hn; [lia|].
  cbn [descent_loop st_x fst snd]. rewrite Hy. cbn [bind].
  rewrite Hg. cbn [bind].
  rewrite (scale_zero _ Hfin Hsign), isub_zero. cbn [fst snd].
  rewrite Hy. cbn [bind].
  change (converged (pzero, pzero) tolerance) with (py_lt pzero tolerance).
  rewrite Htol. reflexivity.
Qed.

Lemma stationary_start_witness :
  call bowl (to_f32 (fst main_start)) (to_f32 (snd main_start)) = Ok pzero /\
  backward bowl (to_f32 (fst main_start)) (to_f32 (snd main_start))
    = Ok (pzero, pzero) /\
  is_finite (to_f32 main_learning_rate) = true /\
  sign_of (to_f32 main_learning_rate) = false /\
  py_lt pzero main_tolerance = true /\
  1 <= main_max_iters /\
  gradient_descent_pytorch bowl main_start main_learning_rate main_max_iters
    main_tolerance
  = Ok [row (torch_tensor main_start) pzero;
        row (torch_tensor main_start) pzero].
Proof.
  split; [reflexivity|]. split; [reflexivity|]. split; [reflexivity|].
  split; [reflexivity|]. split; [reflexivity|].
  split; [unfold main_max_iters; lia|].
  apply (stationary_start bowl main_start main_learning_rate main_max_iters
           main_tolerance pzero); try reflexivity.
  unfold main_max_iters. lia.
Defined.

(** ** The call in [main] *)

(** X8.  Whatever objective is selected, as long as it never raises,
    the trajectory [main] obtains has between 2 and 1001 rows, and its
    first row is the point [(0.0, 0.0)] itself with the value of the
    objective there. *)
Theorem main_descent_rows selected_func :
  never_raises selected_func ->
  exists path y,
    main_descent selected_func = Ok path /\
    (2 <= length path <= 1001)%nat /\
    call selected_func pzero pzero = Ok y /\
    nth_error path 0 = Some (mkSample pzero pzero (item y)).
Proof.
  intros Hnr. unfold main_descent.
  destruct (trajectory_length_aux selected_func main_start main_learning_rate
              main_max_iters main_tolerance Hnr)
    as (st & Hrun & Hgd & Hlen & Hle & Hup).
  destruct (finished_shaped _ _ _ _ _ _
              (descent_run_finished _ _ _ _ _ _ Hrun))
    as ((_ & (y & Hy & Hfirst) & _) & _).
  exists (st_path st), y. split; trivial.
  specialize (Hup ltac:(unfold main_max_iters; lia)).
  change (Z.to_nat main_max_iters) with 1000%nat in Hle.
  split; [lia|]. split; trivial.
Qed.

Lemma main_descent_rows_witness :
  never_raises reciprocal /\
  exists path y,
    main_descent reciprocal = Ok path /\
    (2 <= length path <= 1001)%nat /\
    call reciprocal pzero pzero = Ok y /\
    nth_error path 0 = Some (mkSample pzero pzero (item y)).
Proof.
  split; [exact reciprocal_never_raises|].
  apply (main_descent_rows reciprocal).
  intros a b. split; eexists; reflexivity.
Defined.

(** * The catalogue of objectives *)

(** ** Sums of squares *)

Lemma binary_round_not_negative prec emax m e :
  not_negative (binary_round prec emax false m e).
Proof.
  unfold binary_round. destruct (shl_align m e _) as [mz ez].
  apply binary_round_aux_not_negative.
Qed.

Lemma square_not_negative t : not_negative (square t).
Proof.
  destruct t as [[]|[]| |[] m e]; cbn; trivial;
    apply binary_round_aux_not_negative.
Qed.

Lemma add32_not_negative a b :
  not_negative a -> not_negative b -> not_negative (add32 a b).
Proof.
  destruct a as [[]|[]| |[] ma ea]; cbn [not_negative]; try contradiction;
    intros _;
    destruct b as [[]|[]| |[] mb eb]; cbn [not_negative]; try contradiction;
    intros _; try exact I;
    unfold add32, SFadd; cbn [cond_Zopp Z.add binary_normalize];
    apply binary_round_not_negative.
Qed.

Lemma mul32_not_negative a b :
  not_negative a -> not_negative b -> not_negative (mul32 a b).
Proof.
  destruct a as [[]|[]| |[] ma ea]; cbn [not_negative]; try contradiction;
    intros _;
    destruct b as [[]|[]| |[] mb eb]; cbn [not_negative]; try contradiction;
    intros _; try exact I;
    unfold mul32, SFmul; cbn [xorb];
    apply binary_round_aux_not_negative.
Qed.

Lemma not_negative_not_lt_zero a : not_negative a -> SFltb a pzero = false.
Proof.
  destruct a as [[]|[]| |[] m e]; cbn; trivial; contradiction.
Qed.

Lemma himmelblau_not_negative x1 x2 :
  SFltb (himmelblau x1 x2) pzero = false.
Proof.
  apply not_negative_not_lt_zero.
  apply add32_not_negative; apply square_not_negative.
Qed.

Lemma rosenbrock_not_negative x1 x2 :
  SFltb (rosenbrock x1 x2) pzero = false.
Proof.
  apply not_negative_not_lt_zero.
  apply add32_not_negative; [apply square_not_negative|].
  apply mul32_not_negative; [exact I|apply square_not_negative].
Qed.

Lemma booth_not_negative x1 x2 : SFltb (booth x1 x2) pzero = false.
Proof.
  apply not_negative_not_lt_zero.
  apply add32_not_negative; apply square_not_negative.
Qed.

Lemma beale_not_negative cube x1 x2 :
  SFltb (beale cube x1 x2) pzero = false.
Proof.
  apply not_negative_not_lt_zero. unfold beale.
  repeat apply add32_not_negative; apply square_not_negative.
Qed.

(** X9.  [himmelblau] never returns a value below zero, whatever floats
    it is given, and returns zero at [(3, 2)]: the minimum [0] of the
    function survives the rounding. *)
Theorem himmelblau_not_below_zero x1 x2 :
  SFltb (himmelblau x1 x2) pzero = false /\
  himmelblau (f32_of_Z 3) (f32_of_Z 2) = pzero.
Proof.
  split; [apply himmelblau_not_negative|vm_compute; reflexivity].
Qed.

(** X10.  [rosenbrock] with its defaults never returns a value below
    zero, and returns zero at [(1, 1)]. *)
Theorem rosenbrock_not_below_zero x1 x2 :
  SFltb (rosenbrock x1 x2) pzero = false /\
  rosenbrock (f32_of_Z 1) (f32_of_Z 1) = pzero.
Proof.
  split; [apply rosenbrock_not_negative|vm_compute; reflexivity].
Qed.

(** X11.  [booth] never returns a value below zero, and returns zero at
    [(1, 3)]. *)
Theorem booth_not_below_zero x1 x2 :
  SFltb (booth x1 x2) pzero = false /\
  booth (f32_of_Z 1) (f32_of_Z 3) = pzero.
Proof.
  split; [apply booth_not_negative|vm_compute; reflexivity].
Qed.

(** X12.  [beale] never returns a value below zero, however the cube
    of [x2] is evaluated. *)
Theorem beale_not_below_zero cube x1 x2 :
  SFltb (beale cube x1 x2) pzero = false.
Proof. apply beale_not_negative. Qed.

Lemma item_not_lt_zero a :
  SFltb a pzero = false -> py_lt (item a) pzero = false.
Proof.
  intros H. apply not_negative_not_lt_zero, item_not_negative.
  destruct a as [[]|[]| |[] m e]; cbn; trivial; discriminate.
Qed.

(** X13.  A trajectory on [himmelblau], [rosenbrock], [booth] or
    [beale] never shows a value below zero, whatever the start point,
    the learning rate and the gradients. *)
Theorem sum_of_squares_trajectory f grad start_point learning_rate max_iters
    tolerance path s :
  f = himmelblau \/ f = rosenbrock \/ f = booth \/
  (exists cube, f = beale cube) ->
  gradient_descent_pytorch (differentiated f grad) start_point learning_rate
    max_iters tolerance = Ok path ->
  In s path ->
  py_lt (s_y s) pzero = false.
Proof.
  intros Hf Hrun Hs.
  destruct (rows_recorded _ _ _ _ _ _ _ Hrun Hs) as (p & y & Hy & ->).
  cbn [differentiated call] in Hy. injection Hy as <-.
  cbn [row s_y]. apply item_not_lt_zero.
  destruct Hf as [-> | [-> | [-> | [cube ->]]]].
  - apply himmelblau_not_negative.
  - apply rosenbrock_not_negative.
  - apply booth_not_negative.
  - apply beale_not_negative.
Qed.

Lemma sum_of_squares_trajectory_witness :
  (himmelblau = himmelblau \/ himmelblau = rosenbrock \/
   himmelblau = booth \/ (exists cube, himmelblau = beale cube)) /\
  gradient_descent_pytorch
    (differentiated himmelblau (fun _ _ => Ok (pzero, pzero)))
    main_start main_learning_rate main_max_iters main_tolerance
  = Ok [mkSample pzero pzero (f64_of_Z 170);
        mkSample pzero pzero (f64_of_Z 170)] /\
  In (mkSample pzero pzero (f64_of_Z 170))
     [mkSample pzero pzero (f64_of_Z 170);
      mkSample pzero pzero (f64_of_Z 170)] /\
  py_lt (s_y (mkSample pzero pzero (f64_of_Z 170))) pzero = false.
Proof.
  split; [left; reflexivity|]. split; [vm_compute; reflexivity|].
  split; [left; reflexivity|].
  apply (sum_of_squares_trajectory himmelblau (fun _ _ => Ok (pzero, pzero))
           main_start main_learning_rate main_max_iters main_tolerance
           [mkSample pzero pzero (f64_of_Z 170);
            mkSample pzero pzero (f64_of_Z 170)]
           (mkSample pzero pzero (f64_of_Z 170))).
  - left. reflexivity.
  - vm_compute. reflexivity.
  - left. reflexivity.
Defined.

(** ** Symmetries *)

Lemma binary_round_aux_opp prec emax s m e l :
  binary_round_aux prec emax (negb s) m e l
  = SFopp (binary_round_aux prec emax s m e l).
Proof.
  unfold binary_round_aux.
  destruct (shr_fexp prec emax m e l) as [mrs' e'].
  destruct (shr_fexp prec emax _ e' loc_Exact) as [mrs'' e''].
  destruct (shr_m mrs''); cbn; trivial.
  destruct (e'' <=? emax - prec); reflexivity.
Qed.

Lemma mul32_opp_l a b : mul32 (SFopp a) b = SFopp (mul32 a b).
Proof.
  destruct a as [sa|sa| |sa ma ea], b as [sb|sb| |sb mb eb]; cbn;
    try reflexivity; try (destruct sa, sb; reflexivity).
  rewrite <- binary_round_aux_opp. destruct sa, sb; reflexivity.
Qed.

Lemma mul32_opp_r a b : mul32 a (SFopp b) = SFopp (mul32 a b).
Proof.
  destruct a as [sa|sa| |sa ma ea], b as [sb|sb| |sb mb eb]; cbn;
    try reflexivity; try (destruct sa, sb; reflexivity).
  rewrite <- binary_round_aux_opp. destruct sa, sb; reflexivity.
Qed.

Lemma SFopp_involutive a : SFopp (SFopp a) = a.
Proof. destruct a as [[]|[]| |[] m e]; reflexivity. Qed.

Lemma square_opp t : square (SFopp t) = square t.
Proof.
  unfold square. rewrite mul32_opp_l, mul32_opp_r. apply SFopp_involutive.
Qed.

Lemma add32_comm a b : add32 a b = add32 b a.
Proof.
  destruct a as [[]|[]| |sa ma ea], b as [[]|[]| |sb mb eb];
    try reflexivity.
  unfold add32, SFadd. rewrite (Z.min_comm eb ea). f_equal. apply Z.add_comm.
Qed.

(** X14.  [schaffer] depends on its arguments through [x1**2 + x2**2]
    alone, also in float32: changing the sign of an argument or
    exchanging the two does not change the value returned. *)
Theorem schaffer_symmetric x1 x2 :
  schaffer (SFopp x1) x2 = schaffer x1 x2 /\
  schaffer x1 (SFopp x2) = schaffer x1 x2 /\
  schaffer x2 x1 = schaffer x1 x2.
Proof.
  unfold schaffer. rewrite !square_opp.
  rewrite (add32_comm (square x2) (square x1)). auto.
Qed.

(** X15.  [matyas] takes the same value at [(-x1, -x2)] as at
    [(x1, x2)]. *)
Theorem matyas_central_symmetry x1 x2 :
  matyas (SFopp x1) (SFopp x2) = matyas x1 x2.
Proof.
  unfold matyas. rewrite !square_opp.
  rewrite !mul32_opp_r, mul32_opp_l, SFopp_involutive.
  reflexivity.
Qed.

(** * The figures *)

(** ** Rows and frames *)

Lemma np_row_at path k s :
  nth_error path k = Some s -> np_row path (Z.of_nat k) = Ok s.
Proof.
  intros Hs. unfold np_row.
  assert (Hlt : (k < length path)%nat) by (apply nth_error_Some; congruence).
  replace (Z.of_nat k <? 0) with false by (symmetry; apply Z.ltb_ge; lia).
  replace (0 <=? Z.of_nat k) with true by (symmetry; apply Z.leb_le; lia).
  replace (Z.of_nat k <? Z.of_nat (length path)) with true
    by (symmetry; apply Z.ltb_lt; lia).
  cbn [andb]. rewrite Nat2Z.id, Hs. reflexivity.
Qed.

Lemma np_row_last init s : np_row (init ++ [s]) (-1) = Ok s.
Proof.
  unfold np_row. rewrite length_app. cbn [length].
  replace (-1 <? 0) with true by reflexivity.
  replace (0 <=? -1 + Z.of_nat (length init + 1)) with true
    by (symmetry; apply Z.leb_le; lia).
  replace (-1 + Z.of_nat (length init + 1) <? Z.of_nat (length init + 1))
    with true by (symmetry; apply Z.ltb_lt; lia).
  cbn [andb].
  replace (Z.to_nat (-1 + Z.of_nat (length init + 1))) with (length init)
    by lia.
  rewrite nth_error_app2 by lia. rewrite Nat.sub_diag. reflexivity.
Qed.

Lemma np_rows_upto_at path k :
  (k < length path)%nat ->
  np_rows_upto path (Z.of_nat k + 1) = firstn (S k) path.
Proof.
  intros Hlt. unfold np_rows_upto.
  replace (Z.of_nat k + 1 <? 0) with false by (symmetry; apply Z.ltb_ge; lia).
  f_equal. lia.
Qed.

Lemma firstn_snoc (path : list sample) k s :
  nth_error path k = Some s -> firstn (S k) path = firstn k path ++ [s].
Proof.
  revert k. induction path as [|a path IH]; intros [|k] Hs;
    try discriminate.
  - cbn in Hs. injection Hs as ->. reflexivity.
  - cbn [firstn app]. f_equal. apply IH. exact Hs.
Qed.

Lemma update_at path k s :
  nth_error path k = Some s ->
  update path (Z.of_nat k)
  = Ok (mkFrame (map s_x1 (firstn (S k) path)) (map s_x2 (firstn (S k) path))
          (map s_y (firstn (S k) path)) s (Z.of_nat k)).
Proof.
  intros Hs. unfold update. rewrite (np_row_at _ _ _ Hs). cbn [bind].
  rewrite np_rows_upto_at; [reflexivity|].
  apply nth_error_Some. congruence.
Qed.

Lemma draw_all_seq path a n :
  (a + n <= length path)%nat ->
  exists ds,
    draw_all path (map Z.of_nat (seq a n)) = Ok ds /\
    length ds = n /\
    forall k s, (k < n)%nat -> nth_error path (a + k) = Some s ->
      nth_error ds k
      = Some (mkFrame (map s_x1 (firstn (S (a + k)) path))
                (map s_x2 (firstn (S (a + k)) path))
                (map s_y (firstn (S (a + k)) path)) s (Z.of_nat (a + k))).
Proof.
  revert a. induction n as [|n IH]; intros a Hle.
  - exists []. repeat split; trivial. intros k s Hk. lia.
  - cbn [seq map draw_all].
    destruct (nth_error path a) as [s0|] eqn:Hs0.
    2:{ apply nth_error_None in Hs0. lia. }
    rewrite (update_at _ _ _ Hs0). cbn [bind].
    destruct (IH (S a)) as (ds & -> & Hlen & Hnth); [lia|].
    cbn [bind]. eexists. split; [reflexivity|]. split; [cbn; lia|].
    intros [|k] s Hk Hs.
    + rewrite Nat.add_0_r in *. cbn. congruence.
    + cbn [nth_error]. replace (a + S k)%nat with (S a + k)%nat in * by lia.
      apply Hnth; [lia|exact Hs].
Qed.

(** X16.  The animation never reads outside the path: for every path it
    draws one frame per row; frame [k] marks row [k], shows [k] as the
    iteration, and draws as line the rows up to and including row [k],
    so that the marker sits at the end of the line and the last frame
    shows the whole path. *)
Theorem animation_frames path :
  exists ds,
    animation path = Ok ds /\
    length ds = length path /\
    forall k s, nth_error path k = Some s ->
      exists d,
        nth_error ds k = Some d /\
        point d = s /\ shown_iteration d = Z.of_nat k /\
        line_x1 d = map s_x1 (firstn k path) ++ [s_x1 s] /\
        line_x2 d = map s_x2 (firstn k path) ++ [s_x2 s] /\
        line_y d = map s_y (firstn k path) ++ [s_y s] /\
        (S k = length path ->
         line_x1 d = map s_x1 path /\ line_x2 d = map s_x2 path /\
         line_y d = map s_y path).
Proof.
  destruct (draw_all_seq path 0 (length path)) as (ds & Hds & Hlen & Hnth);
    [lia|].
  exists ds. split; [exact Hds|]. split; [exact Hlen|].
  intros k s Hs.
  assert (Hlt : (k < length path)%nat) by (apply nth_error_Some; congruence).
  specialize (Hnth k s Hlt Hs). cbn [Nat.add] in Hnth.
  eexists. split; [exact Hnth|]. cbn [point shown_iteration line_x1 line_x2
                                      line_y].
  split; trivial. split; trivial.
  assert (Hall : S k = length path -> firstn (S k) path = path)
    by (intros ->; apply firstn_all).
  split; [rewrite (firstn_snoc _ _ _ Hs), map_app; reflexivity|].
  split; [rewrite (firstn_snoc _ _ _ Hs), map_app; reflexivity|].
  split; [rewrite (firstn_snoc _ _ _ Hs), map_app; reflexivity|].
  intros Hk. rewrite (Hall Hk). auto.
Qed.

(** ** The markers *)

(** X17.  In the figure of a returned trajectory the marker of the
    start is the row of the start tensor, and the marker of the minimum
    is the row of the tensor the run ended with, with the value of the
    objective there. *)
Theorem markers_of_run func start_point learning_rate max_iters tolerance :
  never_raises func ->
  exists st y0 y,
    descent_run func start_point learning_rate max_iters tolerance = Ok st /\
    gradient_descent_pytorch func start_point learning_rate max_iters
      tolerance = Ok (st_path st) /\
    call func (fst (torch_tensor start_point)) (snd (torch_tensor start_point))
      = Ok y0 /\
    start_marker (st_path st) = Ok (row (torch_tensor start_point) y0) /\
    call func (fst (st_x st)) (snd (st_x st)) = Ok y /\
    end_marker (st_path st) = Ok (row (st_x st) y).
Proof.
  intros Hnr.
  destruct (descent_run_returns func start_point learning_rate tolerance
              max_iters Hnr) as (st & Hrun & Hgd).
  destruct (finished_shaped _ _ _ _ _ _
              (descent_run_finished _ _ _ _ _ _ Hrun))
    as ((Hlen & (y0 & Hy0 & Hfirst) & (y & Hy & Hlast)) & _).
  exists st, y0, y. repeat split; trivial.
  - apply (np_row_at _ 0). exact Hfirst.
  - unfold end_marker.
    destruct (st_path st) as [|a l] eqn:Hp using rev_ind; [discriminate|].
    clear IHl. rewrite length_app in Hlen. cbn in Hlen.
    rewrite nth_error_app2 in Hlast by lia.
    replace (st_updates st - length l)%nat with 0%nat in Hlast by lia.
    cbn in Hlast. injection Hlast as ->. apply np_row_last.
Qed.

Lemma markers_of_run_witness :
  never_raises bowl /\
  exists st y0 y,
    descent_run bowl (f64_of_Z 5, f64_of_Z 5) (f64_lit 1 10) 1000
      (f64_lit 1 1000000) = Ok st /\
    gradient_descent_pytorch bowl (f64_of_Z 5, f64_of_Z 5) (f64_lit 1 10)
      1000 (f64_lit 1 1000000) = Ok (st_path st) /\
    call bowl (fst (torch_tensor (f64_of_Z 5, f64_of_Z 5)))
              (snd (torch_tensor (f64_of_Z 5, f64_of_Z 5))) = Ok y0 /\
    start_marker (st_path st)
    = Ok (row (torch_tensor (f64_of_Z 5, f64_of_Z 5)) y0) /\
    call bowl (fst (st_x st)) (snd (st_x st)) = Ok y /\
    end_marker (st_path st) = Ok (row (st_x st) y).
Proof.
  split; [exact bowl_never_raises|].
  apply (markers_of_run bowl (f64_of_Z 5, f64_of_Z 5) (f64_lit 1 10) 1000
           (f64_lit 1 1000000)).
  intros a b. split; eexists; reflexivity.
Defined.

(** ** The range of the axes *)

Lemma in_float64_not_nan d : in_float64 d -> is_nan d = false.
Proof. intros [Hf _]. destruct d; trivial; discriminate. Qed.

Lemma np_minimum_spec a b :
  in_float64 a -> in_float64 b ->
  (np_minimum a b = a \/ np_minimum a b = b) /\
  num (np_minimum a b) <= num a /\ num (np_minimum a b) <= num b.
Proof.
  intros Ha Hb. unfold np_minimum.
  rewrite (leb64_spec _ _ Ha Hb), (in_float64_not_nan _ Ha), orb_false_r.
  destruct (Z.leb_spec (num a) (num b)); split; auto; lia.
Qed.

Lemma np_maximum_spec a b :
  in_float64 a -> in_float64 b ->
  (np_maximum a b = a \/ np_maximum a b = b) /\
  num a <= num (np_maximum a b) /\ num b <= num (np_maximum a b).
Proof.
  intros Ha Hb. unfold np_maximum.
  rewrite (leb64_spec _ _ Hb Ha), (in_float64_not_nan _ Ha), orb_false_r.
  destruct (Z.leb_spec (num b) (num a)); split; auto; lia.
Qed.

(** The reduction returns an entry of the column, the least one. *)
Lemma fold_minimum_spec col a :
  in_float64 a -> Forall in_float64 col ->
  In (fold_left np_minimum col a) (a :: col) /\
  forall x, In x (a :: col) -> num (fold_left np_minimum col a) <= num x.
Proof.
  intros Ha Hcol. revert a Ha.
  induction Hcol as [|b col Hb Hcol IH]; intros a Ha.
  - cbn. split; [auto|]. intros x [<-|[]]. lia.
  - cbn [fold_left].
    destruct (np_minimum_spec a b Ha Hb) as (Hor & Hla & Hlb).
    assert (Hm : in_float64 (np_minimum a b))
      by (destruct Hor as [-> | ->]; trivial).
    destruct (IH _ Hm) as (Hin & Hle). split.
    + destruct Hin as [<-|Hin].
      * destruct Hor as [-> | ->]; cbn; auto.
      * right. right. exact Hin.
    + pose proof (Hle _ (or_introl eq_refl)) as H0.
      intros x [<-|[<-|Hx]]; try lia.
      apply Hle. right. exact Hx.
Qed.

Lemma fold_maximum_spec col a :
  in_float64 a -> Forall in_float64 col ->
  In (fold_left np_maximum col a) (a :: col) /\
  forall x, In x (a :: col) -> num x <= num (fold_left np_maximum col a).
Proof.
  intros Ha Hcol. revert a Ha.
  induction Hcol as [|b col Hb Hcol IH]; intros a Ha.
  - cbn. split; [auto|]. intros x [<-|[]]. lia.
  - cbn [fold_left].
    destruct (np_maximum_spec a b Ha Hb) as (Hor & Hla & Hlb).
    assert (Hm : in_float64 (np_maximum a b))
      by (destruct Hor as [-> | ->]; trivial).
    destruct (IH _ Hm) as (Hin & Hle). split.
    + destruct Hin as [<-|Hin].
      * destruct Hor as [-> | ->]; cbn; auto.
      * right. right. exact Hin.
    + pose proof (Hle _ (or_introl eq_refl)) as H0.
      intros x [<-|[<-|Hx]]; try lia.
      apply Hle. right. exact Hx.
Qed.

Lemma two64_spec : in_float64 two64 /\ num two64 = 2 * unit_scaled.
Proof. split; [split; reflexivity|]. vm_compute. reflexivity. Qed.

Lemma pow2_64_129 :
  in_float64 (pow2_64 129) /\ num (pow2_64 129) = 2 * top_scaled.
Proof. split; [split; reflexivity|]. vm_compute. reflexivity. Qed.

Lemma unit_below_top : 0 < 2 * unit_scaled <= top_scaled.
Proof. vm_compute. split; [reflexivity|discriminate]. Qed.

(** Two below a plain float is a float not above it; two above, one
    not below it. *)
Lemma lower_margin m :
  plain m ->
  in_float64 (SFsub 53 1024 m two64) /\
  num (SFsub 53 1024 m two64) <= num m.
Proof.
  intros [Hm Hb]. destruct two64_spec as [H2 Hn2].
  destruct pow2_64_129 as [Hy Hny]. pose proof unit_below_top as Hu.
  destruct (SFsub_spec 53 1024 scale_exp ltac:(lia) ltac:(lia) scale64
              m two64 Hm H2) as [Hf Hv].
  { apply (round_mag_no_overflow 53 1024 scale_exp ltac:(lia) ltac:(lia)
             scale64 _ (pow2_64 129) Hy).
    fold (num m) (num two64) (num (pow2_64 129)). rewrite Hn2, Hny. lia. }
  split; trivial. fold (num m) (num two64) in Hv. unfold num at 1.
  rewrite Hv, Hn2.
  rewrite <- (round_num_in_format 53 1024 scale_exp ltac:(lia) scale64 m Hm)
    at 2.
  apply round_num_mono; [lia|exact scale64|]. fold (num m). lia.
Qed.

Lemma upper_margin m :
  plain m ->
  in_float64 (SFadd 53 1024 m two64) /\
  num m <= num (SFadd 53 1024 m two64).
Proof.
  intros [Hm Hb]. destruct two64_spec as [H2 Hn2].
  destruct pow2_64_129 as [Hy Hny]. pose proof unit_below_top as Hu.
  destruct (SFadd_spec 53 1024 scale_exp ltac:(lia) ltac:(lia) scale64
              m two64 Hm H2) as [Hf Hv].
  { apply (round_mag_no_overflow 53 1024 scale_exp ltac:(lia) ltac:(lia)
             scale64 _ (pow2_64 129) Hy).
    fold (num m) (num two64) (num (pow2_64 129)). rewrite Hn2, Hny. lia. }
  split; trivial. fold (num m) (num two64) in Hv. unfold num at 2.
  rewrite Hv, Hn2.
  rewrite <- (round_num_in_format 53 1024 scale_exp ltac:(lia) scale64 m Hm)
    at 1.
  apply round_num_mono; [lia|exact scale64|]. fold (num m). lia.
Qed.

Lemma axis_range_spec col :
  col <> [] -> Forall plain col ->
  exists lo hi,
    axis_range col = Ok (lo, hi) /\
    forall x, In x col -> SFleb lo x = true /\ SFleb x hi = true.
Proof.
  intros Hne Hcol. destruct col as [|a col]; [contradiction|].
  assert (Hfmt : Forall in_float64 (a :: col)).
  { eapply Forall_impl; [|exact Hcol]. intros d [Hd _]. exact Hd. }
  inversion Hfmt as [|a' col' Ha Hrest]; subst.
  destruct (fold_minimum_spec col a Ha Hrest) as [Hin1 Hle1].
  destruct (fold_maximum_spec col a Ha Hrest) as [Hin2 Hle2].
  pose proof (proj1 (Forall_forall _ _) Hcol) as Hall.
  destruct (lower_margin _ (Hall _ Hin1)) as [Hlo Hlo'].
  destruct (upper_margin _ (Hall _ Hin2)) as [Hhi Hhi'].
  unfold axis_range. cbn [np_min np_max bind].
  eexists. eexists. split; [reflexivity|].
  intros x Hx. destruct (Hall _ Hx) as [Hfx _].
  specialize (Hle1 _ Hx). specialize (Hle2 _ Hx).
  rewrite (leb64_spec _ _ Hlo Hfx), (leb64_spec _ _ Hfx Hhi).
  split; apply Z.leb_le; lia.
Qed.

Lemma plot_range_spec path :
  path <> [] ->
  (forall s, In s path -> plain (s_x1 s) /\ plain (s_x2 s)) ->
  exists x1_min x1_max x2_min x2_max,
    plot_range path = Ok ((x1_min, x1_max), (x2_min, x2_max)) /\
    forall s, In s path ->
      SFleb x1_min (s_x1 s) = true /\ SFleb (s_x1 s) x1_max = true /\
      SFleb x2_min (s_x2 s) = true /\ SFleb (s_x2 s) x2_max = true.
Proof.
  intros Hne Hplain.
  destruct (axis_range_spec (map s_x1 path)) as (lo1 & hi1 & H1 & Hin1).
  { destruct path; [contradiction|discriminate]. }
  { apply Forall_forall. intros d Hd. apply in_map_iff in Hd.
    destruct Hd as (s & <- & Hs). apply (Hplain s Hs). }
  destruct (axis_range_spec (map s_x2 path)) as (lo2 & hi2 & H2 & Hin2).
  { destruct path; [contradiction|discriminate]. }
  { apply Forall_forall. intros d Hd. apply in_map_iff in Hd.
    destruct Hd as (s & <- & Hs). apply (Hplain s Hs). }
  exists lo1, hi1, lo2, hi2. unfold plot_range. rewrite H1, H2.
  split; [reflexivity|].
  intros s Hs.
  destruct (Hin1 (s_x1 s) (in_map _ _ _ Hs)).
  destruct (Hin2 (s_x2 s) (in_map _ _ _ Hs)). auto.
Qed.



(** The reading of a finite float32 is plain. *)
Lemma item_plain a : in_float32 a -> plain (item a).
Proof.
  intros Ha. destruct (item_spec a Ha) as [Hf Hn]. split; trivial.
  rewrite Hn. apply num_bound, Ha.
Qed.

(** * The run on the bowl stays in the box of its start *)

Section Bowl_box.

Variable start_point : f64 * f64.
Variables learning_rate tolerance : f64.

Hypothesis start1 : within (to_f32 (fst start_point)).
Hypothesis start2 : within (to_f32 (snd start_point)).
Hypothesis rate_in_format : in_float32 (to_f32 learning_rate).
Hypothesis rate_range : 0 <= num (to_f32 learning_rate) <= unit_scaled.

Local Abbreviation x0 := (torch_tensor start_point).

Lemma row_in_box x y :
  within (fst x) -> within (snd x) -> in_box x0 (fst x) (snd x) ->
  plain (s_x1 (row x y)) /\ plain (s_x2 (row x y)) /\
  in_box x0 (s_x1 (row x y)) (s_x2 (row x y)).
Proof.
  intros [H1 _] [H2 _] [Hb1 Hb2]. cbn [row s_x1 s_x2].
  split; [apply item_plain; trivial|]. split; [apply item_plain; trivial|].
  unfold in_box.
  rewrite (proj2 (item_spec _ H1)), (proj2 (item_spec _ H2)). auto.
Qed.

Lemma bowl_box_update st grad new_y :
  bowl_inv st -> bowl_box x0 st ->
  answers bowl learning_rate st grad new_y ->
  bowl_box x0 (after_update learning_rate st grad new_y).
Proof.
  intros (H1 & H2 & _) ([Hb1 Hb2] & Hrows) (_ & Hg & _).
  cbn [bowl backward] in Hg. injection Hg as <-.
  destruct (grad_entry_l _ H1) as [Hg1 Hn1].
  destruct (grad_entry_r _ H2) as [Hg2 Hn2].
  destruct (coordinate_step _ _ _ H1 rate_in_format rate_range Hg1 Hn1)
    as [Hw1 Ha1].
  destruct (coordinate_step _ _ _ H2 rate_in_format rate_range Hg2 Hn2)
    as [Hw2 Ha2].
  assert (Hbox : in_box x0
            (sub32 (fst (st_x st))
               (mul32 (to_f32 learning_rate)
                  (add32 (mul32 two32 (fst (st_x st))) pzero)))
            (sub32 (snd (st_x st))
               (mul32 (to_f32 learning_rate)
                  (add32 pzero (mul32 two32 (snd (st_x st)))))))
    by (split; lia).
  unfold after_update, bowl_box. cbn [st_x st_path].
  unfold isub, scale. cbn [fst snd]. split; trivial.
  intros s Hs. apply in_app_or in Hs. destruct Hs as [Hs|[<-|[]]].
  - apply Hrows, Hs.
  - apply row_in_box; trivial.
Qed.

Lemma bowl_box_head st :
  at_head bowl start_point learning_rate tolerance st -> bowl_box x0 st.
Proof.
  induction 1 as [y Hy | st grad new_y Hst IH Hans Hconv].
  - assert (Hbox : in_box x0 (fst x0) (snd x0)) by (split; lia).
    split; trivial. cbn [st_path]. intros s [<-|[]].
    apply row_in_box; trivial.
  - apply bowl_box_update; trivial.
    apply (bowl_inv_head start_point learning_rate tolerance); trivial.
Qed.

Lemma bowl_box_finished max_iters st :
  finished bowl start_point learning_rate tolerance max_iters st ->
  bowl_box x0 st.
Proof.
  destruct 1 as [st Hst _ | st grad new_y Hst _ Hans _].
  - apply bowl_box_head; trivial.
  - apply bowl_box_update; trivial.
    + apply (bowl_inv_head start_point learning_rate tolerance); trivial.
    + apply bowl_box_head; trivial.
Qed.

End Bowl_box.

Lemma abs_leb64 a b :
  in_float64 a -> in_float64 b -> Z.abs (num a) <= Z.abs (num b) ->
  SFleb (SFabs a) (SFabs b) = true.
Proof.
  intros Ha Hb Hle.
  rewrite (leb64_spec _ _ (in_format_abs _ _ _ Ha) (in_format_abs _ _ _ Hb)).
  unfold num. rewrite !scaled_abs. apply Z.leb_le. exact Hle.
Qed.

(** X19.  On the bowl, under the conditions of the descent (a finite
    start point with a finite float32 gradient, a learning rate in
    [(0, 1]]), the run never leaves the box of its start: every
    coordinate of every row is finite and no farther from zero than that
    coordinate of the first row; and the ranges of the figures, computed
    from this trajectory, contain each of its rows. *)
Theorem bowl_run_in_box start_point learning_rate max_iters tolerance :
  python_finite (fst start_point) -> python_finite (snd start_point) ->
  gradient_finite bowl (torch_tensor start_point) ->
  python_finite learning_rate ->
  py_lt pzero learning_rate = true ->
  SFleb learning_rate one64 = true ->
  exists path first x1_min x1_max x2_min x2_max,
    gradient_descent_pytorch bowl start_point learning_rate max_iters
      tolerance = Ok path /\
    nth_error path 0 = Some first /\
    plot_range path = Ok ((x1_min, x1_max), (x2_min, x2_max)) /\
    forall s, In s path ->
      python_finite (s_x1 s) /\ python_finite (s_x2 s) /\
      SFleb (SFabs (s_x1 s)) (SFabs (s_x1 first)) = true /\
      SFleb (SFabs (s_x2 s)) (SFabs (s_x2 first)) = true /\
      SFleb x1_min (s_x1 s) = true /\ SFleb (s_x1 s) x1_max = true /\
      SFleb x2_min (s_x2 s) = true /\ SFleb (s_x2 s) x2_max = true.
Proof.
  intros Hs1 Hs2 (g & Hg & Hg1 & Hg2) Hlr Hpos Hle.
  cbn [bowl backward torch_tensor fst snd] in Hg. injection Hg as <-.
  cbn [fst snd] in Hg1, Hg2.
  destruct (descent_run_returns bowl start_point learning_rate tolerance
              max_iters bowl_never_raises) as (st & Hrun & Hgd).
  destruct (rate_unit learning_rate Hlr Hpos Hle) as [Hrg Hrr].
  pose proof (start_within _ Hs1 (finite_add_zero_r _ Hg1)) as Hw1.
  pose proof (start_within _ Hs2 (finite_add_zero_l _ Hg2)) as Hw2.
  pose proof (descent_run_finished _ _ _ _ _ _ Hrun) as Hfin.
  destruct (bowl_box_finished start_point learning_rate tolerance Hw1 Hw2
              Hrg Hrr max_iters st Hfin) as [_ Hrows].
  destruct (finished_shaped _ _ _ _ _ _ Hfin)
    as ((Hlen & (y0 & Hy0 & Hfirst) & _) & _).
  destruct (plot_range_spec (st_path st))
    as (lo1 & hi1 & lo2 & hi2 & Hrange & Hin).
  { intros Hnil. rewrite Hnil in Hlen. discriminate. }
  { intros s Hs. destruct (Hrows s Hs) as (H1 & H2 & _). auto. }
  exists (st_path st), (row (torch_tensor start_point) y0), lo1, hi1, lo2, hi2.
  split; trivial. split; trivial. split; trivial.
  intros s Hs. destruct (Hrows s Hs) as ([H1 _] & [H2 _] & [Hb1 Hb2]).
  destruct (Hin s Hs) as (Ha & Hb & Hc & Hd).
  destruct Hw1 as [Hf1 _]. destruct Hw2 as [Hf2 _].
  cbn [torch_tensor fst snd] in Hb1, Hb2.
  split; trivial. split; trivial.
  cbn [row s_x1 s_x2 torch_tensor fst snd].
  destruct (item_spec _ Hf1) as [Hi1 Hn1].
  destruct (item_spec _ Hf2) as [Hi2 Hn2].
  split; [apply abs_leb64; trivial; rewrite Hn1; trivial|].
  split; [apply abs_leb64; trivial; rewrite Hn2; trivial|].
  auto.
Qed.

Lemma bowl_run_in_box_witness :
  python_finite (fst (f64_of_Z 5, f64_of_Z 5)) /\
  python_finite (snd (f64_of_Z 5, f64_of_Z 5)) /\
  gradient_finite bowl (torch_tensor (f64_of_Z 5, f64_of_Z 5)) /\
  python_finite (f64_lit 1 10) /\
  py_lt pzero (f64_lit 1 10) = true /\
  SFleb (f64_lit 1 10) one64 = true /\
  exists path first x1_min x1_max x2_min x2_max,
    gradient_descent_pytorch bowl (f64_of_Z 5, f64_of_Z 5) (f64_lit 1 10)
      1000 main_tolerance = Ok path /\
    nth_error path 0 = Some first /\
    plot_range path = Ok ((x1_min, x1_max), (x2_min, x2_max)) /\
    forall s, In s path ->
      python_finite (s_x1 s) /\ python_finite (s_x2 s) /\
      SFleb (SFabs (s_x1 s)) (SFabs (s_x1 first)) = true /\
      SFleb (SFabs (s_x2 s)) (SFabs (s_x2 first)) = true /\
      SFleb x1_min (s_x1 s) = true /\ SFleb (s_x1 s) x1_max = true /\
      SFleb x2_min (s_x2 s) = true /\ SFleb (s_x2 s) x2_max = true.
Proof.
  split; [split; reflexivity|]. split; [split; reflexivity|].
  split; [eexists; split; [reflexivity|split; reflexivity]|].
  split; [split; reflexivity|].
  split; [reflexivity|]. split; [reflexivity|].
  apply (bowl_run_in_box (f64_of_Z 5, f64_of_Z 5) (f64_lit 1 10) 1000
           main_tolerance);
    first [reflexivity | split; reflexivity
          | eexists; split; [reflexivity|split; reflexivity]].
Defined.
